(** * palettd: the colour pipeline (parsing, conversion, contrast, naming)

    A shallow embedding of [src/color/parse.ts], [src/color/convert.ts],
    [src/color/contrast.ts] and [src/color/name.ts].

    JavaScript numbers are IEEE-754 binary64 values: they are modelled by
    Rocq's primitive [float], whose operations are the same correctly
    rounded ones.  [Math.pow], [Math.cbrt] and [Math.atan2] are
    implementation-approximated in ECMAScript; they are parameters of the
    development.  Strings are sequences of 8-bit code units; case
    mapping is the ASCII one, which is exact on ASCII text. *)

From Stdlib Require Import ZArith Floats Lia Bool List Ascii String.
From stdpp Require Import base option list strings gmap pretty.
Import ListNotations.

Set Warnings "-inexact-float".

Local Open Scope string_scope.
Local Open Scope Z_scope.

(** ** The JavaScript run time the sources rely on *)

Module JS.

(** *** Numbers *)

(** The number whose value is the integer [z], correctly rounded. *)
Definition Z2float (z : Z) : float :=
  SF2Prim (binary_normalize prec emax z 0 false).

Definition isNaN (x : float) : bool := is_nan x.

(** [Math.round]: the nearest integer, ties towards plus infinity; NaN,
    infinities, zeroes and integers are returned unchanged, and a value
    in [[-0.5, 0)] gives negative zero. *)
Definition Math_round (x : float) : float :=
  match Prim2SF x with
  | S754_finite s m e =>
      if 0 <=? e then x
      else
        let n := if s then Z.neg m else Z.pos m in
        let z := Z.shiftr (2 * n + Z.shiftl 1 (- e)) (1 - e) in
        if z =? 0 then (if s then PrimFloat.neg_zero else PrimFloat.zero) else Z2float z
  | _ => x
  end.

(** [Math.max] and [Math.min] of two numbers: NaN is contagious and
    positive zero is larger than negative zero. *)
Definition Math_max (x y : float) : float :=
  if is_nan x || is_nan y then PrimFloat.nan
  else if (x <? y)%float then y
  else if (y <? x)%float then x
  else if is_zero x && get_sign x then y else x.

Definition Math_min (x y : float) : float :=
  if is_nan x || is_nan y then PrimFloat.nan
  else if (x <? y)%float then x
  else if (y <? x)%float then y
  else if is_zero x && get_sign x then x else y.

Definition Math_max3 (x y z : float) : float := Math_max (Math_max x y) z.
Definition Math_min3 (x y z : float) : float := Math_min (Math_min x y) z.

Definition Math_sqrt (x : float) : float := PrimFloat.sqrt x.

Definition Math_PI : float := 3.141592653589793%float.

(** The remainder operator [%] on numbers: exact, with the sign of the
    dividend. *)
Definition fmod (x y : float) : float :=
  match Prim2SF x, Prim2SF y with
  | S754_nan, _ | _, S754_nan => PrimFloat.nan
  | S754_infinity _, _ => PrimFloat.nan
  | _, S754_zero _ => PrimFloat.nan
  | _, S754_infinity _ => x
  | S754_zero _, _ => x
  | S754_finite sx mx ex, S754_finite _ my ey =>
      let e := Z.min ex ey in
      let X := Z.shiftl (Z.pos mx) (ex - e) in
      let Y := Z.shiftl (Z.pos my) (ey - e) in
      let R := X mod Y in
      let v := SF2Prim (binary_normalize prec emax R e false) in
      if sx then (- v)%float else v
  end.

(** *** Characters and strings *)

Definition code (c : ascii) : Z := Z.of_N (N_of_ascii c).

(** White space of [trim], [\s], [parseInt] and [parseFloat], among the
    code units below 256. *)
Definition is_ws (c : ascii) : bool :=
  let n := code c in
  ((9 <=? n) && (n <=? 13)) || (n =? 32) || (n =? 160).

Definition is_digit (c : ascii) : bool :=
  let n := code c in (48 <=? n) && (n <=? 57).

Definition is_lower (c : ascii) : bool :=
  let n := code c in (97 <=? n) && (n <=? 122).

Definition is_upper (c : ascii) : bool :=
  let n := code c in (65 <=? n) && (n <=? 90).

Definition upper_char (c : ascii) : ascii :=
  if is_lower c then ascii_of_N (N_of_ascii c - 32) else c.

Definition lower_char (c : ascii) : ascii :=
  if is_upper c then ascii_of_N (N_of_ascii c + 32) else c.

Fixpoint map_string (f : ascii -> ascii) (s : string) : string :=
  match s with
  | EmptyString => EmptyString
  | String c s' => String (f c) (map_string f s')
  end.

Definition toUpperCase : string -> string := map_string upper_char.
Definition toLowerCase : string -> string := map_string lower_char.

Definition chars (s : string) : list ascii := list_ascii_of_string s.
Definition of_chars (l : list ascii) : string := string_of_list_ascii l.

Fixpoint skip_ws (l : list ascii) : list ascii :=
  match l with
  | c :: l' => if is_ws c then skip_ws l' else l
  | [] => []
  end.

Definition trim (s : string) : string :=
  of_chars (rev (skip_ws (rev (skip_ws (chars s))))).

Definition startsWith (s p : string) : bool := String.prefix p s.

Definition endsWith (s p : string) : bool :=
  String.prefix (of_chars (rev (chars p))) (of_chars (rev (chars s))).

(** [s.slice(i, j)] for [0 <= i <= j]. *)
Definition slice (s : string) (i j : nat) : string := substring i (j - i) s.

(** [s[i] + s[i]] where [s[i]] exists; [undefined + undefined] otherwise,
    the string ["NaN"] that no parser reads as a number. *)
Definition twice_at (s : string) (i : nat) : string :=
  match String.get i s with
  | Some c => String c (String c EmptyString)
  | None => "NaN"
  end.

(** [s.padStart(2, '0')]. *)
Definition padStart2 (s : string) : string :=
  match String.length s with
  | O => "00"
  | S O => String "0" s
  | _ => s
  end.

(** [s.replace(c, '')] for a one-character pattern: the first occurrence
    is removed. *)
Fixpoint remove_first (c : ascii) (s : string) : string :=
  match s with
  | EmptyString => EmptyString
  | String d s' => if Ascii.eqb c d then s' else String d (remove_first c s')
  end.

(** [parts.join(' ')]. *)
Fixpoint join_space (parts : list string) : string :=
  match parts with
  | [] => ""
  | [p] => p
  | p :: rest => p ++ " " ++ join_space rest
  end.

(** A string is truthy when it is not empty. *)
Definition truthy (s : string) : bool :=
  match s with EmptyString => false | _ => true end.

(** *** Numbers and strings *)

Definition hex_digit_value (c : ascii) : option Z :=
  let n := code c in
  if is_digit c then Some (n - 48)
  else if (97 <=? n) && (n <=? 102) then Some (n - 87)
  else if (65 <=? n) && (n <=? 70) then Some (n - 55)
  else None.

Definition is_hex_digit (c : ascii) : bool :=
  match hex_digit_value c with Some _ => true | None => false end.

(** The value of the longest prefix of hexadecimal digits, if not empty. *)
Fixpoint hex_prefix_value (l : list ascii) (acc : option Z) : option Z :=
  match l with
  | c :: l' =>
      match hex_digit_value c with
      | Some d => hex_prefix_value l' (Some (16 * default 0 acc + d))
      | None => acc
      end
  | [] => acc
  end.

(** [parseInt(s, 16)]: leading white space, a sign and a [0x] prefix are
    skipped, then the longest prefix of hexadecimal digits is read; NaN
    when that prefix is empty. *)
Definition parseInt16 (s : string) : float :=
  let l := skip_ws (chars s) in
  let '(neg, l) :=
    match l with
    | "-"%char :: l' => (true, l')
    | "+"%char :: l' => (false, l')
    | _ => (false, l)
    end in
  let l :=
    match l with
    | "0"%char :: "x"%char :: l' => l'
    | "0"%char :: "X"%char :: l' => l'
    | _ => l
    end in
  match hex_prefix_value l None with
  | None => PrimFloat.nan
  | Some v => if neg then (- Z2float v)%float else Z2float v
  end.

Definition hex_digit_char (d : Z) : ascii :=
  ascii_of_N (Z.to_N (if d <? 10 then 48 + d else 87 + d)).

Fixpoint hex_digits (fuel : nat) (n : Z) (acc : string) : string :=
  match fuel with
  | O => acc
  | S fuel' =>
      let acc' := String (hex_digit_char (n mod 16)) acc in
      if n / 16 =? 0 then acc' else hex_digits fuel' (n / 16) acc'
  end.

(** The hexadecimal numeral of a non-negative integer, lower case. *)
Definition hex_of_Z (n : Z) : string := hex_digits (Z.to_nat n + 1) n "".

(** [x.toString(16)] for a number with an integral value, which is what
    [Math.round] returns; for any other finite number the integral part
    is printed (the fraction digits are not modelled). *)
Definition Number_toString16 (x : float) : string :=
  match Prim2SF x with
  | S754_nan => "NaN"
  | S754_infinity s => if s then "-Infinity" else "Infinity"
  | S754_zero _ => "0"
  | S754_finite s m e =>
      let n := Z.shiftl (Z.pos m) e in
      if n =? 0 then "0" else (if s then "-" else "") ++ hex_of_Z n
  end.

Fixpoint take_digits (l : list ascii) : list ascii * list ascii :=
  match l with
  | c :: l' =>
      if is_digit c then let '(ds, rest) := take_digits l' in (c :: ds, rest)
      else ([], l)
  | [] => ([], [])
  end.

Definition digits_value (ds : list ascii) : Z :=
  fold_left (fun acc c => 10 * acc + (code c - 48)) ds 0.

(** The number nearest to [n * 10 ^ e], for [0 <= n]. *)
Definition decimal_to_float (n e : Z) : float :=
  match n with
  | Z.pos p =>
      if 0 <=? e then Z2float (n * 10 ^ e)
      else
        SF2Prim (SFdiv prec emax (S754_finite false p 0)
                   (S754_finite false (Z.to_pos (10 ^ (- e))) 0))
  | _ => PrimFloat.zero
  end.

Definition read_sign (l : list ascii) : bool * list ascii :=
  match l with
  | "-"%char :: l' => (true, l')
  | "+"%char :: l' => (false, l')
  | _ => (false, l)
  end.

(** [parseFloat(s)]: leading white space is skipped and the longest
    prefix that is a decimal literal is read; NaN when there is none. *)
Definition parseFloat (s : string) : float :=
  let '(neg, l) := read_sign (skip_ws (chars s)) in
  let v :=
    if String.prefix "Infinity" (of_chars l) then PrimFloat.infinity
    else
      let '(ip, l1) := take_digits l in
      let '(fp, l2) :=
        match l1 with
        | "."%char :: l' => take_digits l'
        | _ => ([], l1)
        end in
      match (ip ++ fp)%list with
      | [] => PrimFloat.nan
      | ds =>
          let ex :=
            match l2 with
            | c :: l' =>
                if Ascii.eqb (lower_char c) "e" then
                  let '(eneg, l'') := read_sign l' in
                  let '(ed, _) := take_digits l'' in
                  match ed with
                  | [] => 0
                  | _ => if eneg then - digits_value ed else digits_value ed
                  end
                else 0
            | [] => 0
            end in
          decimal_to_float (digits_value ds) (ex - Z.of_nat (length fp))
      end in
  if neg then (- v)%float else v.

(** *** Regular expressions

    The fragment the sources use: character classes, sequence, greedy
    alternatives and repetition, and capture groups, matched by
    backtracking in the order ECMAScript prescribes. *)

Inductive regex : Type :=
| Eps : regex
| Chr : (ascii -> bool) -> regex
| Seq : regex -> regex -> regex
| Alt : regex -> regex -> regex
| Star : regex -> regex
| Group : nat -> regex -> regex.

(** [r?], [r+] and [r{1,3}], all greedy. *)
Definition Opt (r : regex) : regex := Alt r Eps.
Definition Plus (r : regex) : regex := Seq r (Star r).
Definition Rep13 (r : regex) : regex := Seq r (Opt (Seq r (Opt r))).

(** A literal, compared without regard to case (the [i] flag). *)
Fixpoint Lit (s : string) : regex :=
  match s with
  | EmptyString => Eps
  | String c s' => Seq (Chr (fun d => Ascii.eqb (lower_char d) (lower_char c))) (Lit s')
  end.

Definition captures := list (nat * list ascii).

Definition capture (caps : captures) (i : nat) : option string :=
  option_map (fun '(_, l) => of_chars l) (find (fun '(j, _) => Nat.eqb i j) caps).

(** The loop of a star: at most [n] further iterations of [body],
    greedy; an iteration that consumes nothing is refused. *)
Fixpoint star_loop
    (body : list ascii -> captures -> (list ascii -> captures -> option captures)
            -> option captures)
    (k : list ascii -> captures -> option captures)
    (n : nat) (s : list ascii) (caps : captures) {struct n} : option captures :=
  match n with
  | O => k s caps
  | S n' =>
      match body s caps (fun s' caps' =>
              if (length s' <? length s)%nat then star_loop body k n' s' caps'
              else None) with
      | Some res => Some res
      | None => k s caps
      end
  end.

(** [rmatch r s caps k]: match [r] at the start of [s], then run the
    continuation [k] on the rest; the first successful path wins. *)
Fixpoint rmatch (r : regex) (s : list ascii) (caps : captures)
    (k : list ascii -> captures -> option captures) {struct r} : option captures :=
  match r with
  | Eps => k s caps
  | Chr p =>
      match s with
      | c :: s' => if p c then k s' caps else None
      | [] => None
      end
  | Seq r1 r2 => rmatch r1 s caps (fun s' caps' => rmatch r2 s' caps' k)
  | Alt r1 r2 =>
      match rmatch r1 s caps k with
      | Some res => Some res
      | None => rmatch r2 s caps k
      end
  | Star r1 => star_loop (rmatch r1) k (length s) s caps
  | Group i r1 =>
      rmatch r1 s caps (fun s' caps' =>
        k s' ((i, firstn (length s - length s') s) :: caps'))
  end.

(** [s.match(/^r$/)]: the captures of the match of the whole string. *)
Definition regex_match (r : regex) (s : string) : option captures :=
  rmatch r (chars s) [] (fun s' caps => match s' with [] => Some caps | _ => None end).

End JS.

Import JS.

Declare Scope regex_scope.
Delimit Scope regex_scope with re.
Infix "@@" := Seq (at level 60, right associativity) : regex_scope.

(** ** Data model *)

(** Every field is a JavaScript number. *)
Record RGBA := mkRGBA { rgba_r : float; rgba_g : float; rgba_b : float; rgba_a : float }.
Record HSLA := mkHSLA { hsla_h : float; hsla_s : float; hsla_l : float; hsla_a : float }.
Record OKLab := mkOKLab { lab_L : float; lab_a : float; lab_b : float }.
Record OKLCH := mkOKLCH { lch_L : float; lch_C : float; lch_h : float }.

Record NormalizedColor := mkNormalizedColor {
  nc_input : string;
  nc_rgba : RGBA;
  nc_hex : string;
  nc_hsla : HSLA;
  nc_oklab : OKLab;
  nc_oklch : OKLCH
}.

Inductive NamingStrategy := Auto | NoNames | Provided.

(** A thrown [Error] carries its message. *)
Inductive Result (A : Type) : Type :=
| Ok : A -> Result A
| Throw : string -> Result A.
Arguments Ok {A} _.
Arguments Throw {A} _.

(** ** color/parse.ts *)

Definition rgba_of (r g b a : float) : option RGBA :=
  if isNaN r || isNaN g || isNaN b || isNaN a then None
  else Some (mkRGBA r g b a).

Definition parseHex (hex : string) : option RGBA :=
  let cleaned :=
    match hex with
    | String "#" rest => rest
    | _ => hex
    end in
  match String.length cleaned with
  | 3%nat =>
      rgba_of (parseInt16 (twice_at cleaned 0)) (parseInt16 (twice_at cleaned 1))
        (parseInt16 (twice_at cleaned 2)) 1
  | 4%nat =>
      rgba_of (parseInt16 (twice_at cleaned 0)) (parseInt16 (twice_at cleaned 1))
        (parseInt16 (twice_at cleaned 2)) (parseInt16 (twice_at cleaned 3) / 255)
  | 6%nat =>
      rgba_of (parseInt16 (slice cleaned 0 2)) (parseInt16 (slice cleaned 2 4))
        (parseInt16 (slice cleaned 4 6)) 1
  | 8%nat =>
      rgba_of (parseInt16 (slice cleaned 0 2)) (parseInt16 (slice cleaned 2 4))
        (parseInt16 (slice cleaned 4 6)) (parseInt16 (slice cleaned 6 8) / 255)
  | _ => None
  end.

Definition re_digit : regex := Chr is_digit.
Definition re_ws : regex := Chr is_ws.
Definition re_dot : regex := Chr (Ascii.eqb ".").
Definition re_pct : regex := Chr (Ascii.eqb "%").

(** [\d{1,3}(?:\.\d+)?] *)
Definition re_number : regex :=
  (Rep13 re_digit @@ Opt (re_dot @@ Plus re_digit))%re.

(** [\d{1,3}(?:\.\d+)?%?] *)
Definition re_component : regex := (re_number @@ Opt re_pct)%re.

(** [\s*[,\s]\s*] *)
Definition re_separator : regex :=
  (Star re_ws @@ Chr (fun c => Ascii.eqb c "," || is_ws c) @@ Star re_ws)%re.

(** [(?:[,/]\s*(\d*\.?\d+%?))?], the alpha in group 4 *)
Definition re_alpha : regex :=
  Opt (Chr (fun c => Ascii.eqb c "," || Ascii.eqb c "/") @@ Star re_ws @@
       Group 4 (Star re_digit @@ Opt re_dot @@ Plus re_digit @@ Opt re_pct))%re.

Definition re_rgb : regex :=
  (Lit "rgb" @@ Opt (Lit "a") @@ Lit "(" @@ Star re_ws @@
   Group 1 re_component @@ re_separator @@
   Group 2 re_component @@ re_separator @@
   Group 3 re_component @@ Star re_ws @@
   re_alpha @@ Star re_ws @@ Lit ")")%re.

(** [\d{1,3}(?:\.\d+)?(?:deg|rad|turn)?] *)
Definition re_hue : regex :=
  (re_number @@ Opt (Alt (Lit "deg") (Alt (Lit "rad") (Lit "turn"))))%re.

Definition re_hsl : regex :=
  (Lit "hsl" @@ Opt (Lit "a") @@ Lit "(" @@ Star re_ws @@
   Group 1 re_hue @@ re_separator @@
   Group 2 re_component @@ re_separator @@
   Group 3 re_component @@ Star re_ws @@
   re_alpha @@ Star re_ws @@ Lit ")")%re.

(** [[0-9a-f]{3,8}] under the [i] flag *)
Definition re_bare_hex : regex :=
  let h := Chr is_hex_digit in
  (h @@ h @@ h @@ Opt (h @@ Opt (h @@ Opt (h @@ Opt (h @@ Opt h)))))%re.

Definition clamp (lo hi x : float) : float := Math_min hi (Math_max lo x).

Definition parseComponent (val : string) (max : float) : float :=
  if endsWith val "%" then (parseFloat val / 100 * max)%float
  else parseFloat val.

(** The optional fourth component of [rgb()] and [hsl()]. *)
Definition parseAlpha (m4 : option string) : float :=
  match m4 with
  | Some v =>
      let a := if endsWith v "%" then (parseFloat v / 100)%float else parseFloat v in
      clamp 0 1 a
  | None => 1%float
  end.

Definition group (caps : captures) (i : nat) : string :=
  default "" (capture caps i).

Definition parseRgb (str : string) : option RGBA :=
  match regex_match re_rgb str with
  | None => None
  | Some m =>
      let r := clamp 0 255 (Math_round (parseComponent (group m 1) 255)) in
      let g := clamp 0 255 (Math_round (parseComponent (group m 2) 255)) in
      let b := clamp 0 255 (Math_round (parseComponent (group m 3) 255)) in
      let a := parseAlpha (capture m 4) in
      rgba_of r g b a
  end.

Definition hueToRgb (p q t : float) : float :=
  let t := if (t <? 0)%float then (t + 1)%float else t in
  let t := if (1 <? t)%float then (t - 1)%float else t in
  if (t <? 1 / 6)%float then (p + (q - p) * 6 * t)%float
  else if (t <? 1 / 2)%float then q
  else if (t <? 2 / 3)%float then (p + (q - p) * (2 / 3 - t) * 6)%float
  else p.

Definition parsePercent (val : string) : float :=
  clamp 0 100 (parseFloat val).

Definition parseHsl (str : string) : option RGBA :=
  match regex_match re_hsl str with
  | None => None
  | Some m =>
      let h := parseFloat (group m 1) in
      let h :=
        if endsWith (group m 1) "rad" then (h * 180 / Math_PI)%float
        else if endsWith (group m 1) "turn" then (h * 360)%float
        else h in
      let h := fmod (fmod h 360 + 360) 360 in
      let s := (parsePercent (group m 2) / 100)%float in
      let l := (parsePercent (group m 3) / 100)%float in
      let a := parseAlpha (capture m 4) in
      let '(r, g, b) :=
        if (s =? 0)%float then (l, l, l)
        else
          let q := if (l <? 0.5)%float then (l * (1 + s))%float
                   else (l + s - l * s)%float in
          let p := (2 * l - q)%float in
          (hueToRgb p q (h / 360 + 1 / 3), hueToRgb p q (h / 360),
           hueToRgb p q (h / 360 - 1 / 3))%float in
      Some (mkRGBA (Math_round (r * 255)) (Math_round (g * 255))
              (Math_round (b * 255)) a)
  end.

Definition parseColor (input : string) : option RGBA :=
  let trimmed := trim input in
  if startsWith trimmed "#" then parseHex trimmed
  else if startsWith (toLowerCase trimmed) "rgb" then parseRgb trimmed
  else if startsWith (toLowerCase trimmed) "hsl" then parseHsl trimmed
  else
    match regex_match re_bare_hex trimmed with
    | Some _ => parseHex ("#" ++ trimmed)
    | None => None
    end.

Definition toHex (n : float) : string :=
  toUpperCase (padStart2 (Number_toString16 (Math_round n))).

Definition rgbaToHex (rgba : RGBA) : string :=
  let hex := "#" ++ toHex (rgba_r rgba) ++ toHex (rgba_g rgba) ++ toHex (rgba_b rgba) in
  if (rgba_a rgba <? 1)%float then hex ++ toHex (rgba_a rgba * 255)
  else hex.

(** ** color/convert.ts, the part that needs no approximated function *)

Definition rgbaToHsla (rgba : RGBA) : HSLA :=
  let r := (rgba_r rgba / 255)%float in
  let g := (rgba_g rgba / 255)%float in
  let b := (rgba_b rgba / 255)%float in
  let max := Math_max3 r g b in
  let min := Math_min3 r g b in
  let l := ((max + min) / 2)%float in
  let '(h, s) :=
    if negb (max =? min)%float then
      let d := (max - min)%float in
      let s := if (0.5 <? l)%float then (d / (2 - max - min))%float
               else (d / (max + min))%float in
      let h :=
        if (max =? r)%float then
          (((g - b) / d + (if (g <? b)%float then 6 else 0)) / 6)%float
        else if (max =? g)%float then (((b - r) / d + 2) / 6)%float
        else if (max =? b)%float then (((r - g) / d + 4) / 6)%float
        else 0%float in
      (h, s)
    else (0%float, 0%float) in
  mkHSLA (Math_round (h * 360)) (Math_round (s * 100)) (Math_round (l * 100))
    (rgba_a rgba).

Definition colorDistance (a b : OKLab) : float :=
  let dL := (lab_L a - lab_L b)%float in
  let da := (lab_a a - lab_a b)%float in
  let db := (lab_b a - lab_b b)%float in
  Math_sqrt (dL * dL + da * da + db * db).

(** ** color/contrast.ts, the threshold predicates *)

Definition meetsWcagAA (ratio : float) (largeText : bool) : bool :=
  ((if largeText then 3 else 4.5) <=? ratio)%float.

Definition meetsWcagAAA (ratio : float) (largeText : bool) : bool :=
  ((if largeText then 4.5 else 7) <=? ratio)%float.

Definition DARK_TEXT : string := "#111111".
Definition LIGHT_TEXT : string := "#FFFFFF".
Definition darkTextRgba : RGBA := mkRGBA 17 17 17 1.
Definition lightTextRgba : RGBA := mkRGBA 255 255 255 1.

(** ** The engine, over the approximated functions and the data tables *)

Record ColorEntry := mkColorEntry {
  ce_hex : string;
  ce_name : string;
  ce_color : NormalizedColor
}.

Record Nearest := mkNearest { nearest_name : string; nearest_distance : float }.

(** The module-level [colorCache]: [None] is [null]. *)
Definition CacheState : Type := option (list ColorEntry).

(** Code that reads and writes [colorCache] and may throw. *)
Definition M (A : Type) : Type := CacheState -> Result A * CacheState.

Definition ret {A} (x : A) : M A := fun st => (Ok x, st).

Definition bind {A B} (m : M A) (f : A -> M B) : M B :=
  fun st =>
    match m st with
    | (Ok x, st') => f x st'
    | (Throw e, st') => (Throw e, st')
    end.

Notation "x <- m ;; k" := (bind m (fun x => k))
  (at level 100, m at next level, right associativity).

(** [xs.map(f)] for an [f] that may throw or touch the cache. *)
Fixpoint mapM {A B} (f : A -> M B) (xs : list A) : M (list B) :=
  match xs with
  | [] => ret []
  | x :: xs' => y <- f x ;; ys <- mapM f xs' ;; ret (y :: ys)
  end.

(** [xs.map(f)] for an [f] that may throw. *)
Fixpoint mapR {A B} (f : A -> Result B) (xs : list A) : Result (list B) :=
  match xs with
  | [] => Ok []
  | x :: xs' =>
      match f x with
      | Throw e => Throw e
      | Ok y =>
          match mapR f xs' with
          | Throw e => Throw e
          | Ok ys => Ok (y :: ys)
          end
      end
  end.

(** A [Record<string, string>]: its entries in enumeration order. *)
Definition obj_get (o : list (string * string)) (key : string) : option string :=
  option_map snd (find (fun kv => String.eqb (fst kv) key) o).

Section Engine.

Variable Math_pow : float -> float -> float.
Variable Math_cbrt : float -> float.
Variable Math_atan2 : float -> float -> float.
Variable Math_cos : float -> float.
Variable Math_sin : float -> float.

(** The tables of [data/colors.ts]. *)
Variable COLOR_NAMES : list (string * string).
Variable HUE_FAMILIES : list (string * (float * float)).
Variable LIGHTNESS_MODIFIERS : list (float * float * string).
Variable CHROMA_MODIFIERS : list (float * float * string).

(** *** color/convert.ts *)

Definition srgbToLinear (c : float) : float :=
  let c := (c / 255)%float in
  if (c <=? 0.04045)%float then (c / 12.92)%float
  else Math_pow ((c + 0.055) / 1.055)%float 2.4%float.

Definition linearToSrgb (c : float) : float :=
  let clamped := Math_max 0 (Math_min 1 c) in
  if (clamped <=? 0.0031308)%float then Math_round (clamped * 12.92 * 255)
  else Math_round ((1.055 * Math_pow clamped (1 / 2.4) - 0.055) * 255).

Definition rgbaToOklab (rgba : RGBA) : OKLab :=
  let r := srgbToLinear (rgba_r rgba) in
  let g := srgbToLinear (rgba_g rgba) in
  let b := srgbToLinear (rgba_b rgba) in
  let l_ := (0.4122214708 * r + 0.5363325363 * g + 0.0514459929 * b)%float in
  let m_ := (0.2119034982 * r + 0.6806995451 * g + 0.1073969566 * b)%float in
  let s_ := (0.0883024619 * r + 0.2817188376 * g + 0.6299787005 * b)%float in
  let l := Math_cbrt l_ in
  let m := Math_cbrt m_ in
  let s := Math_cbrt s_ in
  mkOKLab
    (0.2104542553 * l + 0.793617785 * m - 0.0040720468 * s)
    (1.9779984951 * l - 2.428592205 * m + 0.4505937099 * s)
    (0.0259040371 * l + 0.7827717662 * m - 0.808675766 * s).

Definition oklabToRgba (oklab : OKLab) (alpha : float) : RGBA :=
  let l_ := (lab_L oklab + 0.3963377774 * lab_a oklab + 0.2158037573 * lab_b oklab)%float in
  let m_ := (lab_L oklab - 0.1055613458 * lab_a oklab - 0.0638541728 * lab_b oklab)%float in
  let s_ := (lab_L oklab - 0.0894841775 * lab_a oklab - 1.291485548 * lab_b oklab)%float in
  let l := (l_ * l_ * l_)%float in
  let m := (m_ * m_ * m_)%float in
  let s := (s_ * s_ * s_)%float in
  let r := (4.0767416621 * l - 3.3077115913 * m + 0.2309699292 * s)%float in
  let g := (-1.2684380046 * l + 2.6097574011 * m - 0.3413193965 * s)%float in
  let b := (-0.0041960863 * l - 0.7034186147 * m + 1.707614701 * s)%float in
  mkRGBA (linearToSrgb r) (linearToSrgb g) (linearToSrgb b) alpha.

Definition oklabToOklch (oklab : OKLab) : OKLCH :=
  let C := Math_sqrt (lab_a oklab * lab_a oklab + lab_b oklab * lab_b oklab) in
  let h := (Math_atan2 (lab_b oklab) (lab_a oklab) * 180 / Math_PI)%float in
  let h := if (h <? 0)%float then (h + 360)%float else h in
  mkOKLCH (lab_L oklab) C h.

Definition oklchToOklab (oklch : OKLCH) : OKLab :=
  let hRad := (lch_h oklch * Math_PI / 180)%float in
  mkOKLab (lch_L oklch) (lch_C oklch * Math_cos hRad) (lch_C oklch * Math_sin hRad).

Definition normalizeColor (input : string) : Result NormalizedColor :=
  match parseColor input with
  | None => Throw ("Invalid color format: " ++ input)
  | Some rgba =>
      let hex := rgbaToHex rgba in
      let hsla := rgbaToHsla rgba in
      let oklab := rgbaToOklab rgba in
      let oklch := oklabToOklch oklab in
      Ok (mkNormalizedColor input rgba hex hsla oklab oklch)
  end.

(** *** color/contrast.ts *)

Definition srgbToLuminanceChannel (c : float) : float :=
  let srgb := (c / 255)%float in
  if (srgb <=? 0.03928)%float then (srgb / 12.92)%float
  else Math_pow ((srgb + 0.055) / 1.055)%float 2.4%float.

Definition getRelativeLuminance (rgba : RGBA) : float :=
  let r := srgbToLuminanceChannel (rgba_r rgba) in
  let g := srgbToLuminanceChannel (rgba_g rgba) in
  let b := srgbToLuminanceChannel (rgba_b rgba) in
  (0.2126 * r + 0.7152 * g + 0.0722 * b)%float.

Definition getContrastRatio (color1 color2 : RGBA) : float :=
  let l1 := getRelativeLuminance color1 in
  let l2 := getRelativeLuminance color2 in
  let lighter := Math_max l1 l2 in
  let darker := Math_min l1 l2 in
  ((lighter + 0.05) / (darker + 0.05))%float.

Definition computeTextColor (bgHex : string) : string :=
  match parseColor bgHex with
  | None => DARK_TEXT
  | Some bg =>
      let darkContrast := getContrastRatio bg darkTextRgba in
      let lightContrast := getContrastRatio bg lightTextRgba in
      if (darkContrast <? lightContrast)%float then LIGHT_TEXT else DARK_TEXT
  end.

(** *** color/name.ts *)

Definition buildColorCache : Result (list ColorEntry) :=
  mapR (fun '(hex, name) =>
          match normalizeColor hex with
          | Ok color => Ok (mkColorEntry hex name color)
          | Throw e => Throw e
          end) COLOR_NAMES.

Definition getColorCache : M (list ColorEntry) :=
  fun colorCache =>
    match colorCache with
    | Some cache => (Ok cache, colorCache)
    | None =>
        match buildColorCache with
        | Ok cache => (Ok cache, Some cache)
        | Throw e => (Throw e, None)
        end
    end.

(** One turn of the loop of [findNearestColor]. *)
Definition nearer (color : NormalizedColor) (nearest : Nearest) (entry : ColorEntry) : Nearest :=
  let dist := colorDistance (nc_oklab color) (nc_oklab (ce_color entry)) in
  if (dist <? nearest_distance nearest)%float then mkNearest (ce_name entry) dist
  else nearest.

Definition scanNearest (color : NormalizedColor) (cache : list ColorEntry) : Nearest :=
  fold_left (nearer color) cache (mkNearest "Unknown" PrimFloat.infinity).

Definition findNearestColor (color : NormalizedColor) : M Nearest :=
  cache <- getColorCache ;; ret (scanNearest color cache).

Fixpoint getHueFamily_in (table : list (string * (float * float))) (hue : float) : string :=
  match table with
  | (family, (start, end_)) :: rest =>
      if (start <=? hue)%float && (hue <? end_)%float then remove_first "2" family
      else getHueFamily_in rest hue
  | [] => "Red"
  end.

Definition getHueFamily (hue : float) : string := getHueFamily_in HUE_FAMILIES hue.

Fixpoint modifier_in (table : list (float * float * string)) (x : float) : string :=
  match table with
  | (min, max, modifier) :: rest =>
      if (min <=? x)%float && (x <? max)%float then modifier
      else modifier_in rest x
  | [] => ""
  end.

Definition getLightnessModifier (L : float) : string := modifier_in LIGHTNESS_MODIFIERS L.
Definition getChromaModifier (C : float) : string := modifier_in CHROMA_MODIFIERS C.

Definition generateFallbackName (color : NormalizedColor) : string :=
  let L := lch_L (nc_oklch color) in
  let C := lch_C (nc_oklch color) in
  let h := lch_h (nc_oklch color) in
  if (C <? 0.02)%float then
    if (L <? 0.15)%float then "Black"
    else if (0.95 <? L)%float then "White"
    else
      let lMod := getLightnessModifier L in
      if truthy lMod then lMod ++ " Gray" else "Gray"
  else
    let hueFamily := getHueFamily h in
    let lightMod := getLightnessModifier L in
    let chromaMod := getChromaModifier C in
    let parts := if truthy lightMod then [lightMod] else [] in
    let parts :=
      if truthy chromaMod && negb (String.eqb chromaMod "Gray")
      then (parts ++ [chromaMod])%list else parts in
    let parts := (parts ++ [hueFamily])%list in
    join_space parts.

Definition MATCH_THRESHOLD : float := 0.15%float.

(** The branch of [nameColor] for the ['provided'] strategy: the name
    it returns, or [None] where the code falls out of the branch. *)
Definition providedName (color : NormalizedColor) (providedNames : list (string * string))
    : option string :=
  let normalized := toUpperCase (nc_hex color) in
  match obj_get providedNames normalized with
  | Some v =>
      if truthy v then Some v
      else option_map snd
             (find (fun kv => String.eqb (toUpperCase (fst kv)) normalized) providedNames)
  | None =>
      option_map snd
        (find (fun kv => String.eqb (toUpperCase (fst kv)) normalized) providedNames)
  end.

Definition autoName (color : NormalizedColor) : M string :=
  nearest <- findNearestColor color ;;
  ret (if (nearest_distance nearest <? MATCH_THRESHOLD)%float then nearest_name nearest
       else generateFallbackName color).

Definition nameColor (color : NormalizedColor) (strategy : NamingStrategy)
    (providedNames : option (list (string * string))) : M string :=
  match strategy with
  | NoNames => ret ""
  | Provided =>
      match providedNames with
      | Some names =>
          match providedName color names with
          | Some name => ret name
          | None => autoName color
          end
      | None => autoName color
      end
  | Auto => autoName color
  end.

(** One turn of the loop of [nameColors] over the base names. *)
Definition suffixStep (acc : gmap string nat * list string) (baseName : string)
    : gmap string nat * list string :=
  let '(nameCounts, result) := acc in
  if truthy baseName then
    let count := default 0%nat (nameCounts !! baseName) in
    let nameCounts := <[baseName := S count]> nameCounts in
    if Nat.eqb count 0 then (nameCounts, (result ++ [baseName])%list)
    else (nameCounts, (result ++ [(baseName ++ " " ++ pretty (S count))%string])%list)
  else (nameCounts, (result ++ [""])%list).

Definition uniqueNames (names : list string) : list string :=
  snd (fold_left suffixStep names (∅, [])).

Definition nameColors (colors : list NormalizedColor) (strategy : NamingStrategy)
    (providedNames : option (list (string * string))) : M (list string) :=
  names <- mapM (fun c => nameColor c strategy providedNames) colors ;;
  ret (uniqueNames names).


(** ** Vocabulary of the properties *)

(** A number that is not NaN has a key; [<] and [<=] on numbers are the
    lexicographic order on keys. *)
Definition sf_key (x : spec_float) : option (Z * Z * Z) :=
  match x with
  | S754_nan => None
  | S754_zero _ => Some (0, 0, 0)
  | S754_infinity s => Some (if s then -2 else 2, 0, 0)
  | S754_finite s m e => Some (if s then (-1, - e, Z.neg m) else (1, e, Z.pos m))
  end.

Definition key_lt (a b : Z * Z * Z) : Prop :=
  a.1.1 < b.1.1 \/ (a.1.1 = b.1.1 /\ (a.1.2 < b.1.2 \/ (a.1.2 = b.1.2 /\ a.2 < b.2))).

Definition float_key (x : float) : option (Z * Z * Z) := sf_key (Prim2SF x).

Definition dist (color : NormalizedColor) (entry : ColorEntry) : float :=
  colorDistance (nc_oklab color) (nc_oklab (ce_color entry)).

(** What the scan has selected: either nothing (no entry is nearer than
    infinity), or the entry at index [i], which no entry beats and which
    no earlier entry equals. *)
Definition selected (color : NormalizedColor) (cache : list ColorEntry) (n : Nearest) : Prop :=
  (n = mkNearest "Unknown" PrimFloat.infinity /\
   forall j e, cache !! j = Some e -> (dist color e <? PrimFloat.infinity)%float = false)
  \/
  (exists i e,
     cache !! i = Some e /\
     n = mkNearest (ce_name e) (dist color e) /\
     (forall j e', cache !! j = Some e' -> (dist color e' <? dist color e)%float = false) /\
     (forall j e', (j < i)%nat -> cache !! j = Some e' ->
        (dist color e' <=? dist color e)%float = false)).

(** How often [base] occurs in a list of names. *)
Fixpoint occurrences (base : string) (names : list string) : nat :=
  match names with
  | [] => 0
  | n :: rest => (if String.eqb n base then 1 else 0) + occurrences base rest
  end.

(** The name emitted for the [k]-th occurrence of [base]. *)
Definition suffixed (base : string) (k : nat) : string :=
  match base with
  | EmptyString => ""
  | _ => if Nat.eqb k 1 then base else (base ++ " " ++ pretty k)%string
  end.

(** [key] is the colour's hex up to letter case. *)
Definition sameHex (color : NormalizedColor) (kv : string * string) : bool :=
  String.eqb (toUpperCase (fst kv)) (toUpperCase (nc_hex color)).

(** The strings a regular expression matches. *)
Inductive matches : regex -> list ascii -> Prop :=
| matches_eps : matches Eps []
| matches_chr p c : p c = true -> matches (Chr p) [c]
| matches_seq r1 r2 s1 s2 :
    matches r1 s1 -> matches r2 s2 -> matches (Seq r1 r2) (s1 ++ s2)%list
| matches_alt_l r1 r2 s : matches r1 s -> matches (Alt r1 r2) s
| matches_alt_r r1 r2 s : matches r2 s -> matches (Alt r1 r2) s
| matches_star_nil r : matches (Star r) []
| matches_star_cons r s1 s2 :
    matches r s1 -> matches (Star r) s2 -> matches (Star r) (s1 ++ s2)%list
| matches_group i r s : matches r s -> matches (Group i r) s.

Definition all_ws (l : list ascii) : Prop := forallb is_ws l = true.
Definition all_digits (l : list ascii) : Prop := forallb is_digit l = true.

(** One to three digits, then optionally a dot and digits. *)
Definition number_shape (c : list ascii) : Prop :=
  exists ip fp,
    c = (ip ++ fp)%list /\
    all_digits ip /\ (1 <= length ip <= 3)%nat /\
    (fp = [] \/ exists ds, fp = "."%char :: ds /\ ds <> [] /\ all_digits ds).

(** A colour component of [rgb()]: a number, then optionally a percent sign. *)
Definition component_shape (c : list ascii) : Prop :=
  exists n pct, c = (n ++ pct)%list /\ number_shape n /\ (pct = [] \/ pct = ["%"%char]).

(** White space around one comma or white space character. *)
Definition separator_shape (m : list ascii) : Prop :=
  exists w1 c w2,
    m = (w1 ++ c :: w2)%list /\ all_ws w1 /\ (c = ","%char \/ is_ws c = true) /\ all_ws w2.

(** [rgb(] or [rgba(] in any letter case, then white space. *)
Definition rgb_head_shape (h : list ascii) : Prop :=
  exists name w,
    h = (name ++ "("%char :: w)%list /\ all_ws w /\
    (map lower_char name = chars "rgb" \/ map lower_char name = chars "rgba").

(** What follows the third component starts with white space, a comma,
    a slash or the closing parenthesis. *)
Definition rgb_tail_shape (t : list ascii) : Prop :=
  exists c rest,
    t = c :: rest /\
    (is_ws c = true \/ c = ","%char \/ c = "/"%char \/ c = ")"%char).

(** The hue, saturation and lightness of [rgbaToHsla] before they are
    rounded, for channels [r], [g], [b]. *)
Definition hslRaw (cr cg cb : float) : float * float * float :=
  let r := (cr / 255)%float in
  let g := (cg / 255)%float in
  let b := (cb / 255)%float in
  let max := Math_max3 r g b in
  let min := Math_min3 r g b in
  let l := ((max + min) / 2)%float in
  let '(h, s) :=
    if negb (max =? min)%float then
      let d := (max - min)%float in
      let s := if (0.5 <? l)%float then (d / (2 - max - min))%float
               else (d / (max + min))%float in
      let h :=
        if (max =? r)%float then
          (((g - b) / d + (if (g <? b)%float then 6 else 0)) / 6)%float
        else if (max =? g)%float then (((b - r) / d + 2) / 6)%float
        else if (max =? b)%float then (((r - g) / d + 4) / 6)%float
        else 0%float in
      (h, s)
    else (0%float, 0%float) in
  ((h * 360)%float, (s * 100)%float, (l * 100)%float).

(** [x] lies between 0 and [hi] and is not negative zero. *)
Definition in_range (hi x : float) : bool :=
  (0 <=? x)%float && (x <=? hi)%float && negb (PrimFloat.Leibniz.eqb x PrimFloat.neg_zero).

Definition hsl_in_range (r g b : float) : bool :=
  let '(h, s, l) := hslRaw r g b in
  in_range 360 h && in_range 100 s && in_range 100 l.

(** The numbers 0, 1, ..., 255. *)
Definition bytes : list float :=
  Eval vm_compute in map (fun n => Z2float (Z.of_nat n)) (seq 0 256).

(** A number is a byte when it is an integer between 0 and 255. *)
Definition is_byte (x : float) : Prop := exists z, 0 <= z <= 255 /\ x = Z2float z.

(** The channels are integers between 0 and 255. *)
Definition byte_channels (v : RGBA) : Prop :=
  is_byte (rgba_r v) /\ is_byte (rgba_g v) /\ is_byte (rgba_b v).

(** The alpha is opaque for [rgbaToHex], or its byte is below 255. *)
Definition alpha_stable (a : float) : Prop :=
  (a <? 1)%float = false \/
  exists k, 0 <= k <= 254 /\ Math_round (a * 255) = Z2float k.

(** [normalizeColor(input).hex], where [normalizeColor] does not throw. *)
Definition canonicalHex (input : string) : option string :=
  match normalizeColor input with
  | Ok n => Some (nc_hex n)
  | Throw _ => None
  end.

(** What the serialisation of a byte must satisfy to be read back. *)
Definition byte_roundtrip (x : float) : bool :=
  match toHex x with
  | String c1 (String c2 EmptyString) =>
      negb (is_ws c2) && negb (is_nan x) &&
      PrimFloat.Leibniz.eqb (parseInt16 (String c1 (String c2 EmptyString))) x &&
      PrimFloat.Leibniz.eqb (Math_round x) x
  | _ => false
  end.

(** What the alpha read from the byte [x] must satisfy to be written
    back as the same byte. *)
Definition alpha_roundtrip (x : float) : bool :=
  let a := (x / 255)%float in
  negb (is_nan a) && (a <? 1)%float &&
  PrimFloat.Leibniz.eqb (Math_round (a * 255)) x.

(** The digits that [parseHex] reads: the input without one leading [#]. *)
Definition cleanedHex (hex : string) : string :=
  match hex with
  | String "#" rest => rest
  | _ => hex
  end.

Definition all_hex_digits (s : string) : Prop := forallb is_hex_digit (chars s) = true.

(** Every 8-bit character. *)
Definition all_ascii : list ascii := map ascii_of_nat (seq 0 256).

(** A hue of [hsl()]: a number, then optionally a unit in any letter case. *)
Definition hue_shape (c : list ascii) : Prop :=
  exists n unit,
    c = (n ++ unit)%list /\ number_shape n /\
    (unit = [] \/ map lower_char unit = chars "deg" \/
     map lower_char unit = chars "rad" \/ map lower_char unit = chars "turn").

(** [hsl(] or [hsla(] in any letter case, then white space. *)
Definition hsl_head_shape (h : list ascii) : Prop :=
  exists name w,
    h = (name ++ "("%char :: w)%list /\ all_ws w /\
    (map lower_char name = chars "hsl" \/ map lower_char name = chars "hsla").

(** [s] ends with [t]. *)
Definition ends_with (s t : string) : Prop := exists p, s = (p ++ t)%string.

(** ** Rounding, ranges and written forms *)

(** The code of a quotient: twice the integer part of [N / D], plus one
    when the division is not exact. *)
Definition qcode (D N : Z) : Z := 2 * (N / D) + (if N mod D =? 0 then 0 else 1).

(** The code of a shift record: four times the mantissa, plus the round
    and sticky bits. *)
Definition rcode (r : shr_record) : Z :=
  4 * shr_m r + (if shr_r r then 2 else 0) + (if shr_s r then 1 else 0).

Definition lcode (m : Z) (l : location) : Z := rcode (shr_record_of_loc m l).

(** Rounding to nearest, ties to even, read on the code. *)
Definition rne (c : Z) : Z :=
  let m := c / 4 in
  let l := c mod 4 in
  if l <=? 1 then m
  else if l =? 2 then (if Z.even m then m else m + 1)
  else m + 1.

(** The key of the number that rounding gives, from the rounded
    mantissa [M] at the exponent [E]. *)
Definition out_key (M E : Z) : Z * Z * Z :=
  let Mc := if M =? 2 ^ 53 then 2 ^ 52 else M in
  let Ec := if M =? 2 ^ 53 then E + 1 else E in
  if Mc =? 0 then (0, 0, 0)
  else if Ec <=? 971 then (1, Ec, Mc) else (2, 0, 0).

Definition fexp64 (k : Z) : Z := Z.max (k - 53) (-1074).

Definition key_le (a b : Z * Z * Z) : Prop := key_lt a b \/ a = b.

(** [X * 2 ^ a <= Y * 2 ^ b], for exponents of either sign. *)
Definition ple (X a Y b : Z) : Prop :=
  X * 2 ^ (a - Z.min a b) <= Y * 2 ^ (b - Z.min a b).

Definition nnf (x : float) : Prop :=
  match Prim2SF x with
  | S754_zero _ => True
  | S754_finite false _ _ => True
  | _ => False
  end.

Definition positive_finite (x : float) : Prop :=
  exists m e, Prim2SF x = S754_finite false m e.

(** A number between 0 and 1. *)
Definition unit_range (x : float) : Prop :=
  (0 <=? x)%float = true /\ (x <=? 1)%float = true.

(** The three channels are between 0 and 255. *)
Definition in_gamut (v : RGBA) : Prop :=
  ((0 <=? rgba_r v)%float = true /\ (rgba_r v <=? 255)%float = true) /\
  ((0 <=? rgba_g v)%float = true /\ (rgba_g v <=? 255)%float = true) /\
  ((0 <=? rgba_b v)%float = true /\ (rgba_b v <=? 255)%float = true).

(** What the contrast bounds need of [Math.pow]: a base between 0 and 1
    raised to 2.4 is between 0 and 1. *)
Definition unit_pow (pow : float -> float -> float) : Prop :=
  forall x : float, unit_range x -> unit_range (pow x 2.4%float).

(** A finite number other than zero. *)
Definition finite_nonzero (x : float) : Prop :=
  match Prim2SF x with S754_finite _ _ _ => True | _ => False end.

(** The roundings that [toHex] writes with two characters: negative
    zero and the integers from -15 to 255; and those below 255. *)
Definition pair_values : list float :=
  PrimFloat.neg_zero :: map (fun n => Z2float (Z.of_nat n - 15)) (seq 0 271).

Definition stable_values : list float :=
  PrimFloat.neg_zero :: map (fun n => Z2float (Z.of_nat n - 15)) (seq 0 270).

Definition mem (x : float) (l : list float) : bool := existsb (PrimFloat.Leibniz.eqb x) l.

(** [toHex] writes the number with two characters. *)
Definition two_digit (x : float) : Prop :=
  Math_round x = PrimFloat.neg_zero \/
  exists z, -15 <= z <= 255 /\ Math_round x = Z2float z.

Definition two_digit_channels (v : RGBA) : Prop :=
  two_digit (rgba_r v) /\ two_digit (rgba_g v) /\ two_digit (rgba_b v).

(** The alpha is below 1 and its byte is written with two characters
    other than "FF". *)
Definition two_digit_alpha (a : float) : Prop :=
  (a <? 1)%float = true /\
  (Math_round (a * 255) = PrimFloat.neg_zero \/
   exists z, -15 <= z <= 254 /\ Math_round (a * 255) = Z2float z).

(** The alpha is below 1 and its byte rounds to 255. *)
Definition rounds_to_opaque (a : float) : Prop :=
  (a <? 1)%float = true /\ Math_round (a * 255) = 255%float.

(** The input is one that [parseColor] hands to [parseHsl]. *)
Definition hsl_form (input : string) : bool :=
  negb (startsWith (trim input) "#") &&
  negb (startsWith (toLowerCase (trim input)) "rgb") &&
  startsWith (toLowerCase (trim input)) "hsl".

(** What the two characters written for the rounding [R] must satisfy to
    be read back and written again as themselves. *)
Definition channel_check (R : float) : bool :=
  match toUpperCase (padStart2 (Number_toString16 R)) with
  | String c1 (String c2 EmptyString) =>
      let y := parseInt16 (String c1 (String c2 EmptyString)) in
      negb (is_ws c2) && negb (is_nan y) &&
      String.eqb (toHex y) (String c1 (String c2 EmptyString))
  | _ => false
  end.

Definition alpha_check (R : float) : bool :=
  match toUpperCase (padStart2 (Number_toString16 R)) with
  | String c1 (String c2 EmptyString) =>
      let a := (parseInt16 (String c1 (String c2 EmptyString)) / 255)%float in
      negb (is_ws c2) && negb (is_nan a) && (a <? 1)%float &&
      String.eqb (toHex (a * 255)) (String c1 (String c2 EmptyString))
  | _ => false
  end.

(** What [parseHex] reads from two characters: NaN, or a channel written
    with two characters and an alpha that is opaque or stable. *)
Definition pair_check (c1 c2 : ascii) : bool :=
  let y := parseInt16 (String c1 (String c2 EmptyString)) in
  is_nan y ||
  (mem (Math_round y) pair_values &&
   (negb (y / 255 <? 1)%float || mem (Math_round (y / 255 * 255)) stable_values)).
(** * Properties *)

Local Open Scope list_scope.

(** ** Order on numbers

    The comparisons of binary64 numbers, read through their
    specification: a number that is not NaN has a key, and [<] and [<=]
    are the lexicographic order on keys. *)


Lemma SFcompare_key (x y : spec_float) :
  SFcompare x y =
  match sf_key x, sf_key y with
  | Some a, Some b =>
      Some (match a.1.1 ?= b.1.1 with
            | Eq => match a.1.2 ?= b.1.2 with Eq => a.2 ?= b.2 | c => c end
            | c => c
            end)
  | _, _ => None
  end.
Proof.
  destruct x as [[]|[]| |[] m1 e1], y as [[]|[]| |[] m2 e2]; simpl; try reflexivity.
  rewrite Z.compare_opp, (Z.compare_antisym e1 e2).
  destruct (e1 ?= e2); reflexivity.
Qed.

Lemma ltb_key (x y : float) :
  (x <? y)%float = true <->
  exists a b, float_key x = Some a /\ float_key y = Some b /\ key_lt a b.
Proof.
  rewrite ltb_spec. unfold SFltb, float_key, key_lt. rewrite SFcompare_key.
  destruct (sf_key (Prim2SF x)) as [[[a1 a2] a3]|], (sf_key (Prim2SF y)) as [[[b1 b2] b3]|];
    simpl; try (split; [discriminate | intros (a & b & ? & ? & _); congruence]).
  split.
  - intros H. exists (a1, a2, a3), (b1, b2, b3). simpl. repeat split; try reflexivity.
    destruct (Z.compare_spec a1 b1); try discriminate; try lia.
    destruct (Z.compare_spec a2 b2); try discriminate; try lia.
    destruct (Z.compare_spec a3 b3); try discriminate; lia.
  - intros (a & b & [= <-] & [= <-] & H). simpl in H.
    destruct (Z.compare_spec a1 b1); try lia; try reflexivity.
    destruct (Z.compare_spec a2 b2); try lia; try reflexivity.
    destruct (Z.compare_spec a3 b3); try lia; reflexivity.
Qed.

Lemma leb_key (x y : float) :
  (x <=? y)%float = true <->
  exists a b, float_key x = Some a /\ float_key y = Some b /\ (key_lt a b \/ a = b).
Proof.
  rewrite leb_spec. unfold SFleb, float_key, key_lt. rewrite SFcompare_key.
  destruct (sf_key (Prim2SF x)) as [[[a1 a2] a3]|], (sf_key (Prim2SF y)) as [[[b1 b2] b3]|];
    simpl; try (split; [discriminate | intros (a & b & ? & ? & _); congruence]).
  split.
  - intros H. exists (a1, a2, a3), (b1, b2, b3). simpl. repeat split; try reflexivity.
    destruct (Z.compare_spec a1 b1); try discriminate; try lia.
    destruct (Z.compare_spec a2 b2); try discriminate; try lia.
    destruct (Z.compare_spec a3 b3); try discriminate; try lia.
    right. congruence.
  - intros (a & b & [= <-] & [= <-] & H). simpl in H.
    destruct (Z.compare_spec a1 b1); try reflexivity;
      [| exfalso; destruct H as [H|[= ]]; lia].
    destruct (Z.compare_spec a2 b2); try reflexivity;
      [| exfalso; destruct H as [H|[= ]]; lia].
    destruct (Z.compare_spec a3 b3); try reflexivity.
    exfalso; destruct H as [H|[= ]]; lia.
Qed.

Lemma ltb_irrefl (x : float) : (x <? x)%float = false.
Proof.
  destruct (x <? x)%float eqn:E; [|reflexivity].
  apply ltb_key in E. destruct E as (a & b & Ha & Hb & H).
  rewrite Ha in Hb. injection Hb as <-. unfold key_lt in H. lia.
Qed.

Lemma ltb_leb (x y : float) : (x <? y)%float = true -> (x <=? y)%float = true.
Proof.
  intros H. apply ltb_key in H. apply leb_key.
  destruct H as (a & b & ? & ? & ?). exists a, b. auto.
Qed.

Lemma leb_ltb_trans (x y z : float) :
  (x <=? y)%float = true -> (y <? z)%float = true -> (x <? z)%float = true.
Proof.
  intros H1 H2. apply leb_key in H1. apply ltb_key in H2. apply ltb_key.
  destruct H1 as (a & b & Ha & Hb & H1), H2 as (b' & c & Hb' & Hc & H2).
  rewrite Hb in Hb'. injection Hb' as <-.
  exists a, c. repeat split; try assumption.
  destruct H1 as [H1| ->]; [|assumption].
  unfold key_lt in *. lia.
Qed.

Lemma ltb_trans (x y z : float) :
  (x <? y)%float = true -> (y <? z)%float = true -> (x <? z)%float = true.
Proof. intros H. apply leb_ltb_trans, ltb_leb, H. Qed.

Lemma ltb_asym (x y : float) : (x <? y)%float = true -> (y <? x)%float = false.
Proof.
  intros H. destruct (y <? x)%float eqn:E; [|reflexivity].
  rewrite <- (ltb_irrefl x). symmetry. eapply ltb_trans; eassumption.
Qed.

(** ** The nearest-neighbour scan *)


Lemma scanNearest_snoc color cache entry :
  scanNearest color (cache ++ [entry]) = nearer color (scanNearest color cache) entry.
Proof. unfold scanNearest. rewrite fold_left_app. reflexivity. Qed.

Lemma scanNearest_selected color cache : selected color cache (scanNearest color cache).
Proof.
  induction cache as [|x l IH] using rev_ind.
  - left. split; [reflexivity|]. intros j e H. destruct j; discriminate.
  - rewrite scanNearest_snoc. unfold nearer. fold (dist color x).
    destruct (dist color x <? nearest_distance (scanNearest color l))%float eqn:Hlt.
    + right. exists (length l), x.
      assert (Hprev : forall j e', l !! j = Some e' ->
                (dist color e' <=? dist color x)%float = false).
      { intros j e' Hj.
        destruct (dist color e' <=? dist color x)%float eqn:Hle; [|reflexivity].
        pose proof (leb_ltb_trans _ _ _ Hle Hlt) as Hc.
        destruct IH as [[Hn Hall]|(i & e & Hi & Hn & Hall & _)];
          rewrite Hn in Hc; simpl in Hc;
          rewrite (Hall _ _ Hj) in Hc; discriminate. }
      split; [apply list_lookup_middle; reflexivity|].
      split; [reflexivity|]. split.
      * intros j e' Hj. apply lookup_app_Some in Hj.
        destruct Hj as [Hj|[_ Hj]].
        -- destruct (dist color e' <? dist color x)%float eqn:E; [|reflexivity].
           apply ltb_leb in E. rewrite (Hprev _ _ Hj) in E. discriminate.
        -- apply list_lookup_singleton_Some in Hj. destruct Hj as [_ <-].
           apply ltb_irrefl.
      * intros j e' Hlen Hj. apply lookup_app_Some in Hj.
        destruct Hj as [Hj|[Hge _]]; [eauto | lia].
    + destruct IH as [[Hn Hall]|(i & e & Hi & Hn & Hall & Hbefore)].
      * left. split; [assumption|]. intros j e' Hj. apply lookup_app_Some in Hj.
        destruct Hj as [Hj|[_ Hj]]; [eauto|].
        apply list_lookup_singleton_Some in Hj. destruct Hj as [_ <-].
        rewrite Hn in Hlt. exact Hlt.
      * right. exists i, e. split; [apply lookup_app_l_Some; assumption|].
        split; [assumption|]. split.
        -- intros j e' Hj. apply lookup_app_Some in Hj.
           destruct Hj as [Hj|[_ Hj]]; [eauto|].
           apply list_lookup_singleton_Some in Hj. destruct Hj as [_ <-].
           rewrite Hn in Hlt. exact Hlt.
        -- intros j e' Hlt' Hj. apply lookup_app_Some in Hj.
           destruct Hj as [Hj|[Hge _]]; [eauto|].
           apply lookup_lt_Some in Hi. lia.
Qed.

Lemma getColorCache_again st cache st' :
  getColorCache st = (Ok cache, st') -> st' = Some cache.
Proof.
  unfold getColorCache. destruct st as [c|].
  - intros [= -> <-]. reflexivity.
  - destruct buildColorCache; intros [= <- <-]. reflexivity.
Qed.

Lemma autoName_run color st cache st' :
  getColorCache st = (Ok cache, st') ->
  autoName color st =
  (Ok (if (nearest_distance (scanNearest color cache) <? MATCH_THRESHOLD)%float
       then nearest_name (scanNearest color cache)
       else generateFallbackName color), st').
Proof.
  intros H. unfold autoName, findNearestColor, bind, ret. rewrite H. reflexivity.
Qed.

(** C1, as the code has it.  Under 'auto', and under 'provided' where no
    provided name is found, [nameColor] scans the cache in order.  The
    distance to an entry is the Euclidean distance of the two OKLab
    triples.  The scan selects the first entry that no entry beats: no
    entry is strictly nearer and no earlier entry is as near; when the
    cache is empty or every distance is NaN it selects nothing and the
    distance is infinite.  The selected entry's name is returned when
    its distance is below 0.15, and the synthesized fallback name
    otherwise; the two names can be the same string. *)
Theorem nameColor_auto_nearest color pn st cache st' :
  getColorCache st = (Ok cache, st') ->
  let n := scanNearest color cache in
  let name := if (nearest_distance n <? 0.15)%float then nearest_name n
              else generateFallbackName color in
  selected color cache n /\
  (forall e : ColorEntry,
     let dL := (lab_L (nc_oklab color) - lab_L (nc_oklab (ce_color e)))%float in
     let da := (lab_a (nc_oklab color) - lab_a (nc_oklab (ce_color e)))%float in
     let db := (lab_b (nc_oklab color) - lab_b (nc_oklab (ce_color e)))%float in
     dist color e = Math_sqrt (dL * dL + da * da + db * db)%float) /\
  nameColor color Auto pn st = (Ok name, st') /\
  ((pn = None \/ exists names, pn = Some names /\ providedName color names = None) ->
   nameColor color Provided pn st = (Ok name, st')).
Proof.
  intros H n name. split; [apply scanNearest_selected|]. split; [reflexivity|]. split.
  - simpl. apply autoName_run, H.
  - intros [->|(names & -> & Hp)]; simpl; [|rewrite Hp]; apply autoName_run, H.
Qed.

(** ** Batch naming *)

Lemma occurrences_app base l1 l2 :
  occurrences base (l1 ++ l2) = (occurrences base l1 + occurrences base l2)%nat.
Proof. induction l1 as [|n l1 IH]; simpl; [reflexivity|]. rewrite IH. lia. Qed.

Lemma uniqueNames_snoc names x :
  fold_left suffixStep (names ++ [x]) (∅, []) =
  suffixStep (fold_left suffixStep names (∅, [])) x.
Proof. apply fold_left_app. Qed.

Lemma suffixStep_invariant names :
  let acc := fold_left suffixStep names (∅, []) in
  (forall b : string,
     acc.1 !! b = if truthy b && (0 <? occurrences b names)%nat
                  then Some (occurrences b names) else None) /\
  length acc.2 = length names /\
  (forall (i : nat) (base : string), names !! i = Some base ->
     acc.2 !! i = Some (suffixed base (occurrences base (take (S i) names)))).
Proof.
  induction names as [|x l IH] using rev_ind.
  - simpl. split; [|split; [reflexivity|]].
    + intros b. rewrite lookup_empty, andb_false_r. reflexivity.
    + intros i base H. destruct i; discriminate.
  - rewrite uniqueNames_snoc.
    destruct (fold_left suffixStep l (∅, [])) as [counts result].
    simpl in IH. destruct IH as (Hc & Hlen & Hres).
    assert (Hold : forall (i : nat) (base : string), (l ++ [x]) !! i = Some base ->
              (i < length l)%nat -> forall r' : list string,
              (result ++ r') !! i =
              Some (suffixed base (occurrences base (take (S i) (l ++ [x]))))).
    { intros i base Hi Hlt r'. rewrite lookup_app_l in Hi by assumption.
      rewrite lookup_app_l by lia. rewrite take_app_le by lia. apply Hres, Hi. }
    assert (Hnew : forall (i : nat) (base : string), (l ++ [x]) !! i = Some base ->
              ~ (i < length l)%nat -> i = length l /\ base = x).
    { intros i base Hi Hge. apply lookup_app_Some in Hi.
      destruct Hi as [Hi|[_ Hi]]; [apply lookup_lt_Some in Hi; lia|].
      apply list_lookup_singleton_Some in Hi. destruct Hi as [Hi <-]. split; [lia|reflexivity]. }
    unfold suffixStep. destruct (truthy x) eqn:Hx.
    + pose proof (Hc x) as Hcx. rewrite Hx in Hcx. simpl in Hcx.
      assert (Hocc : occurrences x (l ++ [x]) = S (occurrences x l)).
      { rewrite occurrences_app. simpl. rewrite String.eqb_refl. lia. }
      assert (Hcount : default 0%nat (counts !! x) = occurrences x l).
      { rewrite Hcx. destruct (0 <? occurrences x l)%nat eqn:E; simpl; [reflexivity|].
        apply Nat.ltb_ge in E. lia. }
      rewrite Hcount.
      assert (Hcounts : forall b : string,
                <[x:=S (occurrences x l)]> counts !! b =
                if truthy b && (0 <? occurrences b (l ++ [x]))%nat
                then Some (occurrences b (l ++ [x])) else None).
      { intros b. destruct (decide (x = b)) as [<-|Hne].
        - rewrite lookup_insert_eq, Hx, Hocc. reflexivity.
        - rewrite lookup_insert_ne by assumption. rewrite Hc, occurrences_app.
          simpl. apply String.eqb_neq in Hne. rewrite Hne, Nat.add_0_r. reflexivity. }
      assert (Hlast : forall r : string,
                r = suffixed x (S (occurrences x l)) ->
                forall (i : nat) (base : string), (l ++ [x]) !! i = Some base ->
                (result ++ [r]) !! i =
                Some (suffixed base (occurrences base (take (S i) (l ++ [x]))))).
      { intros r -> i base Hi. destruct (decide (i < length l)%nat) as [Hlt|Hge].
        - apply Hold; assumption.
        - destruct (Hnew _ _ Hi Hge) as [-> ->].
          rewrite take_ge by (rewrite length_app; simpl; lia).
          rewrite Hocc, <- Hlen. apply list_lookup_middle. reflexivity. }
      destruct (occurrences x l =? 0)%nat eqn:E; simpl.
      * split; [assumption|]. split; [rewrite !length_app; simpl; lia|].
        apply Hlast. apply Nat.eqb_eq in E. rewrite E.
        destruct x; [discriminate|reflexivity].
      * split; [assumption|]. split; [rewrite !length_app; simpl; lia|].
        apply Hlast. unfold suffixed. destruct x; [discriminate|].
        apply Nat.eqb_neq in E.
        destruct (S (occurrences _ l) =? 1)%nat eqn:E1; [|reflexivity].
        apply Nat.eqb_eq in E1. lia.
    + destruct x; [|discriminate]. simpl. split; [|split].
      * intros b. rewrite Hc, occurrences_app. simpl.
        destruct b; [reflexivity|]. simpl. rewrite Nat.add_0_r. reflexivity.
      * rewrite !length_app. simpl. lia.
      * intros i base Hi. destruct (decide (i < length l)%nat) as [Hlt|Hge].
        -- apply Hold; assumption.
        -- destruct (Hnew _ _ Hi Hge) as [-> ->].
           rewrite <- Hlen. apply list_lookup_middle. reflexivity.
Qed.

Lemma mapM_length {A B} (f : A -> M B) xs st ys st' :
  mapM f xs st = (Ok ys, st') -> length ys = length xs.
Proof.
  revert st ys st'. induction xs as [|x xs IH]; intros st ys st'; simpl.
  - intros [= <- _]. reflexivity.
  - unfold bind, ret. destruct (f x st) as [[y|e] st1]; [|discriminate].
    destruct (mapM f xs st1) as [[ys1|e] st2] eqn:E; [|discriminate].
    intros [= <- _]. simpl. f_equal. eapply IH, E.
Qed.

(** C2. [nameColors] returns a list of the same length and order as its
    input: an empty base name passes through as the empty string, the
    first occurrence of a non-empty base name is emitted unchanged, and
    its k-th occurrence (k at least 2) is emitted as the base name, a
    space and the number k.  In particular three copies of a colour that
    'auto' names "Red" give "Red", "Red 2", "Red 3". *)
Theorem nameColors_suffixes colors strategy pn st names st' :
  mapM (fun c => nameColor c strategy pn) colors st = (Ok names, st') ->
  (exists result,
     nameColors colors strategy pn st = (Ok result, st') /\
     length result = length colors /\
     forall (i : nat) (base : string), names !! i = Some base ->
       result !! i = Some (suffixed base (occurrences base (take (S i) names)))) /\
  (forall red, colors = [red; red; red] -> strategy = Auto ->
     names !! 0%nat = Some "Red" ->
     nameColors colors strategy pn st = (Ok ["Red"; "Red 2"; "Red 3"], st')).
Proof.
  intros H.
  assert (Hrun : nameColors colors strategy pn st = (Ok (uniqueNames names), st')).
  { unfold nameColors, bind, ret. rewrite H. reflexivity. }
  destruct (suffixStep_invariant names) as (_ & Hlen & Hres). split.
  - exists (uniqueNames names). split; [assumption|]. split; [|exact Hres].
    unfold uniqueNames. rewrite Hlen. eapply mapM_length, H.
  - intros red -> -> H0. rewrite Hrun. f_equal. f_equal.
    simpl in H. unfold bind, ret in H.
    destruct (autoName red st) as [[n1|e] st1] eqn:E1; [|discriminate].
    destruct (autoName red st1) as [[n2|e] st2] eqn:E2; [|discriminate].
    destruct (autoName red st2) as [[n3|e] st3] eqn:E3; [|discriminate].
    injection H as <- <-. injection H0 as ->.
    unfold autoName, findNearestColor, bind, ret in E1, E2, E3.
    destruct (getColorCache st) as [[c1|e] s1] eqn:G1; [|discriminate].
    injection E1 as E1 <-.
    pose proof (getColorCache_again _ _ _ G1) as ->.
    simpl in E2. injection E2 as E2 <-. simpl in E3. injection E3 as E3 <-.
    rewrite <- E2, <- E3, E1. reflexivity.
Qed.

(** ** Naming strategies *)

Lemma find_In_value {A} (p : A -> bool) (l : list A) (x : A) :
  find p l = Some x -> In x l /\ p x = true.
Proof. apply find_some. Qed.

Lemma find_is_Some {A} (p : A -> bool) (l : list A) (x : A) :
  In x l -> p x = true -> exists y, find p l = Some y.
Proof.
  intros Hin Hp. destruct (find p l) as [y|] eqn:E; [eauto|].
  rewrite (find_none _ _ E _ Hin) in Hp. discriminate.
Qed.

Lemma obj_get_sameHex color names v :
  obj_get names (toUpperCase (nc_hex color)) = Some v ->
  exists key, In (key, v) names /\ key = toUpperCase (nc_hex color).
Proof.
  unfold obj_get. destruct (find _ names) as [[k v']|] eqn:E; [|discriminate].
  intros [= <-]. apply find_some in E. destruct E as [Hin Hk].
  apply String.eqb_eq in Hk. simpl in Hk. exists k. auto.
Qed.

Lemma toUpperCase_idem s : toUpperCase (toUpperCase s) = toUpperCase s.
Proof.
  unfold toUpperCase. induction s as [|c s IH]; simpl; [reflexivity|].
  rewrite IH. f_equal. unfold upper_char.
  destruct (is_lower c) eqn:E; [|rewrite E; reflexivity].
  destruct c as [[] [] [] [] [] [] [] []]; try discriminate E; reflexivity.
Qed.

(** What the branch for provided names returns. *)
Lemma providedName_spec color names :
  providedName color names =
  match obj_get names (toUpperCase (nc_hex color)) with
  | Some v => if truthy v then Some v else option_map snd (find (sameHex color) names)
  | None => option_map snd (find (sameHex color) names)
  end.
Proof. reflexivity. Qed.

Lemma providedName_None color names :
  providedName color names = None <-> forall kv, In kv names -> sameHex color kv = false.
Proof.
  rewrite providedName_spec. split.
  - intros H kv Hin. destruct (sameHex color kv) eqn:E; [|reflexivity].
    destruct (find_is_Some _ _ _ Hin E) as [y Hy]. rewrite Hy in H.
    destruct (obj_get names _) as [v|]; [destruct (truthy v)|]; discriminate.
  - intros H.
    assert (Hf : find (sameHex color) names = None).
    { destruct (find (sameHex color) names) as [y|] eqn:E; [|reflexivity].
      apply find_some in E. destruct E as [Hin Hy]. rewrite (H _ Hin) in Hy. discriminate. }
    rewrite Hf. destruct (obj_get names _) as [v|] eqn:E; [|reflexivity].
    apply obj_get_sameHex in E. destruct E as (key & Hin & ->).
    specialize (H _ Hin). unfold sameHex in H. simpl in H.
    rewrite toUpperCase_idem, String.eqb_refl in H. discriminate.
Qed.

(** Where some key matches, the name returned is the value of a matching key. *)
Lemma providedName_Some color names kv :
  In kv names -> sameHex color kv = true ->
  exists kv', In kv' names /\ sameHex color kv' = true /\
              providedName color names = Some (snd kv').
Proof.
  intros Hin Hm. rewrite providedName_spec.
  destruct (find_is_Some _ _ _ Hin Hm) as [y Hy]. rewrite Hy. simpl.
  pose proof (find_some _ _ Hy) as [Hyin Hym].
  destruct (obj_get names _) as [v|] eqn:E; [|eauto].
  destruct (truthy v); [|eauto].
  apply obj_get_sameHex in E. destruct E as (key & Hk & ->).
  exists (toUpperCase (nc_hex color), v). split; [assumption|]. split; [|reflexivity].
  unfold sameHex. simpl. rewrite toUpperCase_idem. apply String.eqb_refl.
Qed.

Lemma find_first {A} (p : A -> bool) (l : list A) (x : A) :
  find p l = Some x ->
  exists i : nat, l !! i = Some x /\ p x = true /\
    forall (j : nat) (y : A), (j < i)%nat -> l !! j = Some y -> p y = false.
Proof.
  induction l as [|a l IH]; simpl; [discriminate|].
  destruct (p a) eqn:E.
  - intros [= <-]. exists 0%nat. split; [reflexivity|]. split; [exact E|]. intros j y Hj. lia.
  - intros H. destruct (IH H) as (i & Hi & Hp & Hbefore).
    exists (S i). split; [exact Hi|]. split; [exact Hp|].
    intros [|j] y Hj Hy; [injection Hy as <-; exact E|].
    apply (Hbefore j); [lia|exact Hy].
Qed.

Lemma obj_get_lookup (o : list (string * string)) (key v : string) :
  obj_get o key = Some v -> exists i : nat, o !! i = Some (key, v).
Proof.
  unfold obj_get. destruct (find _ o) as [[k v']|] eqn:E; [|discriminate].
  simpl. intros [= ->]. destruct (find_first _ _ _ E) as (i & Hi & Hp & _).
  apply String.eqb_eq in Hp. simpl in Hp. subst k. exists i. exact Hi.
Qed.

Lemma truthy_false (s : string) : truthy s = false -> s = "".
Proof. destruct s; [reflexivity|discriminate]. Qed.

Lemma truthy_true (s : string) : truthy s = true -> s <> "".
Proof. destruct s; [discriminate|]. intros _ H. discriminate H. Qed.

(** C9, as the code has it.  Under 'provided', when some key of the map
    equals the colour's hex up to letter case, [nameColor] returns the
    value of such a key and never names the colour automatically: the
    cache is left as it was.  Which key: the value stored under the hex
    in upper case when that value is not empty; otherwise the value of
    the first key, in the order of the entries, that equals the hex up
    to letter case, even when that value is the empty string.  When
    every matching key maps to one value, that value is the result. *)
Theorem nameColor_provided_match color names st key value :
  In (key, value) names ->
  toUpperCase key = toUpperCase (nc_hex color) ->
  exists (i : nat) (key' value' : string),
    names !! i = Some (key', value') /\
    toUpperCase key' = toUpperCase (nc_hex color) /\
    nameColor color Provided (Some names) st = (Ok value', st) /\
    ((obj_get names (toUpperCase (nc_hex color)) = Some value' /\ value' <> "" /\
      key' = toUpperCase (nc_hex color))
     \/
     ((obj_get names (toUpperCase (nc_hex color)) = None \/
       obj_get names (toUpperCase (nc_hex color)) = Some "") /\
      forall (j : nat) (k v : string), (j < i)%nat -> names !! j = Some (k, v) ->
        toUpperCase k <> toUpperCase (nc_hex color))) /\
    ((forall k v, In (k, v) names -> toUpperCase k = toUpperCase (nc_hex color) ->
        v = value) ->
     value' = value).
Proof.
  intros Hin Hk.
  assert (Hm : sameHex color (key, value) = true).
  { unfold sameHex. simpl. rewrite Hk. apply String.eqb_refl. }
  destruct (find_is_Some _ _ _ Hin Hm) as [[ks vs] Hs].
  destruct (find_first _ _ _ Hs) as (i0 & His & Hps & Hbefore).
  assert (Hscan :
    forall (j : nat) (k v : string), (j < i0)%nat -> names !! j = Some (k, v) ->
      toUpperCase k <> toUpperCase (nc_hex color)).
  { intros j k v Hj Hjk E. specialize (Hbefore j (k, v) Hj Hjk).
    unfold sameHex in Hbefore. simpl in Hbefore. rewrite E, String.eqb_refl in Hbefore.
    discriminate. }
  apply String.eqb_eq in Hps. simpl in Hps.
  assert (Hagree : forall (i : nat) k v, names !! i = Some (k, v) ->
            toUpperCase k = toUpperCase (nc_hex color) ->
            (forall k0 v0, In (k0, v0) names ->
               toUpperCase k0 = toUpperCase (nc_hex color) -> v0 = value) -> v = value).
  { intros i k v Hi Hku Hall. apply (Hall k v); [|exact Hku].
    apply list_elem_of_In. eapply list_elem_of_lookup_2, Hi. }
  simpl. rewrite providedName_spec, Hs. simpl.
  destruct (obj_get names (toUpperCase (nc_hex color))) as [v|] eqn:E.
  - destruct (truthy v) eqn:Ev.
    + destruct (obj_get_lookup _ _ _ E) as [i Hi].
      exists i, (toUpperCase (nc_hex color)), v.
      split; [exact Hi|]. split; [apply toUpperCase_idem|]. split; [reflexivity|].
      split; [left; split; [reflexivity|split; [apply truthy_true, Ev|reflexivity]]|].
      apply (Hagree i _ _ Hi), toUpperCase_idem.
    + apply truthy_false in Ev. subst v.
      exists i0, ks, vs. split; [exact His|]. split; [exact Hps|]. split; [reflexivity|].
      split; [right; split; [right; reflexivity|exact Hscan]|].
      apply (Hagree i0 _ _ His Hps).
  - exists i0, ks, vs. split; [exact His|]. split; [exact Hps|]. split; [reflexivity|].
    split; [right; split; [left; reflexivity|exact Hscan]|].
    apply (Hagree i0 _ _ His Hps).
Qed.

Lemma truthy_app_r s t : truthy t = true -> truthy (s ++ t)%string = true.
Proof. destruct s; simpl; [auto|reflexivity]. Qed.

Lemma truthy_join_snoc parts last :
  truthy last = true -> truthy (join_space (parts ++ [last])) = true.
Proof.
  intros H. induction parts as [|p rest IH]; simpl; [assumption|].
  destruct (rest ++ [last]) eqn:E.
  - destruct rest; discriminate.
  - apply truthy_app_r. reflexivity.
Qed.

Lemma getHueFamily_truthy hue :
  (forall fam rng, In (fam, rng) HUE_FAMILIES -> truthy (remove_first "2" fam) = true) ->
  truthy (getHueFamily hue) = true.
Proof.
  unfold getHueFamily. induction HUE_FAMILIES as [|[fam [lo hi]] rest IH]; intros H; simpl.
  - reflexivity.
  - destruct ((lo <=? hue)%float && (hue <? hi)%float).
    + apply (H fam (lo, hi)). left. reflexivity.
    + apply IH. intros f r Hin. apply (H f r). right. assumption.
Qed.

Lemma generateFallbackName_truthy color :
  (forall fam rng, In (fam, rng) HUE_FAMILIES -> truthy (remove_first "2" fam) = true) ->
  truthy (generateFallbackName color) = true.
Proof.
  intros H. unfold generateFallbackName.
  destruct (lch_C (nc_oklch color) <? 0.02)%float.
  - destruct (lch_L (nc_oklch color) <? 0.15)%float; [reflexivity|].
    destruct (0.95 <? lch_L (nc_oklch color))%float; [reflexivity|].
    destruct (truthy (getLightnessModifier _)); [|reflexivity].
    apply truthy_app_r. reflexivity.
  - apply truthy_join_snoc, getHueFamily_truthy, H.
Qed.

Lemma scanNearest_name color cache :
  nearest_name (scanNearest color cache) = "Unknown" /\
    nearest_distance (scanNearest color cache) = PrimFloat.infinity \/
  exists e, In e cache /\ nearest_name (scanNearest color cache) = ce_name e.
Proof.
  destruct (scanNearest_selected color cache) as [[-> _]|(i & e & Hi & -> & _)].
  - left. split; reflexivity.
  - right. exists e. split; [|reflexivity].
    apply list_elem_of_In. eapply list_elem_of_lookup_2, Hi.
Qed.

(** C3, as the code has it.  'none' gives the empty string and leaves
    the cache alone.  Under 'provided' the name stored under the colour's
    upper-cased hex is returned when it is not empty; otherwise the value
    of the first key, in enumeration order, that equals the hex up to
    letter case.  When no key matches up to case the result is that of
    'auto', whatever names the map gives to other colours; it is not
    empty when no dataset name and no hue family label is empty. *)
Theorem nameColor_by_strategy color pn st :
  nameColor color NoNames pn st = (Ok "", st) /\
  (forall names v,
     obj_get names (toUpperCase (nc_hex color)) = Some v -> truthy v = true ->
     nameColor color Provided (Some names) st = (Ok v, st)) /\
  (forall names kv,
     (forall v, obj_get names (toUpperCase (nc_hex color)) = Some v -> v = "") ->
     find (sameHex color) names = Some kv ->
     nameColor color Provided (Some names) st = (Ok (snd kv), st)) /\
  (forall names,
     (forall kv, In kv names -> sameHex color kv = false) ->
     nameColor color Provided (Some names) st = nameColor color Auto None st /\
     forall cache st',
       getColorCache st = (Ok cache, st') ->
       (forall e, In e cache -> truthy (ce_name e) = true) ->
       (forall fam rng, In (fam, rng) HUE_FAMILIES ->
          truthy (remove_first "2" fam) = true) ->
       exists name,
         nameColor color Provided (Some names) st = (Ok name, st') /\
         truthy name = true).
Proof.
  split; [reflexivity|]. split; [|split].
  - intros names v Hget Hv. simpl. rewrite providedName_spec, Hget, Hv. reflexivity.
  - intros names kv Hempty Hfind. simpl. rewrite providedName_spec, Hfind.
    destruct (obj_get names _) as [v|] eqn:E; [|reflexivity].
    rewrite (Hempty v eq_refl). reflexivity.
  - intros names Hnone. apply providedName_None in Hnone.
    split; [simpl; rewrite Hnone; reflexivity|].
    intros cache st' Hc Hnames Hfam. simpl. rewrite Hnone, (autoName_run _ _ _ _ Hc).
    eexists. split; [reflexivity|].
    destruct (nearest_distance (scanNearest color cache) <? MATCH_THRESHOLD)%float eqn:E.
    + destruct (scanNearest_name color cache) as [[_ Hd]|(e & Hin & ->)]; [|auto].
      rewrite Hd in E. discriminate.
    + apply generateFallbackName_truthy, Hfam.
Qed.

(** ** Text colour *)

(** C8. [computeTextColor] returns "#111111" or "#FFFFFF" and nothing
    else; "#111111" when the background does not parse; and for a
    background that parses, "#FFFFFF" exactly when the light reference
    has the strictly higher contrast ratio against it, so the reference
    returned is never the one of lower contrast. *)
Theorem computeTextColor_choice bgHex :
  (computeTextColor bgHex = "#111111" \/ computeTextColor bgHex = "#FFFFFF") /\
  (parseColor bgHex = None -> computeTextColor bgHex = "#111111") /\
  (forall bg, parseColor bgHex = Some bg ->
     let darkContrast := getContrastRatio bg darkTextRgba in
     let lightContrast := getContrastRatio bg lightTextRgba in
     ((darkContrast <? lightContrast)%float = true -> computeTextColor bgHex = "#FFFFFF") /\
     ((darkContrast <? lightContrast)%float = false -> computeTextColor bgHex = "#111111") /\
     ((lightContrast <? darkContrast)%float = true -> computeTextColor bgHex = "#111111")).
Proof.
  unfold computeTextColor. destruct (parseColor bgHex) as [bg|].
  - split; [|split; [discriminate|]].
    + destruct (_ <? _)%float; [right|left]; reflexivity.
    + intros bg' [= <-]. cbv zeta. split; [|split].
      * intros ->. reflexivity.
      * intros ->. reflexivity.
      * intros H. rewrite (ltb_asym _ _ H). reflexivity.
  - split; [left; reflexivity|]. split; [reflexivity|]. discriminate.
Qed.

(** ** Canonical hex *)

Lemma bytes_spec : bytes = map (fun n => Z2float (Z.of_nat n)) (seq 0 256).
Proof. vm_compute. reflexivity. Qed.

Lemma is_byte_In (x : float) : is_byte x -> In x bytes.
Proof.
  intros (z & Hz & ->). rewrite bytes_spec.
  replace z with (Z.of_nat (Z.to_nat z)) by lia.
  apply (in_map (fun n => Z2float (Z.of_nat n))), in_seq. lia.
Qed.

Lemma byte_roundtrip_all : forallb byte_roundtrip bytes = true.
Proof. vm_compute. reflexivity. Qed.

Lemma alpha_roundtrip_all : forallb alpha_roundtrip (firstn 255 bytes) = true.
Proof. vm_compute. reflexivity. Qed.

Lemma firstn_bytes_In (k : Z) : 0 <= k <= 254 -> In (Z2float k) (firstn 255 bytes).
Proof.
  intros Hk.
  assert (E : firstn 255 bytes = map (fun n => Z2float (Z.of_nat n)) (seq 0 255))
    by (vm_compute; reflexivity).
  rewrite E. replace k with (Z.of_nat (Z.to_nat k)) by lia.
  apply (in_map (fun n => Z2float (Z.of_nat n))), in_seq. lia.
Qed.

Lemma toHex_byte (x : float) :
  is_byte x ->
  exists c1 c2,
    toHex x = String c1 (String c2 EmptyString) /\
    is_ws c2 = false /\ is_nan x = false /\
    parseInt16 (String c1 (String c2 EmptyString)) = x /\
    Math_round x = x.
Proof.
  intros H. apply is_byte_In in H.
  pose proof byte_roundtrip_all as Hall. rewrite forallb_forall in Hall.
  specialize (Hall x H). unfold byte_roundtrip in Hall.
  destruct (toHex x) as [|c1 [|c2 [|]]]; try discriminate Hall.
  repeat (apply andb_true_iff in Hall; destruct Hall as [Hall ?]).
  exists c1, c2. split; [reflexivity|].
  repeat split; try (apply negb_true_iff; assumption);
    apply FloatAxioms.Leibniz.eqb_spec; assumption.
Qed.

Lemma alpha_byte (k : Z) :
  0 <= k <= 254 ->
  is_nan (Z2float k / 255) = false /\
  (Z2float k / 255 <? 1)%float = true /\
  Math_round (Z2float k / 255 * 255) = Z2float k.
Proof.
  intros Hk. pose proof alpha_roundtrip_all as Hall. rewrite forallb_forall in Hall.
  specialize (Hall _ (firstn_bytes_In k Hk)). unfold alpha_roundtrip in Hall.
  repeat (apply andb_true_iff in Hall; destruct Hall as [Hall ?]).
  split; [apply negb_true_iff; assumption|]. split; [assumption|].
  apply FloatAxioms.Leibniz.eqb_spec; assumption.
Qed.

Lemma toHex_round (x y : float) : Math_round x = Math_round y -> toHex x = toHex y.
Proof. unfold toHex. intros ->. reflexivity. Qed.

(** The hex string of a colour with byte channels and a stable alpha
    parses to a colour with the same hex string. *)
Lemma rgbaToHex_reparse (v : RGBA) :
  byte_channels v -> alpha_stable (rgba_a v) ->
  exists v', parseColor (rgbaToHex v) = Some v' /\ rgbaToHex v' = rgbaToHex v.
Proof.
  destruct v as [r g b a]. unfold byte_channels. simpl. intros (Hr & Hg & Hb) Ha.
  destruct (toHex_byte r Hr) as (c1 & c2 & Er & _ & Nr & Pr & _).
  destruct (toHex_byte g Hg) as (c3 & c4 & Eg & _ & Ng & Pg & _).
  destruct (toHex_byte b Hb) as (c5 & c6 & Eb & W6 & Nb & Pb & _).
  unfold rgbaToHex. simpl rgba_r. simpl rgba_g. simpl rgba_b. simpl rgba_a.
  rewrite Er, Eg, Eb.
  destruct (a <? 1)%float eqn:Elt.
  - destruct Ha as [Ha|(k & Hk & Hround)]; [congruence|].
    assert (Hkb : is_byte (Z2float k)) by (exists k; split; [lia|reflexivity]).
    destruct (toHex_byte _ Hkb) as (c7 & c8 & Ek & W8 & _ & Pk & Rk).
    assert (Eh : toHex (a * 255) = String c7 (String c8 EmptyString)).
    { rewrite <- Ek. apply toHex_round. rewrite Rk. assumption. }
    destruct (alpha_byte k Hk) as (Nk & Lk & Rk').
    rewrite Eh.
    exists (mkRGBA r g b (Z2float k / 255)). split.
    + unfold parseColor, trim. cbv beta iota delta [String.append].
      cbn [chars list_ascii_of_string skip_ws]. change (is_ws "#") with false.
      cbn [rev app skip_ws]. rewrite W8.
      cbn [rev app of_chars string_of_list_ascii startsWith String.prefix Ascii.eqb Bool.eqb].
      unfold parseHex.
      cbn [String.length slice substring Nat.sub].
      rewrite Pr, Pg, Pb, Pk. unfold rgba_of, isNaN. rewrite Nr, Ng, Nb, Nk. reflexivity.
    + simpl rgba_r. simpl rgba_g. simpl rgba_b. simpl rgba_a.
      rewrite Er, Eg, Eb, Lk. f_equal. rewrite <- Ek.
      symmetry. apply toHex_round. rewrite Rk, Rk'. reflexivity.
  - exists (mkRGBA r g b 1). split.
    + unfold parseColor, trim. cbv beta iota delta [String.append].
      cbn [chars list_ascii_of_string skip_ws]. change (is_ws "#") with false.
      cbn [rev app skip_ws]. rewrite W6.
      cbn [rev app of_chars string_of_list_ascii startsWith String.prefix Ascii.eqb Bool.eqb].
      unfold parseHex.
      cbn [String.length slice substring Nat.sub].
      rewrite Pr, Pg, Pb. unfold rgba_of, isNaN. rewrite Nr, Ng, Nb. reflexivity.
    + simpl. rewrite Er, Eg, Eb. reflexivity.
Qed.

Lemma normalizeColor_Ok input n :
  normalizeColor input = Ok n ->
  exists rgba, parseColor input = Some rgba /\
               nc_rgba n = rgba /\ nc_hex n = rgbaToHex rgba.
Proof.
  unfold normalizeColor. destruct (parseColor input) as [rgba|]; [|discriminate].
  intros [= <-]. exists rgba. auto.
Qed.

(** ** The hex parser *)

Lemma all_ascii_In (c : ascii) : In c all_ascii.
Proof.
  unfold all_ascii. rewrite <- (ascii_nat_embedding c).
  apply in_map, in_seq. pose proof (nat_ascii_bounded c). lia.
Qed.

Lemma for_all_ascii (p : ascii -> bool) :
  forallb p all_ascii = true -> forall c, p c = true.
Proof. intros H c. rewrite forallb_forall in H. apply H, all_ascii_In. Qed.

Lemma parseHex_cleaned (hex : string) : parseHex hex = parseHex (String "#" (cleanedHex hex)).
Proof.
  unfold parseHex, cleanedHex.
  destruct hex as [|c s]; [reflexivity|].
  destruct c as [[] [] [] [] [] [] [] []]; reflexivity.
Qed.

(** X1. [parseHex] returns a colour only for 3, 4, 6 or 8 characters
    after one leading [#]: every other length is rejected. *)
Theorem parseHex_length_gate (hex : string) (v : RGBA) :
  parseHex hex = Some v ->
  In (String.length (cleanedHex hex)) [3; 4; 6; 8]%nat.
Proof.
  rewrite parseHex_cleaned. unfold parseHex. simpl.
  destruct (String.length (cleanedHex hex)) as [|[|[|[|[|[|[|[|[|n]]]]]]]]];
    try discriminate; intros _; simpl; auto 10.
Qed.

Lemma twice_nonhex_all :
  forallb (fun c => is_hex_digit c || is_nan (parseInt16 (String c (String c EmptyString))))
    all_ascii = true.
Proof. vm_compute. reflexivity. Qed.

Lemma twice_nonhex (c : ascii) :
  is_hex_digit c = false -> is_nan (parseInt16 (String c (String c EmptyString))) = true.
Proof.
  intros H. pose proof (for_all_ascii _ twice_nonhex_all c) as Hc. simpl in Hc.
  rewrite H in Hc. exact Hc.
Qed.

Lemma rgba_of_nan_r r g b a : is_nan r = true -> rgba_of r g b a = None.
Proof. unfold rgba_of, isNaN. intros ->. reflexivity. Qed.

Lemma rgba_of_nan_g r g b a : is_nan g = true -> rgba_of r g b a = None.
Proof. unfold rgba_of, isNaN. intros ->. rewrite orb_true_r. reflexivity. Qed.

Lemma rgba_of_nan_b r g b a : is_nan b = true -> rgba_of r g b a = None.
Proof. unfold rgba_of, isNaN. intros ->. rewrite !orb_true_r. reflexivity. Qed.

Lemma div255_nan (x : float) : is_nan x = true -> is_nan (x / 255) = true.
Proof.
  intros H. assert (E : x = PrimFloat.nan).
  { apply Prim2SF_inj. unfold is_nan in H. apply negb_true_iff in H.
    rewrite FloatAxioms.eqb_spec in H. unfold SFeqb in H. rewrite SFcompare_key in H.
    destruct (Prim2SF x) as [[]|[]| |[] m e]; simpl in H;
      rewrite ?Z.compare_refl, ?Pos.compare_refl in H; try discriminate H; reflexivity. }
  rewrite E. reflexivity.
Qed.

Lemma rgba_of_nan_a r g b a : is_nan a = true -> rgba_of r g b a = None.
Proof. unfold rgba_of, isNaN. intros ->. rewrite !orb_true_r. reflexivity. Qed.

(** X2. In the three- and four-digit forms every character is doubled
    before it is read, so one character that is not a hexadecimal digit
    makes [parseHex] return null. *)
Theorem parseHex_short_rejects_nonhex (hex : string) (c : ascii) :
  String.length (cleanedHex hex) = 3%nat \/ String.length (cleanedHex hex) = 4%nat ->
  In c (chars (cleanedHex hex)) -> is_hex_digit c = false ->
  parseHex hex = None.
Proof.
  rewrite parseHex_cleaned. unfold parseHex. simpl.
  destruct (cleanedHex hex) as [|c1 [|c2 [|c3 [|c4 [|c5 s]]]]]; simpl;
    intros [Hl|Hl]; try discriminate Hl; intros Hin Hc.
  - destruct Hin as [<-|[<-|[<-|[]]]].
    + apply rgba_of_nan_r, twice_nonhex, Hc.
    + apply rgba_of_nan_g, twice_nonhex, Hc.
    + apply rgba_of_nan_b, twice_nonhex, Hc.
  - destruct Hin as [<-|[<-|[<-|[<-|[]]]]].
    + apply rgba_of_nan_r, twice_nonhex, Hc.
    + apply rgba_of_nan_g, twice_nonhex, Hc.
    + apply rgba_of_nan_b, twice_nonhex, Hc.
    + apply rgba_of_nan_a, div255_nan, twice_nonhex, Hc.
Qed.

Lemma bytes_In_is_byte (x : float) : In x bytes -> is_byte x.
Proof.
  rewrite bytes_spec. intros H. apply in_map_iff in H. destruct H as (n & <- & Hn).
  apply in_seq in Hn. exists (Z.of_nat n). split; [lia|reflexivity].
Qed.

Lemma hex_pair_all :
  forallb (fun c1 => forallb (fun c2 =>
     negb (is_hex_digit c1 && is_hex_digit c2) ||
     existsb (PrimFloat.Leibniz.eqb (parseInt16 (String c1 (String c2 EmptyString)))) bytes)
     all_ascii) all_ascii = true.
Proof. vm_compute. reflexivity. Qed.

Lemma hex_pair (c1 c2 : ascii) :
  is_hex_digit c1 = true -> is_hex_digit c2 = true ->
  is_byte (parseInt16 (String c1 (String c2 EmptyString))).
Proof.
  intros H1 H2. pose proof hex_pair_all as H. rewrite forallb_forall in H.
  specialize (H c1 (all_ascii_In c1)). rewrite forallb_forall in H.
  specialize (H c2 (all_ascii_In c2)). rewrite H1, H2 in H.
  change (negb (true && true)) with false in H. rewrite orb_false_l in H.
  apply existsb_exists in H. destruct H as (x & Hx & E).
  apply FloatAxioms.Leibniz.eqb_spec in E. rewrite E. apply bytes_In_is_byte, Hx.
Qed.

Lemma is_byte_not_nan (x : float) : is_byte x -> is_nan x = false.
Proof. intros H. destruct (toHex_byte x H) as (? & ? & _ & _ & N & _). exact N. Qed.

Lemma byte_alpha (x : float) :
  is_byte x -> is_nan (x / 255) = false /\ alpha_stable (x / 255).
Proof.
  intros (k & Hk & ->). destruct (Z.eq_dec k 255) as [->|Hne].
  - split; [reflexivity|]. left. reflexivity.
  - destruct (alpha_byte k ltac:(lia)) as (N & _ & R). split; [exact N|].
    right. exists k. split; [lia|exact R].
Qed.

Lemma rgba_of_bytes r g b a :
  is_byte r -> is_byte g -> is_byte b -> is_nan a = false ->
  rgba_of r g b a = Some (mkRGBA r g b a).
Proof.
  intros Hr Hg Hb Ha. unfold rgba_of, isNaN.
  rewrite (is_byte_not_nan r Hr), (is_byte_not_nan g Hg), (is_byte_not_nan b Hb), Ha.
  reflexivity.
Qed.

Lemma alpha_stable_1 : alpha_stable 1.
Proof. left. reflexivity. Qed.

Lemma parseHex_hex_digits (hex : string) :
  all_hex_digits (cleanedHex hex) ->
  In (String.length (cleanedHex hex)) [3; 4; 6; 8]%nat ->
  exists v, parseHex hex = Some v /\ byte_channels v /\
            (rgba_a v = 1%float \/ exists x, is_byte x /\ rgba_a v = (x / 255)%float) /\
            alpha_stable (rgba_a v).
Proof.
  rewrite parseHex_cleaned. unfold all_hex_digits, parseHex. simpl.
  destruct (cleanedHex hex) as [|c1 [|c2 [|c3 [|c4 [|c5 [|c6 [|c7 [|c8 [|c9 s]]]]]]]]];
    simpl; intros Hd Hl; try (exfalso; intuition discriminate);
    repeat (apply andb_true_iff in Hd; destruct Hd as [? Hd]).
  - rewrite rgba_of_bytes by (try apply hex_pair; auto).
    eexists. split; [reflexivity|]. unfold byte_channels. simpl.
    repeat split; try (apply hex_pair; assumption); [left; reflexivity|apply alpha_stable_1].
  - destruct (byte_alpha _ (hex_pair c4 c4 ltac:(assumption) ltac:(assumption))) as [N A].
    rewrite rgba_of_bytes by (try apply hex_pair; auto).
    eexists. split; [reflexivity|]. unfold byte_channels. simpl.
    repeat split; try (apply hex_pair; assumption); [|exact A].
    right. eexists. split; [|reflexivity]. apply hex_pair; assumption.
  - rewrite rgba_of_bytes by (try apply hex_pair; auto).
    eexists. split; [reflexivity|]. unfold byte_channels. simpl.
    repeat split; try (apply hex_pair; assumption); [left; reflexivity|apply alpha_stable_1].
  - destruct (byte_alpha _ (hex_pair c7 c8 ltac:(assumption) ltac:(assumption))) as [N A].
    rewrite rgba_of_bytes by (try apply hex_pair; auto).
    eexists. split; [reflexivity|]. unfold byte_channels. simpl.
    repeat split; try (apply hex_pair; assumption); [|exact A].
    right. eexists. split; [|reflexivity]. apply hex_pair; assumption.
Qed.

(** X3. [parseHex] accepts every string of 3, 4, 6 or 8 hexadecimal
    digits, with or without the leading [#]; the channels are integers
    in [0,255], and the alpha is 1 or a byte divided by 255. *)
Theorem parseHex_accepts_hex_digits (hex : string) :
  all_hex_digits (cleanedHex hex) ->
  In (String.length (cleanedHex hex)) [3; 4; 6; 8]%nat ->
  exists v, parseHex hex = Some v /\ byte_channels v /\
            (rgba_a v = 1%float \/ exists x, is_byte x /\ rgba_a v = (x / 255)%float).
Proof.
  intros Hd Hl. destruct (parseHex_hex_digits hex Hd Hl) as (v & Hp & Hb & Ha & _).
  exists v. auto.
Qed.

(** ** White space around a colour *)

Lemma skip_ws_fix (l : list ascii) :
  match l with c :: _ => is_ws c = false | [] => True end -> skip_ws l = l.
Proof. destruct l as [|c l]; simpl; [reflexivity|]. intros ->. reflexivity. Qed.

Lemma skip_ws_head (l : list ascii) :
  match skip_ws l with c :: _ => is_ws c = false | [] => True end.
Proof.
  induction l as [|c l IH]; simpl; [exact I|].
  destruct (is_ws c) eqn:E; [exact IH|exact E].
Qed.

Lemma skip_ws_idem (l : list ascii) : skip_ws (skip_ws l) = skip_ws l.
Proof. apply skip_ws_fix, skip_ws_head. Qed.

Lemma skip_ws_snoc (l : list ascii) (c : ascii) :
  is_ws c = false -> skip_ws (l ++ [c]) = skip_ws l ++ [c].
Proof.
  intros Hc. induction l as [|d l IH]; simpl; [rewrite Hc; reflexivity|].
  destruct (is_ws d); [exact IH|reflexivity].
Qed.

Lemma chars_of_chars (l : list ascii) : chars (of_chars l) = l.
Proof. apply list_ascii_of_string_of_list_ascii. Qed.

Lemma of_chars_chars (s : string) : of_chars (chars s) = s.
Proof. apply string_of_list_ascii_of_string. Qed.

Lemma trim_fix (s : string) :
  skip_ws (chars s) = chars s -> skip_ws (rev (chars s)) = rev (chars s) -> trim s = s.
Proof.
  intros H1 H2. unfold trim. rewrite H1, H2, rev_involutive. apply of_chars_chars.
Qed.

Lemma trim_idem (s : string) : trim (trim s) = trim s.
Proof.
  apply trim_fix; unfold trim; rewrite chars_of_chars.
  - apply skip_ws_fix. pose proof (skip_ws_head (chars s)) as H.
    destruct (skip_ws (chars s)) as [|c A]; [exact I|]. simpl.
    rewrite skip_ws_snoc by exact H. rewrite rev_app_distr. simpl. exact H.
  - rewrite rev_involutive. apply skip_ws_idem.
Qed.

(** X4. [parseColor] ignores white space around its input. *)
Theorem parseColor_trim (input : string) : parseColor (trim input) = parseColor input.
Proof. unfold parseColor. rewrite trim_idem. reflexivity. Qed.

Lemma hex_digit_not_ws_all :
  forallb (fun c => negb (is_hex_digit c) || negb (is_ws c)) all_ascii = true.
Proof. vm_compute. reflexivity. Qed.

Lemma hex_digit_not_ws (c : ascii) : is_hex_digit c = true -> is_ws c = false.
Proof.
  intros H. pose proof (for_all_ascii _ hex_digit_not_ws_all c) as Hc. simpl in Hc.
  rewrite H in Hc. simpl in Hc. apply negb_true_iff, Hc.
Qed.

Lemma parseColor_hash_hex (ds : string) :
  all_hex_digits ds -> parseColor (String "#" ds) = parseHex (String "#" ds).
Proof.
  unfold all_hex_digits. intros Hd.
  assert (Ht : trim (String "#" ds) = String "#" ds).
  { apply trim_fix; [reflexivity|]. simpl. fold (chars ds).
    apply skip_ws_fix. destruct (rev (chars ds)) as [|c l] eqn:E; [reflexivity|].
    simpl. apply hex_digit_not_ws. rewrite forallb_forall in Hd. apply Hd.
    apply in_rev. rewrite E. left. reflexivity. }
  unfold parseColor. rewrite Ht. unfold startsWith at 1. simpl String.prefix.
  destruct (ascii_dec "#" "#") as [_|Hne]; [|contradiction Hne; reflexivity].
  destruct ds; reflexivity.
Qed.

(** X5. A hex literal of 3, 4, 6 or 8 digits always normalises, and its
    canonical hex is a fixed point of normalisation: short forms,
    lower case and alpha pairs are all settled by one pass. *)
Theorem hex_literal_canonical (ds : string) :
  all_hex_digits ds -> In (String.length ds) [3; 4; 6; 8]%nat ->
  exists h, canonicalHex (String "#" ds) = Some h /\ canonicalHex h = Some h.
Proof.
  intros Hd Hl.
  destruct (parseHex_hex_digits (String "#" ds) Hd Hl) as (v & Hp & Hb & _ & Ha).
  destruct (rgbaToHex_reparse v Hb Ha) as (v' & Hp' & Hv).
  exists (rgbaToHex v). unfold canonicalHex, normalizeColor.
  rewrite (parseColor_hash_hex ds Hd), Hp, Hp'. simpl. rewrite Hv. split; reflexivity.
Qed.

(** ** More on the order of numbers *)

Lemma is_nan_key (x : float) : is_nan x = false <-> exists a, float_key x = Some a.
Proof.
  unfold is_nan, float_key. rewrite FloatAxioms.eqb_spec. unfold SFeqb.
  rewrite SFcompare_key. destruct (sf_key (Prim2SF x)) as [[[a1 a2] a3]|]; simpl.
  - rewrite !Z.compare_refl. split; [eauto|reflexivity].
  - split; [discriminate|intros [a H]; discriminate].
Qed.

Lemma leb_refl (x : float) : is_nan x = false -> (x <=? x)%float = true.
Proof.
  intros H. apply is_nan_key in H. destruct H as [a Ha].
  apply leb_key. exists a, a. auto.
Qed.

Lemma key_total (a b : Z * Z * Z) : key_lt a b \/ a = b \/ key_lt b a.
Proof.
  destruct a as [[a1 a2] a3], b as [[b1 b2] b3]. unfold key_lt. simpl.
  destruct (Z.lt_trichotomy a1 b1) as [?|[->|?]]; [lia| |lia].
  destruct (Z.lt_trichotomy a2 b2) as [?|[->|?]]; [lia| |lia].
  destruct (Z.lt_trichotomy a3 b3) as [?|[->|?]]; [lia| |lia].
  right. left. reflexivity.
Qed.

Lemma ltb_false_leb (x y : float) :
  is_nan x = false -> is_nan y = false -> (x <? y)%float = false -> (y <=? x)%float = true.
Proof.
  intros Hx Hy H. apply is_nan_key in Hx, Hy. destruct Hx as [a Ha], Hy as [b Hb].
  apply leb_key. exists b, a. split; [assumption|]. split; [assumption|].
  destruct (key_total a b) as [Hlt|[->|Hgt]]; auto.
  assert (E : (x <? y)%float = true) by (apply ltb_key; eauto).
  congruence.
Qed.

Lemma leb_trans (x y z : float) :
  (x <=? y)%float = true -> (y <=? z)%float = true -> (x <=? z)%float = true.
Proof.
  intros H1 H2. apply leb_key in H1, H2. apply leb_key.
  destruct H1 as (a & b & Ha & Hb & H1), H2 as (b' & c & Hb' & Hc & H2).
  rewrite Hb in Hb'. injection Hb' as <-. exists a, c. split; [assumption|].
  split; [assumption|].
  destruct H1 as [H1| ->]; destruct H2 as [H2| <-]; auto.
  left. unfold key_lt in *. lia.
Qed.

Lemma leb_not_nan (x y : float) :
  (x <=? y)%float = true -> is_nan x = false /\ is_nan y = false.
Proof.
  intros H. apply leb_key in H. destruct H as (a & b & Ha & Hb & _).
  split; apply is_nan_key; eauto.
Qed.

Lemma Math_max_spec (x y : float) :
  is_nan (Math_max x y) = false ->
  is_nan x = false /\ is_nan y = false /\
  (x <=? Math_max x y)%float = true /\ (y <=? Math_max x y)%float = true /\
  (Math_max x y = x \/ Math_max x y = y).
Proof.
  unfold Math_max. destruct (is_nan x) eqn:Hx; [discriminate|].
  destruct (is_nan y) eqn:Hy; [discriminate|]. simpl. intros _.
  split; [reflexivity|]. split; [reflexivity|].
  destruct (x <? y)%float eqn:E1.
  { split; [apply ltb_leb, E1|]. split; [apply leb_refl, Hy|auto]. }
  destruct (y <? x)%float eqn:E2.
  { split; [apply leb_refl, Hx|]. split; [apply ltb_leb, E2|auto]. }
  pose proof (ltb_false_leb _ _ Hx Hy E1). pose proof (ltb_false_leb _ _ Hy Hx E2).
  destruct (is_zero x && get_sign x).
  - split; [assumption|]. split; [apply leb_refl, Hy|auto].
  - split; [apply leb_refl, Hx|]. split; [assumption|auto].
Qed.

Lemma Math_min_spec (x y : float) :
  is_nan (Math_min x y) = false ->
  is_nan x = false /\ is_nan y = false /\
  (Math_min x y <=? x)%float = true /\ (Math_min x y <=? y)%float = true /\
  (Math_min x y = x \/ Math_min x y = y).
Proof.
  unfold Math_min. destruct (is_nan x) eqn:Hx; [discriminate|].
  destruct (is_nan y) eqn:Hy; [discriminate|]. simpl. intros _.
  split; [reflexivity|]. split; [reflexivity|].
  destruct (x <? y)%float eqn:E1.
  { split; [apply leb_refl, Hx|]. split; [apply ltb_leb, E1|auto]. }
  destruct (y <? x)%float eqn:E2.
  { split; [apply ltb_leb, E2|]. split; [apply leb_refl, Hy|auto]. }
  pose proof (ltb_false_leb _ _ Hx Hy E1). pose proof (ltb_false_leb _ _ Hy Hx E2).
  destruct (is_zero x && get_sign x).
  - split; [apply leb_refl, Hx|]. split; [assumption|auto].
  - split; [assumption|]. split; [apply leb_refl, Hy|auto].
Qed.

(** A clamped number that is not NaN lies between the bounds. *)
Lemma clamp_range (lo hi x : float) :
  (lo <=? hi)%float = true -> is_nan (clamp lo hi x) = false ->
  (lo <=? clamp lo hi x)%float = true /\ (clamp lo hi x <=? hi)%float = true.
Proof.
  unfold clamp. intros Hlh Hn.
  destruct (Math_min_spec _ _ Hn) as (_ & Hw & Hle & _ & Heq).
  destruct (Math_max_spec _ _ Hw) as (_ & _ & Hlo & _ & _).
  split; [|exact Hle]. destruct Heq as [->| ->]; assumption.
Qed.

Lemma rgba_of_Some r g b a v :
  rgba_of r g b a = Some v ->
  v = mkRGBA r g b a /\ is_nan r = false /\ is_nan g = false /\
  is_nan b = false /\ is_nan a = false.
Proof.
  unfold rgba_of, isNaN.
  destruct (is_nan r), (is_nan g), (is_nan b), (is_nan a); try discriminate.
  intros [= <-]. auto.
Qed.

(** X6. Every colour that [parseRgb] returns has its three channels
    between 0 and 255 and its alpha between 0 and 1; none is NaN. *)
Theorem parseRgb_clamped (str : string) (v : RGBA) :
  parseRgb str = Some v ->
  ((0 <=? rgba_r v) && (rgba_r v <=? 255))%float = true /\
  ((0 <=? rgba_g v) && (rgba_g v <=? 255))%float = true /\
  ((0 <=? rgba_b v) && (rgba_b v <=? 255))%float = true /\
  ((0 <=? rgba_a v) && (rgba_a v <=? 1))%float = true.
Proof.
  unfold parseRgb. destruct (regex_match re_rgb str) as [m|]; [|discriminate].
  intros H. apply rgba_of_Some in H. destruct H as (-> & Nr & Ng & Nb & Na). simpl.
  destruct (clamp_range 0 255 _ eq_refl Nr) as [-> ->].
  destruct (clamp_range 0 255 _ eq_refl Ng) as [-> ->].
  destruct (clamp_range 0 255 _ eq_refl Nb) as [-> ->].
  repeat split. unfold parseAlpha in *. destruct (capture m 4) as [s|]; [|reflexivity].
  destruct (clamp_range 0 1 _ eq_refl Na) as [-> ->]. reflexivity.
Qed.

(** ** Symmetry of the contrast ratio on numbers *)

Lemma sf_key_inj (x y : spec_float) (a : Z * Z * Z) :
  sf_key x = Some a -> sf_key y = Some a ->
  x = y \/ (exists s t, x = S754_zero s /\ y = S754_zero t).
Proof.
  destruct x as [s|[]| |[] m e], y as [t|[]| |[] m' e']; simpl;
    intros [= <-] H; try discriminate H; try (left; reflexivity);
    try (right; eauto; fail); injection H as H1 H2; left; f_equal; lia.
Qed.

Lemma zero_cases (x : float) (s : bool) :
  Prim2SF x = S754_zero s -> x = PrimFloat.zero \/ x = PrimFloat.neg_zero.
Proof.
  intros H. rewrite <- (SF2Prim_Prim2SF x), H. destruct s; [right|left]; reflexivity.
Qed.

Lemma Math_max_comm (x y : float) : Math_max x y = Math_max y x.
Proof.
  unfold Math_max. rewrite (orb_comm (is_nan y)).
  destruct (is_nan x) eqn:Hx; [reflexivity|]. destruct (is_nan y) eqn:Hy; [reflexivity|].
  simpl. destruct (x <? y)%float eqn:E1.
  { rewrite (ltb_asym _ _ E1). reflexivity. }
  destruct (y <? x)%float eqn:E2; [reflexivity|].
  pose proof (ltb_false_leb _ _ Hx Hy E1) as L1. pose proof (ltb_false_leb _ _ Hy Hx E2) as L2.
  apply leb_key in L1, L2.
  destruct L1 as (b & a & Hb & Ha & L1), L2 as (a' & b' & Ha' & Hb' & L2).
  rewrite Ha in Ha'. rewrite Hb in Hb'. injection Ha' as <-. injection Hb' as <-.
  assert (E : a = b).
  { destruct L1 as [L1|L1]; [|congruence]. destruct L2 as [L2|L2]; [|congruence].
    unfold key_lt in *. lia. }
  subst b. destruct (sf_key_inj _ _ _ Ha Hb) as [E|(s & t & Es & Et)].
  - apply Prim2SF_inj in E. subst y. destruct (is_zero x && get_sign x); reflexivity.
  - destruct (zero_cases _ _ Es) as [-> | ->], (zero_cases _ _ Et) as [-> | ->]; reflexivity.
Qed.

Lemma Math_min_comm (x y : float) : Math_min x y = Math_min y x.
Proof.
  unfold Math_min. rewrite (orb_comm (is_nan y)).
  destruct (is_nan x) eqn:Hx; [reflexivity|]. destruct (is_nan y) eqn:Hy; [reflexivity|].
  simpl. destruct (x <? y)%float eqn:E1.
  { rewrite (ltb_asym _ _ E1). reflexivity. }
  destruct (y <? x)%float eqn:E2; [reflexivity|].
  pose proof (ltb_false_leb _ _ Hx Hy E1) as L1. pose proof (ltb_false_leb _ _ Hy Hx E2) as L2.
  apply leb_key in L1, L2.
  destruct L1 as (b & a & Hb & Ha & L1), L2 as (a' & b' & Ha' & Hb' & L2).
  rewrite Ha in Ha'. rewrite Hb in Hb'. injection Ha' as <-. injection Hb' as <-.
  assert (E : a = b).
  { destruct L1 as [L1|L1]; [|congruence]. destruct L2 as [L2|L2]; [|congruence].
    unfold key_lt in *. lia. }
  subst b. destruct (sf_key_inj _ _ _ Ha Hb) as [E|(s & t & Es & Et)].
  - apply Prim2SF_inj in E. subst y. destruct (is_zero x && get_sign x); reflexivity.
  - destruct (zero_cases _ _ Es) as [-> | ->], (zero_cases _ _ Et) as [-> | ->]; reflexivity.
Qed.

(** X7. On binary64 numbers and for every [Math.pow], the contrast ratio
    does not depend on the order of its two arguments; the computed
    luminances may be any numbers, NaN and zeroes of either sign
    included. *)
Theorem getContrastRatio_symmetric (color1 color2 : RGBA) :
  getContrastRatio color1 color2 = getContrastRatio color2 color1.
Proof.
  unfold getContrastRatio.
  rewrite (Math_max_comm (getRelativeLuminance color1)).
  rewrite (Math_min_comm (getRelativeLuminance color1)). reflexivity.
Qed.

(** X8. The WCAG thresholds are ordered: a ratio that meets AAA meets AA
    for the same text size, a ratio that meets a level for normal text
    meets it for large text, and a NaN ratio meets nothing. *)
Theorem wcag_levels_ordered (ratio : float) (largeText : bool) :
  (meetsWcagAAA ratio largeText = true -> meetsWcagAA ratio largeText = true) /\
  (meetsWcagAA ratio false = true -> meetsWcagAA ratio true = true) /\
  (meetsWcagAAA ratio false = true -> meetsWcagAAA ratio true = true) /\
  (is_nan ratio = true ->
   meetsWcagAA ratio largeText = false /\ meetsWcagAAA ratio largeText = false).
Proof.
  unfold meetsWcagAA, meetsWcagAAA. split; [|split; [|split]].
  - destruct largeText; apply leb_trans; reflexivity.
  - apply leb_trans. reflexivity.
  - apply leb_trans. reflexivity.
  - intros Hn. split.
    + destruct (_ <=? ratio)%float eqn:E; [|reflexivity].
      apply leb_not_nan in E. destruct E as [_ E]. congruence.
    + destruct (_ <=? ratio)%float eqn:E; [|reflexivity].
      apply leb_not_nan in E. destruct E as [_ E]. congruence.
Qed.

(** ** Naming: the dataset, the cache and the batch *)

Lemma mapR_first_throw {A B} (f : A -> Result B) (pre : list A) (x : A) (post : list A)
    (e : string) :
  (forall y, In y pre -> exists z, f y = Ok z) -> f x = Throw e ->
  mapR f (pre ++ x :: post) = Throw e.
Proof.
  intros Hpre Hx. induction pre as [|y pre IH]; simpl.
  - rewrite Hx. reflexivity.
  - destruct (Hpre y (or_introl eq_refl)) as [z ->].
    rewrite IH; [reflexivity|]. intros y' Hy'. apply Hpre. right. assumption.
Qed.

(** X9. When an entry of the dataset does not parse, naming under 'auto'
    throws the error of the first such entry and leaves the cache
    unset, and a batch throws with it; 'none' still answers. *)
Theorem nameColor_invalid_dataset pre hex name post color pn colors :
  COLOR_NAMES = pre ++ (hex, name) :: post ->
  (forall h n, In (h, n) pre -> parseColor h <> None) ->
  parseColor hex = None ->
  nameColor color Auto pn None = (Throw ("Invalid color format: " ++ hex)%string, None) /\
  nameColors (color :: colors) Auto pn None
    = (Throw ("Invalid color format: " ++ hex)%string, None) /\
  nameColor color NoNames pn None = (Ok "", None).
Proof.
  intros HC Hpre Hhex.
  assert (Hb : buildColorCache = Throw ("Invalid color format: " ++ hex)%string).
  { unfold buildColorCache. rewrite HC. apply mapR_first_throw.
    - intros [h n] Hin. unfold normalizeColor.
      destruct (parseColor h) eqn:E; [eauto|]. exfalso. apply (Hpre h n Hin E).
    - unfold normalizeColor. rewrite Hhex. reflexivity. }
  assert (Ha : nameColor color Auto pn None
               = (Throw ("Invalid color format: " ++ hex)%string, None)).
  { simpl. unfold autoName, findNearestColor, bind, getColorCache. rewrite Hb. reflexivity. }
  split; [exact Ha|]. split; [|reflexivity].
  change (autoName color None = (Throw ("Invalid color format: " ++ hex)%string, None)) in Ha.
  unfold nameColors. simpl mapM. unfold bind. rewrite Ha. reflexivity.
Qed.

Lemma getColorCache_built cache :
  buildColorCache = Ok cache ->
  getColorCache None = (Ok cache, Some cache) /\
  getColorCache (Some cache) = (Ok cache, Some cache).
Proof. intros H. unfold getColorCache. rewrite H. split; reflexivity. Qed.

(** X10. With a dataset that parses, [nameColor] never throws; the name
    does not depend on whether the cache was built before; and a call
    leaves the cache unset or set to the one cache built from the
    dataset, which later calls keep. *)
Theorem nameColor_cache_independent cache color strategy pn :
  buildColorCache = Ok cache ->
  exists name st',
    nameColor color strategy pn None = (Ok name, st') /\
    (st' = None \/ st' = Some cache) /\
    nameColor color strategy pn (Some cache) = (Ok name, Some cache).
Proof.
  intros Hb. destruct (getColorCache_built cache Hb) as [H0 H1].
  assert (Hauto : exists name,
            autoName color None = (Ok name, Some cache) /\
            autoName color (Some cache) = (Ok name, Some cache)).
  { eexists. rewrite (autoName_run _ _ _ _ H0), (autoName_run _ _ _ _ H1).
    split; reflexivity. }
  destruct Hauto as (name & Ha0 & Ha1).
  destruct strategy; simpl.
  - exists name, (Some cache). auto.
  - exists "", None. auto.
  - destruct pn as [names|]; [|exists name, (Some cache); auto].
    destruct (providedName color names) as [n|].
    + exists n, None. auto.
    + exists name, (Some cache). auto.
Qed.

Lemma lists_eq_lookup {A} (l1 l2 : list A) :
  length l1 = length l2 ->
  (forall i x, l1 !! i = Some x -> l2 !! i = Some x) -> l2 = l1.
Proof.
  intros Hlen H. apply list_eq. intros i.
  destruct (l1 !! i) as [x|] eqn:E; [apply H, E|].
  apply lookup_ge_None. apply lookup_ge_None in E. lia.
Qed.

Lemma uniqueNames_spec names :
  length (uniqueNames names) = length names /\
  forall (i : nat) (base : string), names !! i = Some base ->
    uniqueNames names !! i = Some (suffixed base (occurrences base (take (S i) names))).
Proof. destruct (suffixStep_invariant names) as (_ & H1 & H2). split; assumption. Qed.

(** X11. Under 'none' a batch is a list of empty names, one for each
    colour, and the cache is not touched. *)
Theorem nameColors_none colors pn st :
  nameColors colors NoNames pn st = (Ok (repeat "" (length colors)), st).
Proof.
  assert (Hm : mapM (fun c => nameColor c NoNames pn) colors st
               = (Ok (repeat "" (length colors)), st)).
  { change (mapM (fun _ : NormalizedColor => @ret string "") colors st
            = (Ok (repeat "" (length colors)), st)).
    induction colors as [|c cs IH]; [reflexivity|].
    cbn [mapM length repeat]. unfold bind at 1. unfold ret at 1. unfold bind at 1.
    rewrite IH. reflexivity. }
  unfold nameColors, bind, ret. rewrite Hm. f_equal. f_equal.
  destruct (uniqueNames_spec (repeat "" (length colors))) as [Hlen Hres].
  apply lists_eq_lookup; [symmetry; exact Hlen|].
  intros i x Hi. rewrite (Hres i x Hi).
  apply list_elem_of_lookup_2, list_elem_of_In, repeat_spec in Hi. subst x. reflexivity.
Qed.

Lemma occurrences_take_le base (names : list string) (k : nat) :
  (occurrences base (take k names) <= occurrences base names)%nat.
Proof.
  rewrite <- (take_drop k names) at 2. rewrite occurrences_app. lia.
Qed.

Lemma occurrences_take_S base (names : list string) (i : nat) :
  names !! i = Some base ->
  occurrences base (take (S i) names) = S (occurrences base (take i names)).
Proof.
  intros H. rewrite (take_S_r _ _ _ H), occurrences_app. simpl.
  rewrite String.eqb_refl. lia.
Qed.

Lemma occurrences_take_mono base (names : list string) (i j : nat) :
  (i <= j)%nat ->
  (occurrences base (take i names) <= occurrences base (take j names))%nat.
Proof.
  intros H. replace (take i names) with (take i (take j names)).
  - apply occurrences_take_le.
  - rewrite take_take. f_equal. lia.
Qed.

Lemma append_inj_l (s t u : string) : (s ++ t = s ++ u)%string -> t = u.
Proof.
  induction s as [|c s IH]; [auto|].
  change (String c (s ++ t)%string = String c (s ++ u)%string -> t = u).
  intros [= H]. auto.
Qed.

Lemma append_not_self (s : string) (c : ascii) (t : string) :
  s <> (s ++ String c t)%string.
Proof.
  intros H. assert (E : ("" = String c t)%string).
  { apply (append_inj_l s). rewrite <- H. clear.
    induction s as [|a s IH]; [reflexivity|].
    change (String a (s ++ "")%string = String a s). rewrite IH. reflexivity. }
  discriminate E.
Qed.

Lemma suffixed_inj base (k k' : nat) :
  base <> "" -> suffixed base k = suffixed base k' -> k = k'.
Proof.
  intros Hb. unfold suffixed. destruct base as [|c b]; [contradiction|].
  destruct (Nat.eqb_spec k 1) as [->|Hk], (Nat.eqb_spec k' 1) as [->|Hk'].
  - reflexivity.
  - intros H. exfalso. exact (append_not_self _ _ _ H).
  - intros H. exfalso. symmetry in H. exact (append_not_self _ _ _ H).
  - intros H. apply append_inj_l in H. injection H as H.
    exact (inj (@pretty nat _) _ _ H).
Qed.

(** X12. Two colours of one batch with the same non-empty base name
    never get the same name. *)
Theorem nameColors_same_base_distinct (names : list string) (i j : nat) (base : string) :
  i <> j -> base <> "" ->
  names !! i = Some base -> names !! j = Some base ->
  uniqueNames names !! i <> uniqueNames names !! j.
Proof.
  intros Hij Hb Hi Hj. destruct (uniqueNames_spec names) as [_ Hres].
  rewrite (Hres _ _ Hi), (Hres _ _ Hj). intros [= H]. apply suffixed_inj in H; [|exact Hb].
  rewrite (occurrences_take_S _ _ _ Hi), (occurrences_take_S _ _ _ Hj) in H.
  destruct (Nat.lt_total i j) as [Hlt|[->|Hgt]]; [|contradiction|].
  - pose proof (occurrences_take_mono base names (S i) j ltac:(lia)) as Hm.
    rewrite (occurrences_take_S _ _ _ Hi) in Hm. lia.
  - pose proof (occurrences_take_mono base names (S j) i ltac:(lia)) as Hm.
    rewrite (occurrences_take_S _ _ _ Hj) in Hm. lia.
Qed.

(** X13. A list in which no non-empty name occurs twice is emitted
    unchanged: no suffix is added without a duplicate. *)
Theorem uniqueNames_without_duplicates (names : list string) :
  (forall base, base <> "" -> (occurrences base names <= 1)%nat) ->
  uniqueNames names = names.
Proof.
  intros H. destruct (uniqueNames_spec names) as [Hlen Hres].
  apply lists_eq_lookup; [symmetry; exact Hlen|].
  intros i base Hi. rewrite (Hres _ _ Hi). f_equal. unfold suffixed.
  destruct base as [|c b]; [reflexivity|].
  pose proof (occurrences_take_le (String c b) names (S i)) as Hle.
  rewrite (occurrences_take_S _ _ _ Hi) in *.
  specialize (H (String c b) ltac:(discriminate)).
  replace (occurrences (String c b) (take i names)) with 0%nat by lia. reflexivity.
Qed.

(** ** Round trip through the hex string *)

(** X14. [parseHex] reads back what [rgbaToHex] writes: for integer
    channels in [0,255] and an alpha that is 1 or a byte below 255
    divided by 255, parsing the hex string gives the colour itself. *)
Theorem parseHex_rgbaToHex (v : RGBA) :
  byte_channels v ->
  (rgba_a v = 1%float \/ exists k, 0 <= k <= 254 /\ rgba_a v = (Z2float k / 255)%float) ->
  parseHex (rgbaToHex v) = Some v.
Proof.
  destruct v as [r g b a]. unfold byte_channels. simpl. intros (Hr & Hg & Hb) Ha.
  destruct (toHex_byte r Hr) as (c1 & c2 & Er & _ & Nr & Pr & _).
  destruct (toHex_byte g Hg) as (c3 & c4 & Eg & _ & Ng & Pg & _).
  destruct (toHex_byte b Hb) as (c5 & c6 & Eb & _ & Nb & Pb & _).
  unfold rgbaToHex. simpl rgba_r. simpl rgba_g. simpl rgba_b. simpl rgba_a.
  rewrite Er, Eg, Eb. destruct Ha as [->|(k & Hk & ->)].
  - change (1 <? 1)%float with false. cbv beta iota delta [String.append].
    unfold parseHex. cbn [String.length slice substring Nat.sub].
    rewrite Pr, Pg, Pb. unfold rgba_of, isNaN. rewrite Nr, Ng, Nb. reflexivity.
  - destruct (alpha_byte k Hk) as (Nk & Lk & Rk). rewrite Lk.
    assert (Hkb : is_byte (Z2float k)) by (exists k; split; [lia|reflexivity]).
    destruct (toHex_byte _ Hkb) as (c7 & c8 & Ek & _ & _ & Pk & Rk').
    assert (Eh : toHex (Z2float k / 255 * 255) = String c7 (String c8 EmptyString)).
    { rewrite <- Ek. apply toHex_round. rewrite Rk, Rk'. reflexivity. }
    rewrite Eh. cbv beta iota delta [String.append].
    unfold parseHex. cbn [String.length slice substring Nat.sub].
    rewrite Pr, Pg, Pb, Pk. unfold rgba_of, isNaN. rewrite Nr, Ng, Nb, Nk. reflexivity.
Qed.

(** ** Gray *)

Lemma Math_max_same (y : float) : is_nan y = false -> Math_max y y = y.
Proof.
  intros H. unfold Math_max. rewrite H, ltb_irrefl. simpl.
  destruct (is_zero y && get_sign y); reflexivity.
Qed.

Lemma Math_min_same (y : float) : is_nan y = false -> Math_min y y = y.
Proof.
  intros H. unfold Math_min. rewrite H, ltb_irrefl. simpl.
  destruct (is_zero y && get_sign y); reflexivity.
Qed.

(** X15. A colour whose three channels are one number is gray: hue 0
    and saturation 0, whatever the channel (not NaN) and the alpha. *)
Theorem rgbaToHsla_gray (x a : float) :
  is_nan (x / 255) = false ->
  let hsla := rgbaToHsla (mkRGBA x x x a) in
  hsla_h hsla = 0%float /\ hsla_s hsla = 0%float /\ hsla_a hsla = a.
Proof.
  intros H. unfold rgbaToHsla, Math_max3, Math_min3. simpl rgba_r. simpl rgba_g.
  simpl rgba_b. rewrite !Math_max_same, !Math_min_same by exact H.
  assert (E : (x / 255 =? x / 255)%float = true).
  { unfold is_nan in H. apply negb_false_iff in H. exact H. }
  rewrite E. simpl. repeat split.
Qed.

(** ** The distance *)

Lemma binary_round_square (s : bool) (m : positive) (e : Z) :
  SF64mul (binary_round prec emax s m e) (binary_round prec emax s m e) =
  SF64mul (binary_round prec emax false m e) (binary_round prec emax false m e).
Proof.
  unfold binary_round, binary_round_aux.
  destruct (shl_align _ _ _) as [mz ez].
  destruct (shr_fexp _ _ _ _ _) as [mrs e'].
  destruct (shr_fexp _ _ _ _ _) as [mrs' e''].
  destruct (shr_m mrs'); [destruct s; reflexivity| |reflexivity].
  destruct (e'' <=? emax - prec); destruct s; reflexivity.
Qed.

Lemma binary_normalize_opp_square (z e : Z) :
  SF64mul (binary_normalize prec emax (- z) e false) (binary_normalize prec emax (- z) e false) =
  SF64mul (binary_normalize prec emax z e false) (binary_normalize prec emax z e false).
Proof.
  destruct z as [|p|p]; simpl; [reflexivity| |].
  - apply binary_round_square.
  - symmetry. apply binary_round_square.
Qed.

Lemma SFsub_swap_square (X Y : spec_float) :
  SF64mul (SF64sub X Y) (SF64sub X Y) = SF64mul (SF64sub Y X) (SF64sub Y X).
Proof.
  destruct X as [[]|[]| |sx mx ex], Y as [[]|[]| |sy my ey]; try reflexivity;
    try (destruct sx; reflexivity); try (destruct sy; reflexivity).
  unfold SF64sub, SFsub. rewrite (Z.min_comm ey ex).
  set (A := cond_Zopp sx _). set (B := cond_Zopp sy _).
  replace (B - A) with (- (A - B)) by lia. symmetry. apply binary_normalize_opp_square.
Qed.

Lemma sub_square_swap (x y : float) : ((x - y) * (x - y) = (y - x) * (y - x))%float.
Proof.
  apply Prim2SF_inj. rewrite !mul_spec, !sub_spec. apply SFsub_swap_square.
Qed.

(** X16. The distance does not depend on the order of its arguments,
    for all numbers, in binary64 arithmetic. *)
Theorem colorDistance_symmetric (a b : OKLab) : colorDistance a b = colorDistance b a.
Proof.
  unfold colorDistance.
  rewrite (sub_square_swap (lab_L a)), (sub_square_swap (lab_a a)),
    (sub_square_swap (lab_b a)). reflexivity.
Qed.

Lemma SFsub_self (X : spec_float) :
  SF64sub X X = S754_zero false \/ SF64sub X X = S754_nan.
Proof.
  destruct X as [[]|[]| |s m e]; simpl; auto.
  left. unfold SF64sub, SFsub. rewrite Z.sub_diag. reflexivity.
Qed.

Lemma sub_self (x : float) : (x - x)%float = 0%float \/ (x - x)%float = PrimFloat.nan.
Proof.
  destruct (SFsub_self (Prim2SF x)) as [H|H]; [left|right];
    apply Prim2SF_inj; rewrite sub_spec, H; reflexivity.
Qed.

Lemma SFsub_self_finite (X : spec_float) :
  SFeqb (SFabs X) (S754_infinity false) = false -> X <> S754_nan ->
  SF64sub X X = S754_zero false.
Proof.
  destruct X as [[]|[]| |s m e]; simpl; intros H1 H2; try discriminate H1;
    try reflexivity; try contradiction.
  unfold SF64sub, SFsub. rewrite Z.sub_diag. reflexivity.
Qed.

Lemma sub_self_finite (x : float) : is_finite x = true -> (x - x)%float = 0%float.
Proof.
  unfold is_finite, is_infinity. intros H. apply negb_true_iff, orb_false_iff in H.
  destruct H as [Hn Hi]. apply Prim2SF_inj. rewrite sub_spec.
  rewrite FloatAxioms.eqb_spec, abs_spec in Hi.
  rewrite SFsub_self_finite; [reflexivity|exact Hi|].
  intros E. apply is_nan_key in Hn. destruct Hn as [k Hk].
  unfold float_key in Hk. rewrite E in Hk. discriminate Hk.
Qed.

(** X17. The distance of a colour to itself is 0 when its three
    components are finite; in every case it is 0 or NaN, never a
    positive number. *)
Theorem colorDistance_self (a : OKLab) :
  (colorDistance a a = 0%float \/ colorDistance a a = PrimFloat.nan) /\
  (is_finite (lab_L a) = true -> is_finite (lab_a a) = true ->
   is_finite (lab_b a) = true -> colorDistance a a = 0%float).
Proof.
  unfold colorDistance. split.
  - destruct (sub_self (lab_L a)) as [-> | ->], (sub_self (lab_a a)) as [-> | ->],
      (sub_self (lab_b a)) as [-> | ->]; vm_compute; auto.
  - intros H1 H2 H3. rewrite !sub_self_finite by assumption. reflexivity.
Qed.

(** ** Fallback names *)

Lemma join_space_snoc (parts : list string) (last : string) :
  ends_with (join_space (parts ++ [last])) last.
Proof.
  induction parts as [|p rest IH]; simpl.
  - exists "". reflexivity.
  - destruct IH as [q Hq]. destruct (rest ++ [last]) eqn:E.
    + destruct rest; discriminate.
    + rewrite Hq. exists (p ++ " " ++ q)%string.
      clear. induction p as [|c p IH]; [reflexivity|].
      change (String c (p ++ " " ++ q ++ last)%string
              = String c ((p ++ " " ++ q) ++ last)%string).
      rewrite IH. reflexivity.
Qed.

(** X18. A fallback name for a chroma below 0.02 is "Black", "White",
    "Gray" or a lightness modifier followed by " Gray", and names no hue;
    any other fallback name ends with the hue family of the colour. *)
Theorem generateFallbackName_shape (color : NormalizedColor) :
  let name := generateFallbackName color in
  ((lch_C (nc_oklch color) <? 0.02)%float = true ->
   name = "Black" \/ name = "White" \/ name = "Gray" \/
   (getLightnessModifier (lch_L (nc_oklch color)) <> "" /\
    name = (getLightnessModifier (lch_L (nc_oklch color)) ++ " Gray")%string)) /\
  ((lch_C (nc_oklch color) <? 0.02)%float = false ->
   ends_with name (getHueFamily (lch_h (nc_oklch color)))).
Proof.
  unfold generateFallbackName. cbv zeta. split; intros ->.
  - destruct (lch_L (nc_oklch color) <? 0.15)%float; [auto|].
    destruct (0.95 <? lch_L (nc_oklch color))%float; [auto|].
    destruct (getLightnessModifier _) eqn:E; simpl; [auto|].
    right. right. right. split; [discriminate|reflexivity].
  - apply join_space_snoc.
Qed.

(** ** Exact matches *)

Lemma SFsqrt_not_negative (X : spec_float) : SFltb (SF64sqrt X) (S754_zero false) = false.
Proof.
  destruct X as [[]|[]| |[] m e]; try reflexivity.
  unfold SF64sqrt, SFsqrt. destruct (SFsqrt_core_binary _ _ _ _) as [[mz ez] lz].
  unfold binary_round_aux.
  destruct (shr_fexp _ _ _ _ _) as [mrs e'].
  destruct (shr_fexp _ _ _ _ _) as [mrs' e''].
  destruct (shr_m mrs'); try reflexivity.
  destruct (e'' <=? emax - prec); reflexivity.
Qed.

(** X20. The distance is never negative: it is not below zero for any
    two colours, NaN included. *)
Theorem colorDistance_not_negative (a b : OKLab) : (colorDistance a b <? 0)%float = false.
Proof.
  unfold colorDistance, Math_sqrt. rewrite ltb_spec, sqrt_spec.
  apply SFsqrt_not_negative.
Qed.

Lemma dist_not_negative color e : (dist color e <? 0)%float = false.
Proof.
  unfold dist, colorDistance, Math_sqrt. rewrite ltb_spec, sqrt_spec.
  apply SFsqrt_not_negative.
Qed.

Lemma ltb_not_nan (x y : float) :
  (x <? y)%float = true -> is_nan x = false /\ is_nan y = false.
Proof. intros H. apply leb_not_nan, ltb_leb, H. Qed.

Lemma scanNearest_not_nan color cache :
  is_nan (nearest_distance (scanNearest color cache)) = false.
Proof.
  induction cache as [|x l IH] using rev_ind; [reflexivity|].
  rewrite scanNearest_snoc. unfold nearer.
  destruct (_ <? _)%float eqn:E; [|exact IH]. simpl. apply ltb_not_nan in E. apply E.
Qed.

(** X21. A colour at distance zero from a dataset entry is named after
    the dataset: 'auto' returns the name of the first entry of the cache
    at distance zero. *)
Theorem nameColor_exact_match color pn st cache st' (i : nat) (e : ColorEntry) :
  getColorCache st = (Ok cache, st') ->
  cache !! i = Some e -> (dist color e <=? 0)%float = true ->
  exists (j : nat) (e' : ColorEntry),
    (j <= i)%nat /\ cache !! j = Some e' /\
    (dist color e' <=? 0)%float = true /\
    (forall (k : nat) (e'' : ColorEntry), (k < j)%nat -> cache !! k = Some e'' ->
       (dist color e'' <=? 0)%float = false) /\
    nameColor color Auto pn st = (Ok (ce_name e'), st').
Proof.
  intros Hc Hi Hz.
  pose proof (scanNearest_not_nan color cache) as Hnn.
  assert (Hinf : (dist color e <? PrimFloat.infinity)%float = true).
  { apply (leb_ltb_trans _ 0); [exact Hz|reflexivity]. }
  destruct (scanNearest_selected color cache) as [[_ Hall]|(j & e' & Hj & Hn & Hall & Hbefore)].
  { rewrite (Hall _ _ Hi) in Hinf. discriminate. }
  rewrite Hn in Hnn. simpl in Hnn.
  destruct (leb_not_nan _ _ Hz) as [Hen _].
  assert (Hle : (dist color e' <=? 0)%float = true).
  { apply (leb_trans _ (dist color e)); [|exact Hz].
    apply ltb_false_leb; [exact Hen|exact Hnn|]. eapply Hall, Hi. }
  assert (Hge : (0 <=? dist color e')%float = true).
  { apply ltb_false_leb; [exact Hnn|reflexivity|apply dist_not_negative]. }
  exists j, e'. split; [|split; [exact Hj|split; [exact Hle|split]]].
  - destruct (Nat.le_gt_cases j i) as [|Hlt]; [assumption|].
    pose proof (Hbefore _ _ Hlt Hi) as Hcontra.
    rewrite (leb_trans _ _ _ Hz Hge) in Hcontra. discriminate.
  - intros k e'' Hk Hk'. destruct (dist color e'' <=? 0)%float eqn:E; [|reflexivity].
    rewrite <- (Hbefore _ _ Hk Hk'). symmetry. apply (leb_trans _ 0); assumption.
  - simpl. rewrite (autoName_run _ _ _ _ Hc), Hn. simpl.
    assert (Hlt : (dist color e' <? MATCH_THRESHOLD)%float = true).
    { apply (leb_ltb_trans _ 0); [exact Hle|reflexivity]. }
    rewrite Hlt. reflexivity.
Qed.

(** ** The cache mirrors the dataset *)

Lemma mapR_entries (names : list (string * string)) (cache : list ColorEntry) :
  mapR (fun '(hex, name) =>
          match normalizeColor hex with
          | Ok color => Ok (mkColorEntry hex name color)
          | Throw e => Throw e
          end) names = Ok cache ->
  map (fun e => (ce_hex e, ce_name e)) cache = names /\
  forall e, In e cache -> normalizeColor (ce_hex e) = Ok (ce_color e).
Proof.
  revert cache. induction names as [|[hex name] rest IH]; intros cache; simpl.
  - intros [= <-]. split; [reflexivity|]. intros e [].
  - destruct (normalizeColor hex) as [color|msg] eqn:E; [|discriminate].
    destruct (mapR _ rest) as [cs|msg]; [|discriminate]. intros [= <-].
    destruct (IH cs eq_refl) as [Hm Hn]. simpl. rewrite Hm. split; [reflexivity|].
    intros e [<-|Hin]; [exact E|apply Hn, Hin].
Qed.

(** X22. When the cache is built it has one entry for each pair of the
    dataset, in the order of the dataset, with the pair's hex and name
    and the normalised colour of the hex. *)
Theorem getColorCache_mirrors_dataset cache st' :
  getColorCache None = (Ok cache, st') ->
  st' = Some cache /\
  map (fun e => (ce_hex e, ce_name e)) cache = COLOR_NAMES /\
  forall e, In e cache -> normalizeColor (ce_hex e) = Ok (ce_color e).
Proof.
  unfold getColorCache. destruct buildColorCache as [c|msg] eqn:E; [|discriminate].
  intros [= <- <-]. split; [reflexivity|]. apply mapR_entries, E.
Qed.

(** ** Out of gamut *)

Lemma leb_antisym (x y : float) :
  (x <=? y)%float = true -> (y <=? x)%float = true ->
  float_key y <> Some (0, 0, 0) -> x = y.
Proof.
  intros H1 H2 Hz. apply leb_key in H1, H2.
  destruct H1 as (a & b & Ha & Hb & H1), H2 as (b' & a' & Hb' & Ha' & H2).
  rewrite Ha in Ha'. rewrite Hb in Hb'. injection Ha' as <-. injection Hb' as <-.
  assert (E : a = b).
  { destruct H1 as [H1|H1]; [|exact H1]. destruct H2 as [H2|H2]; [|symmetry; exact H2].
    destruct a as [[a1 a2] a3], b as [[b1 b2] b3]. unfold key_lt in H1, H2.
    simpl in H1, H2. lia. }
  subst b. unfold float_key in *.
  destruct (sf_key_inj _ _ _ Ha Hb) as [E|(s & t & _ & E)].
  - rewrite <- (SF2Prim_Prim2SF x), <- (SF2Prim_Prim2SF y), E. reflexivity.
  - rewrite E in Hz. exfalso. apply Hz. reflexivity.
Qed.

(** X23. [linearToSrgb] sends every number that is not above zero to the
    channel 0, whatever [Math.pow] is; and every number that is not
    below one to 255, where [Math.pow(1, 1/2.4)] is 1. *)
Theorem linearToSrgb_out_of_gamut (c : float) :
  ((c <=? 0)%float = true -> linearToSrgb c = 0%float) /\
  ((1 <=? c)%float = true -> Math_pow 1 (1 / 2.4) = 1%float ->
   linearToSrgb c = 255%float).
Proof.
  unfold linearToSrgb. split.
  - intros H. destruct (leb_not_nan _ _ H) as [Hn _].
    assert (H1 : (c <? 1)%float = true) by (apply (leb_ltb_trans _ 0); [exact H|reflexivity]).
    assert (Emin : Math_min 1 c = c).
    { unfold Math_min. rewrite Hn, (ltb_asym _ _ H1), H1. reflexivity. }
    rewrite Emin.
    assert (H0 : (0 <? c)%float = false).
    { destruct (0 <? c)%float eqn:E; [|reflexivity].
      rewrite <- (ltb_irrefl c). symmetry. apply (leb_ltb_trans _ 0); assumption. }
    assert (Emax : Math_max 0 c = 0%float).
    { unfold Math_max. rewrite Hn, H0. simpl. destruct (c <? 0)%float; reflexivity. }
    rewrite Emax. reflexivity.
  - intros H Hpow. destruct (leb_not_nan _ _ H) as [_ Hn].
    assert (H1 : (c <? 1)%float = false).
    { destruct (c <? 1)%float eqn:E; [|reflexivity].
      rewrite <- (ltb_irrefl 1). symmetry. apply (leb_ltb_trans _ c); assumption. }
    assert (Emin : Math_min 1 c = 1%float).
    { unfold Math_min. rewrite Hn, H1. simpl.
      destruct (1 <? c)%float eqn:E; [reflexivity|].
      apply leb_antisym; [|exact H|discriminate].
      apply ltb_false_leb; [reflexivity|exact Hn|exact E]. }
    rewrite Emin. change (Math_max 0 1) with 1%float.
    change (1 <=? 0.0031308)%float with false. cbv iota. rewrite Hpow. reflexivity.
Qed.

End Engine.

Local Open Scope list_scope.

(** ** The regular-expression matcher is sound *)

Lemma star_loop_sound body r :
  (forall s caps k res, body s caps k = Some res ->
     exists s1 s2 caps', s = s1 ++ s2 /\ matches r s1 /\ k s2 caps' = Some res) ->
  forall k n s caps res, star_loop body k n s caps = Some res ->
    exists s1 s2 caps', s = s1 ++ s2 /\ matches (Star r) s1 /\ k s2 caps' = Some res.
Proof.
  intros Hbody k n. induction n as [|n IH]; intros s caps res H; simpl in H.
  - exists [], s, caps. split; [reflexivity|]. split; [constructor|assumption].
  - destruct (body s caps _) as [res'|] eqn:E.
    + injection H as ->. apply Hbody in E.
      destruct E as (s1 & s2 & caps' & -> & Hm & Hk).
      destruct (length s2 <? length (s1 ++ s2))%nat; [|discriminate].
      apply IH in Hk. destruct Hk as (s3 & s4 & caps'' & -> & Hm' & Hk).
      exists (s1 ++ s3), s4, caps''. split; [apply app_assoc|].
      split; [constructor; assumption|assumption].
    + exists [], s, caps. split; [reflexivity|]. split; [constructor|assumption].
Qed.

Lemma rmatch_sound r :
  forall s caps k res, rmatch r s caps k = Some res ->
    exists s1 s2 caps', s = s1 ++ s2 /\ matches r s1 /\ k s2 caps' = Some res.
Proof.
  induction r as [|p|r1 IH1 r2 IH2|r1 IH1 r2 IH2|r1 IH1|i r1 IH1];
    intros s caps k res H; simpl in H.
  - exists [], s, caps. split; [reflexivity|]. split; [constructor|assumption].
  - destruct s as [|c s']; [discriminate|]. destruct (p c) eqn:E; [|discriminate].
    exists [c], s', caps. split; [reflexivity|]. split; [constructor|]; assumption.
  - apply IH1 in H. destruct H as (s1 & s2 & caps' & -> & Hm1 & H).
    apply IH2 in H. destruct H as (s3 & s4 & caps'' & -> & Hm2 & H).
    exists (s1 ++ s3), s4, caps''. split; [apply app_assoc|].
    split; [constructor; assumption|assumption].
  - destruct (rmatch r1 s caps k) as [res'|] eqn:E.
    + injection H as ->. apply IH1 in E. destruct E as (s1 & s2 & caps' & -> & Hm & Hk).
      exists s1, s2, caps'. split; [reflexivity|]. split; [apply matches_alt_l|]; assumption.
    + apply IH2 in H. destruct H as (s1 & s2 & caps' & -> & Hm & Hk).
      exists s1, s2, caps'. split; [reflexivity|]. split; [apply matches_alt_r|]; assumption.
  - eapply star_loop_sound; eassumption.
  - apply IH1 in H. destruct H as (s1 & s2 & caps' & -> & Hm & Hk).
    eexists s1, s2, _. split; [reflexivity|]. split; [constructor; assumption|eassumption].
Qed.

Lemma regex_match_sound r str caps :
  regex_match r str = Some caps -> matches r (chars str).
Proof.
  unfold regex_match. intros H. apply rmatch_sound in H.
  destruct H as (s1 & s2 & caps' & Hs & Hm & Hk).
  destruct s2; [|discriminate]. rewrite app_nil_r in Hs. rewrite Hs. assumption.
Qed.

Lemma inv_eps s : matches Eps s -> s = [].
Proof. intros H. inversion H. reflexivity. Qed.

Lemma inv_chr p s : matches (Chr p) s -> exists c, s = [c] /\ p c = true.
Proof. intros H. inversion H; subst. eauto. Qed.

Lemma inv_seq r1 r2 s :
  matches (Seq r1 r2) s -> exists s1 s2, s = s1 ++ s2 /\ matches r1 s1 /\ matches r2 s2.
Proof. intros H. inversion H; subst. eauto. Qed.

Lemma inv_alt r1 r2 s : matches (Alt r1 r2) s -> matches r1 s \/ matches r2 s.
Proof. intros H. inversion H; subst; auto. Qed.

Lemma inv_group i r s : matches (Group i r) s -> matches r s.
Proof. intros H. inversion H; subst. assumption. Qed.

Lemma inv_opt r s : matches (Opt r) s -> s = [] \/ matches r s.
Proof.
  intros H. apply inv_alt in H. destruct H as [H|H]; [right; assumption|].
  left. apply inv_eps, H.
Qed.

Lemma inv_star_class p s : matches (Star (Chr p)) s -> forallb p s = true.
Proof.
  remember (Star (Chr p)) as r eqn:E. intros H.
  induction H as [| | | | | |r' s1 s2 H1 _ H2 IH|]; try discriminate; [reflexivity|].
  injection E as ->. apply inv_chr in H1. destruct H1 as (c & -> & Hc).
  simpl. rewrite Hc. apply IH. reflexivity.
Qed.

Lemma inv_plus_class p s : matches (Plus (Chr p)) s -> s <> [] /\ forallb p s = true.
Proof.
  intros H. apply inv_seq in H. destruct H as (s1 & s2 & -> & H1 & H2).
  apply inv_chr in H1. destruct H1 as (c & -> & Hc). apply inv_star_class in H2.
  simpl. rewrite Hc, H2. split; [discriminate|reflexivity].
Qed.

Lemma matches_rep13_digit s :
  matches (Rep13 re_digit) s -> all_digits s /\ (1 <= length s <= 3)%nat.
Proof.
  unfold all_digits. intros H. apply inv_seq in H. destruct H as (s1 & s2 & -> & H1 & H2).
  apply inv_chr in H1. destruct H1 as (c1 & -> & Hc1). simpl. rewrite Hc1.
  apply inv_opt in H2. destruct H2 as [->|H2]; [simpl; split; [reflexivity|lia]|].
  apply inv_seq in H2. destruct H2 as (s3 & s4 & -> & H3 & H4).
  apply inv_chr in H3. destruct H3 as (c2 & -> & Hc2). simpl. rewrite Hc2.
  apply inv_opt in H4. destruct H4 as [->|H4]; [simpl; split; [reflexivity|lia]|].
  apply inv_chr in H4. destruct H4 as (c3 & -> & Hc3). simpl. rewrite Hc3.
  split; [reflexivity|lia].
Qed.

Lemma matches_number s : matches re_number s -> number_shape s.
Proof.
  intros H. apply inv_seq in H. destruct H as (ip & fp & -> & H1 & H2).
  apply matches_rep13_digit in H1. destruct H1 as [Hd Hl].
  exists ip, fp. split; [reflexivity|]. split; [assumption|]. split; [assumption|].
  apply inv_opt in H2. destruct H2 as [->|H2]; [left; reflexivity|].
  right. apply inv_seq in H2. destruct H2 as (d & ds & -> & H3 & H4).
  apply inv_chr in H3. destruct H3 as (c & -> & Hc). apply Ascii.eqb_eq in Hc. subst c.
  apply inv_plus_class in H4. destruct H4 as [Hne Hds]. exists ds. auto.
Qed.

Lemma matches_component s : matches re_component s -> component_shape s.
Proof.
  intros H. apply inv_seq in H. destruct H as (n & pct & -> & H1 & H2).
  apply matches_number in H1. exists n, pct. split; [reflexivity|]. split; [assumption|].
  apply inv_opt in H2. destruct H2 as [->|H2]; [left; reflexivity|].
  right. apply inv_chr in H2. destruct H2 as (c & -> & Hc).
  apply Ascii.eqb_eq in Hc. subst c. reflexivity.
Qed.

Lemma matches_separator s : matches re_separator s -> separator_shape s.
Proof.
  intros H. apply inv_seq in H. destruct H as (w1 & t & -> & H1 & H2).
  apply inv_seq in H2. destruct H2 as (cs & w2 & -> & H2 & H3).
  apply inv_chr in H2. destruct H2 as (c & -> & Hc).
  apply inv_star_class in H1, H3.
  exists w1, c, w2. split; [reflexivity|]. split; [assumption|]. split; [|assumption].
  apply orb_true_iff in Hc. destruct Hc as [Hc|Hc]; [|right; assumption].
  left. apply Ascii.eqb_eq in Hc. assumption.
Qed.

Lemma matches_Lit t s : matches (Lit t) s -> map lower_char s = map lower_char (chars t).
Proof.
  revert s. induction t as [|c t IH]; intros s H; simpl in H.
  - apply inv_eps in H. subst. reflexivity.
  - apply inv_seq in H. destruct H as (s1 & s2 & -> & H1 & H2).
    apply inv_chr in H1. destruct H1 as (d & -> & Hd). apply Ascii.eqb_eq in Hd.
    simpl. rewrite Hd. f_equal. apply IH. assumption.
Qed.

Lemma matches_rgb_tail s :
  matches (Star re_ws @@ re_alpha @@ Star re_ws @@ Lit ")")%re s -> rgb_tail_shape s.
Proof.
  intros H. apply inv_seq in H. destruct H as (w1 & t1 & -> & H1 & H2).
  apply inv_star_class in H1.
  destruct w1 as [|c w1].
  2:{ simpl in H1. apply andb_true_iff in H1. destruct H1 as [Hc _].
      exists c, (w1 ++ t1). split; [reflexivity|]. left. assumption. }
  simpl. clear H1.
  apply inv_seq in H2. destruct H2 as (al & t2 & -> & H2 & H3).
  apply inv_opt in H2. destruct H2 as [->|H2].
  - simpl. apply inv_seq in H3. destruct H3 as (w2 & t3 & -> & H3 & H4).
    apply inv_star_class in H3. destruct w2 as [|c w2].
    + simpl. apply inv_seq in H4. destruct H4 as (p & e & -> & H4 & H5).
      apply inv_chr in H4. destruct H4 as (d & -> & Hd). apply inv_eps in H5. subst e.
      apply Ascii.eqb_eq in Hd. simpl in Hd.
      exists d, []. split; [reflexivity|]. right. right. right.
      destruct d as [[] [] [] [] [] [] [] []]; try discriminate Hd; reflexivity.
    + simpl in H3. apply andb_true_iff in H3. destruct H3 as [Hc _].
      exists c, (w2 ++ t3). split; [reflexivity|]. left. assumption.
  - apply inv_seq in H2. destruct H2 as (cs & t4 & -> & H2 & _).
    apply inv_chr in H2. destruct H2 as (c & -> & Hc).
    exists c, (t4 ++ t2). split; [reflexivity|].
    apply orb_true_iff in Hc. destruct Hc as [Hc|Hc]; apply Ascii.eqb_eq in Hc; auto.
Qed.

(** Every string that matches the pattern of [parseRgb] has its shape. *)
Lemma matches_rgb s :
  matches re_rgb s ->
  exists head c1 m1 c2 m2 c3 tail,
    s = head ++ c1 ++ m1 ++ c2 ++ m2 ++ c3 ++ tail /\
    rgb_head_shape head /\
    component_shape c1 /\ separator_shape m1 /\
    component_shape c2 /\ separator_shape m2 /\
    component_shape c3 /\ rgb_tail_shape tail.
Proof.
  intros H. apply inv_seq in H. destruct H as (n1 & t & -> & Hn1 & H).
  apply inv_seq in H. destruct H as (n2 & t' & -> & Hn2 & H).
  apply inv_seq in H. destruct H as (par & t'' & -> & Hpar & H).
  apply inv_seq in H. destruct H as (w & t3 & -> & Hw & H).
  apply inv_seq in H. destruct H as (c1 & t4 & -> & Hc1 & H).
  apply inv_seq in H. destruct H as (m1 & t5 & -> & Hm1 & H).
  apply inv_seq in H. destruct H as (c2 & t6 & -> & Hc2 & H).
  apply inv_seq in H. destruct H as (m2 & t7 & -> & Hm2 & H).
  apply inv_seq in H. destruct H as (c3 & tail & -> & Hc3 & H).
  apply inv_group, matches_component in Hc1, Hc2, Hc3.
  apply matches_separator in Hm1, Hm2. apply matches_rgb_tail in H.
  apply inv_star_class in Hw.
  apply matches_Lit in Hn1, Hpar.
  destruct par as [|p [|? ?]]; try discriminate Hpar.
  assert (p = "("%char) as ->.
  { injection Hpar as Hp. destruct p as [[] [] [] [] [] [] [] []]; try discriminate Hp; reflexivity. }
  exists ((n1 ++ n2) ++ "("%char :: w), c1, m1, c2, m2, c3, tail.
  split; [rewrite <- !app_assoc; reflexivity|].
  split; [|auto 10].
  exists (n1 ++ n2), w. split; [reflexivity|]. split; [assumption|].
  rewrite map_app, Hn1. apply inv_opt in Hn2. destruct Hn2 as [->|Hn2]; [left; reflexivity|].
  apply matches_Lit in Hn2. rewrite Hn2. right. reflexivity.
Qed.


(** ** Rounding a number of a bounded range *)

Local Open Scope Z_scope.

Lemma digits2_pos_bound (m : positive) : Z.pos m < 2 ^ Z.pos (digits2_pos m).
Proof.
  induction m as [p IH|p IH|]; simpl digits2_pos; [| |reflexivity];
    rewrite Pos2Z.inj_succ, Z.pow_succ_r by lia; [rewrite Pos2Z.inj_xI|rewrite Pos2Z.inj_xO]; lia.
Qed.

Lemma valid_mantissa_bound (s : bool) (m : positive) (e : Z) :
  valid_binary (S754_finite s m e) = true -> Z.pos m < 2 ^ 53.
Proof.
  unfold valid_binary, SpecFloat.valid_binary, bounded, canonical_mantissa, fexp.
  intros H. apply andb_true_iff in H. destruct H as [H _]. apply Z.eqb_eq in H.
  pose proof (digits2_pos_bound m) as Hd.
  assert (Hle : Z.pos (digits2_pos m) <= 53). { unfold SpecFloat.fexp, SpecFloat.emin, prec, emax in H. lia. }
  eapply Z.lt_le_trans; [exact Hd|]. apply Z.pow_le_mono_r; lia.
Qed.

Lemma Z2float_0 : Z2float 0 = PrimFloat.zero.
Proof. reflexivity. Qed.

(** A number between 0 and the integer [B] that is not negative zero
    rounds to an integer between 0 and [B]. *)
Lemma Math_round_range (B : Z) (mB : positive) (eB : Z) (x : float) :
  Prim2SF (Z2float B) = S754_finite false mB eB ->
  eB < 0 -> Z.pos mB = B * 2 ^ (- eB) -> 2 ^ 53 <= 2 * B * 2 ^ (- eB) ->
  (0 <=? x)%float = true -> (x <=? Z2float B)%float = true ->
  x <> PrimFloat.neg_zero ->
  exists z, 0 <= z <= B /\ Math_round x = Z2float z.
Proof.
  intros HB HeB HmB Hlow H0 H1 Hnz.
  assert (HBpos : 0 < B).
  { destruct (Z.leb_spec B 0) as [Hle|]; [|assumption].
    assert (0 < 2 ^ (- eB)) by (apply Z.pow_pos_nonneg; lia). nia. }
  rewrite leb_spec in H0, H1. rewrite HB in H1.
  change (Prim2SF 0) with (S754_zero false) in H0.
  unfold Math_round. pose proof (Prim2SF_valid x) as Hv.
  pose proof (SF2Prim_Prim2SF x) as Hx.
  destruct (Prim2SF x) as [[]|[]| |[] m e]; try discriminate H0; try discriminate H1.
  - exfalso. apply Hnz. rewrite <- Hx. reflexivity.
  - exists 0. split; [lia|]. rewrite <- Hx. reflexivity.
  - apply valid_mantissa_bound in Hv.
    unfold SFleb, SFcompare in H1.
    assert (Hcase : e < eB \/ (e = eB /\ Z.pos m <= Z.pos mB)).
    { destruct (Z.compare_spec e eB) as [->|Hlt|Hgt]; [right|left; assumption|discriminate].
      split; [reflexivity|].
      change (PosDef.Pos.compare_cont Eq m mB) with (Z.pos m ?= Z.pos mB) in H1.
      destruct (Z.compare_spec (Z.pos m) (Z.pos mB)); try discriminate; lia. }
    assert (He : e < 0) by lia.
    destruct (Z.leb_spec 0 e) as [|_]; [lia|].
    rewrite Z.shiftl_1_l, Z.shiftr_div_pow2 by lia.
    replace (1 - e) with (Z.succ (- e)) by lia. rewrite Z.pow_succ_r by lia.
    set (P := 2 ^ (- e)).
    assert (HP : 0 < P) by (apply Z.pow_pos_nonneg; lia).
    assert (Hz : 0 <= (2 * Z.pos m + P) / (2 * P) <= B).
    { split; [apply Z.div_pos; lia|].
      apply Z.lt_succ_r, Z.div_lt_upper_bound; [lia|].
      destruct Hcase as [Hlt|[-> Hle]].
      - assert (2 * 2 ^ (- eB) <= P).
        { unfold P. rewrite <- Z.pow_succ_r by lia. apply Z.pow_le_mono_r; lia. }
        nia.
      - fold P in HmB. nia. }
    exists ((2 * Z.pos m + P) / (2 * P)). split; [exact Hz|].
    destruct (Z.eqb_spec ((2 * Z.pos m + P) / (2 * P)) 0) as [->|]; reflexivity.
Qed.

Lemma Math_round_range_360 (x : float) :
  (0 <=? x)%float = true -> (x <=? 360)%float = true -> x <> PrimFloat.neg_zero ->
  exists z, 0 <= z <= 360 /\ Math_round x = Z2float z.
Proof.
  apply (Math_round_range 360 6333186975989760 (-44)); try reflexivity; vm_compute; discriminate.
Qed.

Lemma Math_round_range_100 (x : float) :
  (0 <=? x)%float = true -> (x <=? 100)%float = true -> x <> PrimFloat.neg_zero ->
  exists z, 0 <= z <= 100 /\ Math_round x = Z2float z.
Proof.
  apply (Math_round_range 100 7036874417766400 (-46)); try reflexivity; vm_compute; discriminate.
Qed.

Lemma Math_round_range_255 (x : float) :
  (0 <=? x)%float = true -> (x <=? 255)%float = true -> x <> PrimFloat.neg_zero ->
  exists z, 0 <= z <= 255 /\ Math_round x = Z2float z.
Proof.
  apply (Math_round_range 255 8972014882652160 (-45)); try reflexivity; vm_compute; discriminate.
Qed.

(** ** RGBA to HSLA *)

(** Checked on each of the 256 * 256 * 256 triples of bytes. *)
Lemma hsl_in_range_all :
  forallb (fun r => forallb (fun g => forallb (fun b => hsl_in_range r g b) bytes) bytes)
    bytes = true.
Proof. vm_compute. reflexivity. Qed.

Lemma rgbaToHsla_raw (c : RGBA) :
  rgbaToHsla c =
  let '(h, s, l) := hslRaw (rgba_r c) (rgba_g c) (rgba_b c) in
  mkHSLA (Math_round h) (Math_round s) (Math_round l) (rgba_a c).
Proof.
  unfold rgbaToHsla, hslRaw.
  destruct (negb _); reflexivity.
Qed.

Lemma in_range_round_360 (x : float) :
  in_range 360 x = true -> exists z, 0 <= z <= 360 /\ Math_round x = Z2float z.
Proof.
  unfold in_range. intros H. apply andb_true_iff in H. destruct H as [H Hn].
  apply andb_true_iff in H. destruct H as [H0 H1].
  apply Math_round_range_360; try assumption.
  intros ->. discriminate Hn.
Qed.

Lemma in_range_round_100 (x : float) :
  in_range 100 x = true -> exists z, 0 <= z <= 100 /\ Math_round x = Z2float z.
Proof.
  unfold in_range. intros H. apply andb_true_iff in H. destruct H as [H Hn].
  apply andb_true_iff in H. destruct H as [H0 H1].
  apply Math_round_range_100; try assumption.
  intros ->. discriminate Hn.
Qed.

(** C6, as the code has it.  For integer channels in [0,255],
    [rgbaToHsla] returns an integer hue in the closed range [0,360]
    (a hue of 359.5 degrees or more rounds up to 360), integer
    saturation and lightness in [0,100], and the input alpha unchanged. *)
Theorem rgbaToHsla_ranges (r g b : Z) (a : float) :
  0 <= r <= 255 -> 0 <= g <= 255 -> 0 <= b <= 255 ->
  let hsla := rgbaToHsla (mkRGBA (Z2float r) (Z2float g) (Z2float b) a) in
  (exists h, 0 <= h <= 360 /\ hsla_h hsla = Z2float h) /\
  (exists s, 0 <= s <= 100 /\ hsla_s hsla = Z2float s) /\
  (exists l, 0 <= l <= 100 /\ hsla_l hsla = Z2float l) /\
  hsla_a hsla = a.
Proof.
  intros Hr Hg Hb.
  assert (Hok : hsl_in_range (Z2float r) (Z2float g) (Z2float b) = true).
  { pose proof hsl_in_range_all as H. rewrite forallb_forall in H.
    specialize (H (Z2float r) (is_byte_In _ (ex_intro _ r (conj Hr eq_refl)))).
    rewrite forallb_forall in H.
    specialize (H (Z2float g) (is_byte_In _ (ex_intro _ g (conj Hg eq_refl)))).
    rewrite forallb_forall in H.
    exact (H (Z2float b) (is_byte_In _ (ex_intro _ b (conj Hb eq_refl)))). }
  cbv zeta. rewrite rgbaToHsla_raw. simpl rgba_r. simpl rgba_g. simpl rgba_b. simpl rgba_a.
  unfold hsl_in_range in Hok.
  destruct (hslRaw (Z2float r) (Z2float g) (Z2float b)) as [[h s] l].
  apply andb_true_iff in Hok. destruct Hok as [Hok Hl].
  apply andb_true_iff in Hok. destruct Hok as [Hh Hs]. simpl.
  split; [apply in_range_round_360, Hh|].
  split; [apply in_range_round_100, Hs|].
  split; [apply in_range_round_100, Hl|reflexivity].
Qed.

(** ** The pattern of [hsl()] *)

Lemma matches_hue s : matches re_hue s -> hue_shape s.
Proof.
  intros H. apply inv_seq in H. destruct H as (n & u & -> & H1 & H2).
  apply matches_number in H1. exists n, u. split; [reflexivity|]. split; [assumption|].
  apply inv_opt in H2. destruct H2 as [->|H2]; [left; reflexivity|]. right.
  apply inv_alt in H2. destruct H2 as [H2|H2]; [left; apply matches_Lit in H2; exact H2|].
  right. apply inv_alt in H2.
  destruct H2 as [H2|H2]; [left|right]; apply matches_Lit in H2; exact H2.
Qed.


(** ** What [parseColor] accepts *)

Lemma matches_bare_hex s :
  matches re_bare_hex s -> forallb is_hex_digit s = true /\ (3 <= length s <= 8)%nat.
Proof.
  intros H. unfold re_bare_hex in H. cbv zeta in H.
  apply inv_seq in H. destruct H as (s1 & t1 & -> & H1 & H).
  apply inv_chr in H1. destruct H1 as (c1 & -> & Hc1).
  apply inv_seq in H. destruct H as (s2 & t2 & -> & H2 & H).
  apply inv_chr in H2. destruct H2 as (c2 & -> & Hc2).
  apply inv_seq in H. destruct H as (s3 & t3 & -> & H3 & H).
  apply inv_chr in H3. destruct H3 as (c3 & -> & Hc3).
  simpl. rewrite Hc1, Hc2, Hc3. simpl.
  apply inv_opt in H. destruct H as [->|H]; [simpl; split; [reflexivity|lia]|].
  apply inv_seq in H. destruct H as (s4 & t4 & -> & H4 & H).
  apply inv_chr in H4. destruct H4 as (c4 & -> & Hc4). simpl. rewrite Hc4. simpl.
  apply inv_opt in H. destruct H as [->|H]; [simpl; split; [reflexivity|lia]|].
  apply inv_seq in H. destruct H as (s5 & t5 & -> & H5 & H).
  apply inv_chr in H5. destruct H5 as (c5 & -> & Hc5). simpl. rewrite Hc5. simpl.
  apply inv_opt in H. destruct H as [->|H]; [simpl; split; [reflexivity|lia]|].
  apply inv_seq in H. destruct H as (s6 & t6 & -> & H6 & H).
  apply inv_chr in H6. destruct H6 as (c6 & -> & Hc6). simpl. rewrite Hc6. simpl.
  apply inv_opt in H. destruct H as [->|H]; [simpl; split; [reflexivity|lia]|].
  apply inv_seq in H. destruct H as (s7 & t7 & -> & H7 & H).
  apply inv_chr in H7. destruct H7 as (c7 & -> & Hc7). simpl. rewrite Hc7. simpl.
  apply inv_opt in H. destruct H as [->|H]; [simpl; split; [reflexivity|lia]|].
  apply inv_chr in H. destruct H as (c8 & -> & Hc8). simpl. rewrite Hc8.
  split; [reflexivity|lia].
Qed.

Lemma length_chars (s : string) : length (chars s) = String.length s.
Proof. induction s as [|c s IH]; [reflexivity|]. simpl. rewrite <- IH. reflexivity. Qed.

Lemma cleanedHex_hex_digits (s : string) : all_hex_digits s -> cleanedHex s = s.
Proof.
  unfold all_hex_digits. destruct s as [|c s]; [reflexivity|]. simpl.
  destruct c as [[] [] [] [] [] [] [] []]; try reflexivity. discriminate.
Qed.

(** X24. [parseColor] accepts four kinds of input and nothing else: a
    string that, trimmed, starts with [#] and that [parseHex] accepts;
    one starting with [rgb] or [hsl] in any letter case that [parseRgb]
    or [parseHsl] accepts; or 3, 4, 6 or 8 hex digits without [#], read
    as [parseHex] reads them. A colour word such as [red], and five or
    seven bare digits, are rejected. *)
Theorem parseColor_accepted (input : string) (v : RGBA) :
  parseColor input = Some v ->
  (startsWith (trim input) "#" = true /\ parseHex (trim input) = Some v) \/
  (startsWith (toLowerCase (trim input)) "rgb" = true /\ parseRgb (trim input) = Some v) \/
  (startsWith (toLowerCase (trim input)) "hsl" = true /\ parseHsl (trim input) = Some v) \/
  (all_hex_digits (trim input) /\
   In (String.length (trim input)) [3; 4; 6; 8]%nat /\
   parseHex (trim input) = Some v).
Proof.
  unfold parseColor. cbv zeta. generalize (trim input). intros t.
  destruct (startsWith t "#"); [intros H; left; auto|].
  destruct (startsWith (toLowerCase t) "rgb"); [intros H; right; left; auto|].
  destruct (startsWith (toLowerCase t) "hsl"); [intros H; right; right; left; auto|].
  destruct (regex_match re_bare_hex t) as [caps|] eqn:E; [|discriminate].
  apply regex_match_sound, matches_bare_hex in E. destruct E as [Hd _].
  change ("#" ++ t)%string with (String "#" t).
  intros H. right. right. right.
  assert (Hc : cleanedHex t = t) by (apply cleanedHex_hex_digits, Hd).
  assert (Hp : parseHex t = Some v) by (rewrite parseHex_cleaned, Hc; exact H).
  split; [exact Hd|]. split; [|exact Hp].
  revert H. unfold parseHex. simpl.
  destruct (String.length t) as [|[|[|[|[|[|[|[|[|n]]]]]]]]];
    try discriminate; intros _; simpl; auto 10.
Qed.

(** ** Rounding to binary64 is monotone *)

Lemma qcode_2 (c : Z) : qcode 2 c = c.
Proof.
  unfold qcode. destruct (Z.eqb_spec (c mod 2) 0); Z.div_mod_to_equations; lia.
Qed.

Lemma qcode_exact (m : Z) : qcode 1 (2 * m) = 4 * m.
Proof. unfold qcode. rewrite Z.div_1_r, Z.mod_1_r. simpl. lia. Qed.

Lemma qcode_nonneg (D N : Z) : 0 < D -> 0 <= N -> 0 <= qcode D N.
Proof.
  intros HD HN. unfold qcode. assert (0 <= N / D) by (apply Z.div_pos; lia).
  destruct (_ =? _); lia.
Qed.

Lemma qcode_mono (D N D' N' : Z) :
  0 < D -> 0 < D' -> 0 <= N -> N * D' <= N' * D -> qcode D N <= qcode D' N'.
Proof.
  intros HD HD' HN Hle. unfold qcode.
  pose proof (Z.div_mod N D ltac:(lia)) as E. pose proof (Z.mod_pos_bound N D HD) as B.
  pose proof (Z.div_mod N' D' ltac:(lia)) as E'. pose proof (Z.mod_pos_bound N' D' HD') as B'.
  set (q := N / D) in *. set (r := N mod D) in *.
  set (q' := N' / D') in *. set (r' := N' mod D') in *.
  assert (Hq : q <= q').
  { destruct (Z.le_gt_cases q q') as [|Hgt]; [assumption|exfalso].
    assert (q' + 1 <= q) by lia.
    assert (N' < (q' + 1) * D') by lia.
    assert (q * D <= N) by lia.
    assert ((q' + 1) * D' * D <= q * D * D') by nia.
    nia. }
  destruct (Z.eqb_spec r 0) as [Hr|Hr]; destruct (Z.eqb_spec r' 0) as [Hr'|Hr']; try lia.
  destruct (Z.eq_dec q q') as [Hqq|]; [|lia]. exfalso.
  subst q'. rewrite Hr' in E'. assert (0 < r) by lia. nia.
Qed.

Lemma qcode_comp (D E N : Z) :
  0 < D -> 0 < E -> 0 <= N -> qcode (2 * E) (qcode D N) = qcode (D * E) N.
Proof.
  intros HD HE HN. unfold qcode.
  pose proof (Z.div_mod N D ltac:(lia)) as EN. pose proof (Z.mod_pos_bound N D HD) as BN.
  set (q := N / D) in *. set (r := N mod D) in *.
  pose proof (Z.div_mod q E ltac:(lia)) as Eq. pose proof (Z.mod_pos_bound q E HE) as Bq.
  set (q2 := q / E) in *. set (r2 := q mod E) in *.
  assert (Hq0 : 0 <= q) by (apply Z.div_pos; lia).
  assert (Hdiv : N / (D * E) = q2).
  { symmetry. apply (Z.div_unique_pos N (D * E) q2 (r2 * D + r)); nia. }
  assert (Hmod : N mod (D * E) = r2 * D + r).
  { symmetry. apply (Z.mod_unique_pos N (D * E) q2 (r2 * D + r)); nia. }
  rewrite Hdiv, Hmod.
  set (b := if r =? 0 then 0 else 1).
  assert (Hb : 0 <= b <= 1) by (unfold b; destruct (r =? 0); lia).
  assert (Hdiv2 : (2 * q + b) / (2 * E) = q2).
  { symmetry. apply (Z.div_unique_pos _ _ q2 (2 * r2 + b)); nia. }
  assert (Hmod2 : (2 * q + b) mod (2 * E) = 2 * r2 + b).
  { symmetry. apply (Z.mod_unique_pos _ _ q2 (2 * r2 + b)); nia. }
  rewrite Hdiv2, Hmod2.
  destruct (Z.eqb_spec (2 * r2 + b) 0); destruct (Z.eqb_spec (r2 * D + r) 0);
    unfold b in *; destruct (Z.eqb_spec r 0); try lia; nia.
Qed.

Lemma qcode_div4 (D N : Z) : 0 < D -> 0 <= N -> qcode D N / 4 = N / (2 * D).
Proof.
  intros HD HN. unfold qcode.
  pose proof (Z.div_mod N D ltac:(lia)) as EN. pose proof (Z.mod_pos_bound N D HD) as BN.
  set (q := N / D) in *. set (r := N mod D) in *.
  assert (Hq0 : 0 <= q) by (apply Z.div_pos; lia).
  replace (N / (2 * D)) with (q / 2)
    by (unfold q; rewrite Z.div_div by lia; f_equal; lia).
  destruct (r =? 0); Z.div_mod_to_equations; lia.
Qed.

Lemma rcode_shr_1 (r : shr_record) :
  0 <= shr_m r -> rcode (shr_1 r) = qcode 4 (rcode r) /\ 0 <= shr_m (shr_1 r).
Proof.
  destruct r as [m rb sb]. unfold rcode, qcode. simpl shr_m. simpl shr_r. simpl shr_s.
  intros Hm.
  set (l := (if rb then 2 else 0) + (if sb then 1 else 0)).
  assert (Hl : 0 <= l < 4) by (unfold l; destruct rb, sb; lia).
  assert (Hd : (4 * m + (if rb then 2 else 0) + (if sb then 1 else 0)) / 4 = m)
    by (Z.div_mod_to_equations; lia).
  assert (Hr : (4 * m + (if rb then 2 else 0) + (if sb then 1 else 0)) mod 4 = l)
    by (unfold l; Z.div_mod_to_equations; lia).
  rewrite Hd, Hr.
  destruct m as [|[p|p|]|p]; try lia; simpl shr_1; cbv beta iota; simpl shr_m;
    simpl shr_r; simpl shr_s;
    (split; [|lia]); unfold l; destruct rb, sb; simpl; lia.
Qed.

Lemma rcode_nonneg (r : shr_record) : 0 <= shr_m r -> 0 <= rcode r.
Proof. unfold rcode. destruct (shr_r r), (shr_s r); lia. Qed.

Lemma rcode_iter (p : positive) (r : shr_record) :
  0 <= shr_m r ->
  rcode (SpecFloat.iter_pos shr_1 p r) = qcode (2 * 2 ^ Z.pos p) (rcode r) /\
  0 <= shr_m (SpecFloat.iter_pos shr_1 p r).
Proof.
  revert r. induction p as [p IH|p IH|]; intros r Hr; simpl SpecFloat.iter_pos.
  - destruct (rcode_shr_1 r Hr) as [E1 H1].
    destruct (IH _ H1) as [E2 H2]. destruct (IH _ H2) as [E3 H3].
    split; [|exact H3]. rewrite E3, E2, E1.
    assert (0 < 2 ^ Z.pos p) by (apply Z.pow_pos_nonneg; lia).
    pose proof (rcode_nonneg r Hr).
    rewrite (qcode_comp 4 (2 ^ Z.pos p)) by lia.
    rewrite (qcode_comp (4 * 2 ^ Z.pos p) (2 ^ Z.pos p)) by lia.
    f_equal. replace (Z.pos p~1) with (Z.pos p + Z.pos p + 1) by lia.
    rewrite !Z.pow_add_r, Z.pow_1_r by lia. ring.
  - destruct (IH _ Hr) as [E2 H2]. destruct (IH _ H2) as [E3 H3].
    split; [|exact H3]. rewrite E3, E2.
    assert (0 < 2 ^ Z.pos p) by (apply Z.pow_pos_nonneg; lia).
    pose proof (rcode_nonneg r Hr).
    rewrite (qcode_comp (2 * 2 ^ Z.pos p) (2 ^ Z.pos p)) by lia.
    f_equal. replace (Z.pos p~0) with (Z.pos p + Z.pos p) by lia.
    rewrite !Z.pow_add_r by lia. ring.
  - exact (rcode_shr_1 r Hr).
Qed.

Lemma rne_record (r : shr_record) :
  round_nearest_even (shr_m r) (loc_of_shr_record r) = rne (rcode r).
Proof.
  destruct r as [m rb sb]. unfold rne, rcode. simpl shr_m. simpl shr_r. simpl shr_s.
  assert (Hd : (4 * m + (if rb then 2 else 0) + (if sb then 1 else 0)) / 4 = m)
    by (destruct rb, sb; Z.div_mod_to_equations; lia).
  assert (Hr : (4 * m + (if rb then 2 else 0) + (if sb then 1 else 0)) mod 4
               = (if rb then 2 else 0) + (if sb then 1 else 0))
    by (destruct rb, sb; Z.div_mod_to_equations; lia).
  cbv zeta. rewrite Hd, Hr. destruct rb, sb; reflexivity.
Qed.

Lemma rne_bounds (c : Z) : c / 4 <= rne c <= c / 4 + 1.
Proof.
  unfold rne. cbv zeta. destruct (_ <=? 1); [lia|].
  destruct (_ =? 2); [destruct (Z.even _)|]; lia.
Qed.

Lemma rne_mono (c c' : Z) : c <= c' -> rne c <= rne c'.
Proof.
  intros H. unfold rne. cbv zeta.
  pose proof (Z.div_mod c 4 ltac:(lia)) as E. pose proof (Z.mod_pos_bound c 4 ltac:(lia)) as B.
  pose proof (Z.div_mod c' 4 ltac:(lia)) as E'. pose proof (Z.mod_pos_bound c' 4 ltac:(lia)) as B'.
  set (q := c / 4) in *. set (r := c mod 4) in *.
  set (q' := c' / 4) in *. set (r' := c' mod 4) in *.
  assert (Hq : q <= q') by lia.
  destruct (Z.leb_spec r 1); destruct (Z.leb_spec r' 1);
    destruct (Z.eqb_spec r 2); destruct (Z.eqb_spec r' 2);
    destruct (Z.even q) eqn:Eq; destruct (Z.even q') eqn:Eq'; try lia;
    destruct (Z.eq_dec q q') as [Heq|]; try lia; subst q'; congruence.
Qed.

Lemma digits2_pos_low (m : positive) : 2 ^ (Z.pos (digits2_pos m) - 1) <= Z.pos m.
Proof.
  induction m as [p IH|p IH|]; simpl digits2_pos; [| |simpl; lia];
    rewrite Pos2Z.inj_succ; replace (Z.succ (Z.pos (digits2_pos p)) - 1)
      with (Z.succ (Z.pos (digits2_pos p) - 1)) by lia;
    rewrite Z.pow_succ_r by lia; lia.
Qed.

Lemma Zdigits2_bounds (m : Z) :
  0 < m -> 0 < Zdigits2 m /\ 2 ^ (Zdigits2 m - 1) <= m < 2 ^ Zdigits2 m.
Proof.
  destruct m as [|p|p]; try lia. intros _. simpl Zdigits2.
  split; [lia|]. split; [apply digits2_pos_low|apply digits2_pos_bound].
Qed.

Lemma Zdigits2_le (m d : Z) : 0 <= m < 2 ^ d -> 0 <= d -> Zdigits2 m <= d.
Proof.
  intros [H0 H1] Hd. destruct (Z.eq_dec m 0) as [->|]; [simpl; lia|].
  destruct (Zdigits2_bounds m ltac:(lia)) as (Hp & Hl & _).
  destruct (Z.le_gt_cases (Zdigits2 m) d) as [|Hgt]; [assumption|exfalso].
  assert (2 ^ d <= 2 ^ (Zdigits2 m - 1)) by (apply Z.pow_le_mono_r; lia). lia.
Qed.

Lemma Zdigits2_ge (m d : Z) : 2 ^ (d - 1) <= m -> 1 <= d -> d <= Zdigits2 m.
Proof.
  intros H Hd. assert (0 < 2 ^ (d - 1)) by (apply Z.pow_pos_nonneg; lia).
  destruct (Zdigits2_bounds m ltac:(lia)) as (Hp & _ & Hu).
  destruct (Z.le_gt_cases d (Zdigits2 m)) as [|Hgt]; [assumption|exfalso].
  assert (2 ^ Zdigits2 m <= 2 ^ (d - 1)) by (apply Z.pow_le_mono_r; lia). lia.
Qed.

Lemma shr_spec (r : shr_record) (e n : Z) :
  0 <= shr_m r -> 0 <= n ->
  rcode (fst (shr r e n)) = qcode (2 * 2 ^ n) (rcode r) /\
  0 <= shr_m (fst (shr r e n)) /\ snd (shr r e n) = e + n.
Proof.
  intros Hr Hn. destruct n as [|p|p]; try lia; simpl shr; simpl fst; simpl snd.
  - split; [|split; [assumption|lia]]. symmetry. apply qcode_2.
  - destruct (rcode_iter p r Hr) as [E H]. split; [exact E|]. split; [exact H|reflexivity].
Qed.

Lemma fexp64_eq (k : Z) : SpecFloat.fexp prec emax k = fexp64 k.
Proof. reflexivity. Qed.

(** [binary_round_aux] on a positive mantissa: the key of the result is
    [out_key] of the rounded code at the exponent chosen by [fexp64]. *)
Lemma bra_key (m : Z) (l : location) (e : Z) :
  0 <= m -> e <= fexp64 (Zdigits2 m + e) ->
  sf_key (binary_round_aux prec emax false m e l) =
  Some (out_key (rne (qcode (2 * 2 ^ (fexp64 (Zdigits2 m + e) - e)) (lcode m l)))
          (fexp64 (Zdigits2 m + e))).
Proof.
  intros Hm Hpre. unfold binary_round_aux, shr_fexp.
  change (SpecFloat.fexp prec emax) with fexp64.
  set (E := fexp64 (Zdigits2 m + e)) in *. set (n := E - e).
  assert (Hn : 0 <= n) by (unfold n; lia).
  assert (Hr0 : 0 <= shr_m (shr_record_of_loc m l)) by (destruct l as [|[]]; exact Hm).
  destruct (shr_spec (shr_record_of_loc m l) e n Hr0 Hn) as (Ec & Hm1 & Ee).
  destruct (shr (shr_record_of_loc m l) e n) as [r1 e1]. simpl fst in *. simpl snd in *.
  fold (lcode m l) in Ec. rewrite rne_record, Ec.
  set (c := qcode (2 * 2 ^ n) (lcode m l)) in *.
  assert (He1 : e1 = E) by (unfold n in Ee; lia). clear Ee. subst e1.
  assert (HEmin : -1074 <= E) by (unfold E, fexp64; lia).
  (* the mantissa before rounding is below 2^53 *)
  assert (H2n : 0 < 2 ^ n) by (apply Z.pow_pos_nonneg; lia).
  assert (Hc4 : c / 4 = m / 2 ^ n).
  { unfold c. pose proof (rcode_nonneg _ Hr0) as Hc0. fold (lcode m l) in Hc0.
    rewrite qcode_div4 by lia.
    replace (2 * (2 * 2 ^ n)) with (4 * 2 ^ n) by lia.
    rewrite <- Z.div_div by lia. f_equal.
    unfold lcode, rcode. destruct l as [|[]]; simpl; Z.div_mod_to_equations; lia. }
  assert (Hlt : c / 4 < 2 ^ 53).
  { rewrite Hc4. apply Z.div_lt_upper_bound; [lia|].
    destruct (Z.eq_dec m 0) as [->|Hm0]; [lia|].
    destruct (Zdigits2_bounds m ltac:(lia)) as (Hp & _ & Hu).
    eapply Z.lt_le_trans; [exact Hu|]. rewrite <- Z.pow_add_r by lia.
    apply Z.pow_le_mono_r; [lia|]. unfold n, E, fexp64. lia. }
  assert (Hc4' : 0 <= c / 4).
  { rewrite Hc4. apply Z.div_pos; lia. }
  pose proof (rne_bounds c) as HM. set (M := rne c) in *.
  unfold out_key.
  destruct (Z.eqb_spec M (2 ^ 53)) as [HM53|HM53].
  - rewrite HM53. change (Zdigits2 (2 ^ 53)) with 54.
    replace (fexp64 (54 + E) - E) with 1 by (unfold fexp64; lia).
    simpl shr. cbv beta iota. simpl shr_m.
    change (2 ^ 52 =? 0) with false. cbv iota.
    change (emax - prec) with 971.
    replace (E + 1 <=? 971) with (E + 1 <=? 971) by reflexivity.
    destruct (E + 1 <=? 971); reflexivity.
  - assert (HMlt : 0 <= M < 2 ^ 53) by lia.
    assert (Hd : Zdigits2 M <= 53) by (apply Zdigits2_le; lia).
    assert (Hn2 : fexp64 (Zdigits2 M + E) - E <= 0) by (unfold fexp64; lia).
    assert (Hshr : shr (shr_record_of_loc M loc_Exact) E (fexp64 (Zdigits2 M + E) - E)
                   = (shr_record_of_loc M loc_Exact, E)).
    { destruct (fexp64 (Zdigits2 M + E) - E); try reflexivity. lia. }
    rewrite Hshr. simpl shr_m. change (emax - prec) with 971.
    destruct M as [|p|p]; try lia; simpl; [reflexivity|].
    destruct (E <=? 971); reflexivity.
Qed.

Lemma out_key_mono_same (E M1 M2 : Z) :
  0 <= M1 -> M1 <= M2 -> M2 <= 2 ^ 53 -> key_le (out_key M1 E) (out_key M2 E).
Proof.
  unfold out_key, key_le, key_lt. change (2 ^ 53) with 9007199254740992.
  change (2 ^ 52) with 4503599627370496. intros H0 H1 H2.
  destruct (Z.eq_dec M1 M2) as [->|Hne]; [right; reflexivity|].
  destruct (Z.eqb_spec M1 9007199254740992); destruct (Z.eqb_spec M2 9007199254740992);
    try lia;
    repeat match goal with
           | |- context [?a =? ?b] => destruct (Z.eqb_spec a b)
           | |- context [?a <=? ?b] => destruct (Z.leb_spec a b)
           end; try lia; try (right; reflexivity); left; simpl; lia.
Qed.

Lemma out_key_mono_lt (E1 E2 M1 M2 : Z) :
  E1 < E2 -> 0 <= M1 <= 2 ^ 53 -> 2 ^ 52 <= M2 <= 2 ^ 53 ->
  key_le (out_key M1 E1) (out_key M2 E2).
Proof.
  unfold out_key, key_le, key_lt. change (2 ^ 53) with 9007199254740992.
  change (2 ^ 52) with 4503599627370496. intros HE H1 H2.
  destruct (Z.eq_dec (E1 + 1) E2); destruct (Z.eq_dec M2 4503599627370496);
  destruct (Z.eqb_spec M1 9007199254740992); destruct (Z.eqb_spec M2 9007199254740992);
    repeat match goal with
           | |- context [?a =? ?b] => destruct (Z.eqb_spec a b)
           | |- context [?a <=? ?b] => destruct (Z.leb_spec a b)
           end; try lia; try (right; reflexivity);
    try (right; f_equal; [f_equal|]; lia); left; simpl; lia.
Qed.

Lemma ple_base (X a Y b g : Z) :
  g <= a -> g <= b -> (ple X a Y b <-> X * 2 ^ (a - g) <= Y * 2 ^ (b - g)).
Proof.
  intros Ha Hb. unfold ple. set (h := Z.min a b).
  assert (Hh : g <= h) by (unfold h; lia).
  replace (a - g) with ((a - h) + (h - g)) by lia.
  replace (b - g) with ((b - h) + (h - g)) by lia.
  rewrite !Z.pow_add_r by (unfold h; lia).
  assert (0 < 2 ^ (h - g)) by (apply Z.pow_pos_nonneg; lia).
  rewrite !Z.mul_assoc. split; intros H'; nia.
Qed.

Lemma ple_shift (X a Y b t : Z) : ple X (a + t) Y (b + t) <-> ple X a Y b.
Proof.
  unfold ple. replace (Z.min (a + t) (b + t)) with (Z.min a b + t) by lia.
  replace (a + t - (Z.min a b + t)) with (a - Z.min a b) by lia.
  replace (b + t - (Z.min a b + t)) with (b - Z.min a b) by lia. reflexivity.
Qed.

Lemma ple_mul (X a Y b X' a' Y' b' : Z) :
  0 <= X -> 0 <= X' -> ple X a Y b -> ple X' a' Y' b' ->
  ple (X * X') (a + a') (Y * Y') (b + b').
Proof.
  intros HX HX' H H'.
  set (g := Z.min a b) in *. set (g' := Z.min a' b') in *.
  apply (ple_base _ _ _ _ (g + g')); [unfold g, g'; lia|unfold g, g'; lia|].
  replace (a + a' - (g + g')) with ((a - g) + (a' - g')) by lia.
  replace (b + b' - (g + g')) with ((b - g) + (b' - g')) by lia.
  rewrite !Z.pow_add_r by (unfold g, g'; lia).
  unfold ple in H, H'. fold g in H. fold g' in H'.
  assert (0 < 2 ^ (a - g)) by (apply Z.pow_pos_nonneg; unfold g; lia).
  assert (0 < 2 ^ (a' - g')) by (apply Z.pow_pos_nonneg; unfold g'; lia).
  assert (0 < 2 ^ (b - g)) by (apply Z.pow_pos_nonneg; unfold g; lia).
  assert (0 < 2 ^ (b' - g')) by (apply Z.pow_pos_nonneg; unfold g'; lia).
  transitivity ((X * 2 ^ (a - g)) * (X' * 2 ^ (a' - g'))); [lia|].
  transitivity ((Y * 2 ^ (b - g)) * (Y' * 2 ^ (b' - g'))); [|lia].
  apply Z.mul_le_mono_nonneg; nia.
Qed.

Lemma ple_add (X a Y b X' Y' : Z) :
  ple X a Y b -> ple X' a Y' b -> ple (X + X') a (Y + Y') b.
Proof. unfold ple. nia. Qed.

Lemma ple_pow_l (X a Y b s : Z) : 0 <= s -> (ple (X * 2 ^ s) a Y b <-> ple X (a + s) Y b).
Proof.
  intros Hs. set (g := Z.min a b).
  rewrite (ple_base _ _ _ _ g), (ple_base X (a + s) Y b g) by (unfold g; lia).
  replace (a + s - g) with (s + (a - g)) by lia.
  rewrite Z.pow_add_r by (unfold g; lia). rewrite Z.mul_assoc. reflexivity.
Qed.

Lemma ple_pow_r (X a Y b s : Z) : 0 <= s -> (ple X a (Y * 2 ^ s) b <-> ple X a Y (b + s)).
Proof.
  intros Hs. set (g := Z.min a b).
  rewrite (ple_base _ _ _ _ g), (ple_base X a Y (b + s) g) by (unfold g; lia).
  replace (b + s - g) with (s + (b - g)) by lia.
  rewrite Z.pow_add_r by (unfold g; lia). rewrite Z.mul_assoc. reflexivity.
Qed.

Lemma ple_scale (X a Y b c : Z) : 0 < c -> (ple (c * X) a (c * Y) b <-> ple X a Y b).
Proof. intros Hc. unfold ple. split; intros H; nia. Qed.

Lemma ple_refl (X a : Z) : ple X a X a.
Proof. unfold ple. lia. Qed.

Lemma ple_exp (x y : Z) : ple 1 x 1 y <-> x <= y.
Proof.
  unfold ple. rewrite !Z.mul_1_l. split.
  - intros H. destruct (Z.le_gt_cases x y) as [|Hgt]; [assumption|exfalso].
    replace (Z.min x y) with y in H by lia. rewrite Z.sub_diag in H.
    change (2 ^ 0) with 1 in H.
    assert (2 ^ 1 <= 2 ^ (x - y)) by (apply Z.pow_le_mono_r; lia).
    change (2 ^ 1) with 2 in *. lia.
  - intros H. replace (Z.min x y) with x by lia. rewrite Z.sub_diag.
    change (2 ^ 0) with 1. assert (0 < 2 ^ (y - x)) by (apply Z.pow_pos_nonneg; lia). lia.
Qed.

Lemma ple_trans (X a Y b Z' c : Z) :
  0 < Y -> ple X a Y b -> ple Y b Z' c -> ple X a Z' c.
Proof.
  intros HY H1 H2. set (g := Z.min a (Z.min b c)).
  apply (ple_base _ _ _ _ g) in H1; [|unfold g; lia|unfold g; lia].
  apply (ple_base _ _ _ _ g) in H2; [|unfold g; lia|unfold g; lia].
  apply (ple_base _ _ _ _ g); [unfold g; lia|unfold g; lia|]. lia.
Qed.

Lemma lcode_div4 (m : Z) (l : location) : lcode m l / 4 = m.
Proof. unfold lcode, rcode. destruct l as [|[]]; simpl; Z.div_mod_to_equations; lia. Qed.

Lemma lcode_nonneg (m : Z) (l : location) : 0 <= m -> 0 <= lcode m l.
Proof. intros H. apply rcode_nonneg. destruct l as [|[]]; exact H. Qed.

(** The first stage of rounding: the shifted mantissa with its round and
    sticky bits is the code of the quotient by the power of two. *)
Lemma stage1 (m : Z) (l : location) (e D N : Z) :
  0 <= m -> 0 < D -> 0 <= N -> lcode m l = qcode D N ->
  e <= fexp64 (Zdigits2 m + e) ->
  qcode (2 * 2 ^ (fexp64 (Zdigits2 m + e) - e)) (lcode m l)
    = qcode (D * 2 ^ (fexp64 (Zdigits2 m + e) - e)) N /\
  0 <= rne (qcode (2 * 2 ^ (fexp64 (Zdigits2 m + e) - e)) (lcode m l)) <= 2 ^ 53 /\
  (-1074 < fexp64 (Zdigits2 m + e) ->
   2 ^ 52 <= rne (qcode (2 * 2 ^ (fexp64 (Zdigits2 m + e) - e)) (lcode m l))) /\
  m = N / (2 * D).
Proof.
  intros Hm HD HN Hl Hpre.
  set (E := fexp64 (Zdigits2 m + e)) in *. set (n := E - e).
  assert (Hn : 0 <= n) by (unfold n; lia).
  assert (H2n : 0 < 2 ^ n) by (apply Z.pow_pos_nonneg; lia).
  pose proof (lcode_nonneg m l Hm) as Hc0.
  set (c := qcode (2 * 2 ^ n) (lcode m l)).
  assert (Hc4 : c / 4 = m / 2 ^ n).
  { unfold c. rewrite qcode_div4 by lia.
    replace (2 * (2 * 2 ^ n)) with (4 * 2 ^ n) by lia.
    rewrite <- Z.div_div by lia. rewrite lcode_div4. reflexivity. }
  pose proof (rne_bounds c) as HM.
  assert (Hlo : 0 <= m / 2 ^ n) by (apply Z.div_pos; lia).
  split; [unfold c; rewrite Hl; apply qcode_comp; lia|].
  split; [|split].
  - split; [lia|].
    assert (m / 2 ^ n < 2 ^ 53); [|lia].
    apply Z.div_lt_upper_bound; [lia|].
    destruct (Z.eq_dec m 0) as [->|Hm0]; [lia|].
    destruct (Zdigits2_bounds m ltac:(lia)) as (Hp & _ & Hu).
    eapply Z.lt_le_trans; [exact Hu|]. rewrite <- Z.pow_add_r by lia.
    apply Z.pow_le_mono_r; [lia|]. unfold n, E, fexp64. lia.
  - intros HE.
    assert (2 ^ 52 <= m / 2 ^ n); [|lia].
    destruct (Z.eq_dec m 0) as [Hm0|Hm0].
    { exfalso. subst m. simpl Zdigits2 in *. unfold E, fexp64 in *. lia. }
    destruct (Zdigits2_bounds m ltac:(lia)) as (Hp & Hlow & _).
    assert (En : n = Zdigits2 m - 53) by (unfold n, E, fexp64 in *; lia).
    apply Z.div_le_lower_bound; [lia|].
    rewrite <- Z.pow_add_r by lia. replace (n + 52) with (Zdigits2 m - 1) by lia. exact Hlow.
  - rewrite <- (lcode_div4 m l), Hl. apply qcode_div4; lia.
Qed.

(** Rounding is monotone: of two quotients in order, the rounded
    numbers are in order. *)
Theorem round_mono (m1 : Z) (l1 : location) (e1 D1 N1 m2 : Z) (l2 : location) (e2 D2 N2 : Z) :
  0 <= m1 -> 0 < D1 -> 0 <= N1 -> lcode m1 l1 = qcode D1 N1 ->
  e1 <= fexp64 (Zdigits2 m1 + e1) ->
  0 <= m2 -> 0 < D2 -> 0 <= N2 -> lcode m2 l2 = qcode D2 N2 ->
  e2 <= fexp64 (Zdigits2 m2 + e2) ->
  ple (N1 * D2) e1 (N2 * D1) e2 ->
  exists k1 k2,
    sf_key (binary_round_aux prec emax false m1 e1 l1) = Some k1 /\
    sf_key (binary_round_aux prec emax false m2 e2 l2) = Some k2 /\
    key_le k1 k2.
Proof.
  intros Hm1 HD1 HN1 Hl1 Hp1 Hm2 HD2 HN2 Hl2 Hp2 Hle.
  rewrite (bra_key m1 l1 e1 Hm1 Hp1), (bra_key m2 l2 e2 Hm2 Hp2).
  eexists _, _. split; [reflexivity|]. split; [reflexivity|].
  destruct (stage1 m1 l1 e1 D1 N1 Hm1 HD1 HN1 Hl1 Hp1) as (Ec1 & HM1 & _ & Em1).
  destruct (stage1 m2 l2 e2 D2 N2 Hm2 HD2 HN2 Hl2 Hp2) as (Ec2 & HM2 & Hnorm2 & Em2).
  set (E1 := fexp64 (Zdigits2 m1 + e1)) in *. set (E2 := fexp64 (Zdigits2 m2 + e2)) in *.
  set (g := Z.min e1 e2).
  unfold ple in Hle. fold g in Hle.
  assert (HP1 : 0 < 2 ^ (e1 - g)) by (apply Z.pow_pos_nonneg; unfold g; lia).
  assert (HP2 : 0 < 2 ^ (e2 - g)) by (apply Z.pow_pos_nonneg; unfold g; lia).
  assert (HE : E1 <= E2).
  { destruct (Z.eq_dec m1 0) as [Hz|Hz].
    { assert (E1 = -1074); [|assert (-1074 <= E2) by (unfold E2, fexp64; lia); lia].
      unfold E1 in *. rewrite Hz in *. change (Zdigits2 0) with 0 in *.
      unfold fexp64 in *. lia. }
    assert (Hk : Zdigits2 m1 + e1 <= Zdigits2 m2 + e2); [|unfold E1, E2, fexp64; lia].
    destruct (Zdigits2_bounds m1 ltac:(lia)) as (Hd1 & Hlow1 & _).
    assert (Hup2 : m2 + 1 <= 2 ^ Zdigits2 m2).
    { destruct (Z.eq_dec m2 0) as [->|]; [simpl; lia|].
      destruct (Zdigits2_bounds m2 ltac:(lia)) as (_ & _ & Hu). lia. }
    assert (Hd2 : 0 <= Zdigits2 m2).
    { destruct (Z.eq_dec m2 0) as [->|]; [simpl; lia|].
      destruct (Zdigits2_bounds m2 ltac:(lia)) as (? & _ & _). lia. }
    (* m1 * 2 D1 <= N1 and N2 < (m2 + 1) * 2 D2 *)
    assert (HN1' : m1 * (2 * D1) <= N1).
    { rewrite Em1. rewrite Z.mul_comm. apply Z.mul_div_le. lia. }
    assert (HN2' : N2 < (m2 + 1) * (2 * D2)).
    { rewrite Em2. pose proof (Z.div_mod N2 (2 * D2) ltac:(lia)).
      pose proof (Z.mod_pos_bound N2 (2 * D2) ltac:(lia)). nia. }
    destruct (Z.le_gt_cases (Zdigits2 m1 + e1) (Zdigits2 m2 + e2)) as [|Hgt]; [assumption|].
    exfalso.
    assert (Hpow : 2 ^ (Zdigits2 m2 + (e2 - g)) <= 2 ^ (Zdigits2 m1 - 1 + (e1 - g)))
      by (apply Z.pow_le_mono_r; unfold g in *; lia).
    rewrite !Z.pow_add_r in Hpow by (unfold g in *; lia).
    set (A := 2 ^ (Zdigits2 m1 - 1)) in *. set (B := 2 ^ Zdigits2 m2) in *.
    set (P1 := 2 ^ (e1 - g)) in *. set (P2 := 2 ^ (e2 - g)) in *.
    assert (HA : 0 < A) by (apply Z.pow_pos_nonneg; lia).
    assert (HB : 0 < B) by (apply Z.pow_pos_nonneg; lia).
    assert (C1 : A * (2 * D1) * D2 * P1 <= N1 * D2 * P1).
    { apply Z.mul_le_mono_nonneg_r; [lia|]. apply Z.mul_le_mono_nonneg_r; [lia|]. nia. }
    assert (C2 : N2 * D1 * P2 < B * (2 * D2) * D1 * P2).
    { apply Z.mul_lt_mono_pos_r; [lia|]. apply Z.mul_lt_mono_pos_r; [lia|]. nia. }
    assert (C3 : (A * P1) * (2 * D1 * D2) < (B * P2) * (2 * D1 * D2)) by lia.
    assert (A * P1 < B * P2) by nia. lia. }
  destruct (Z.eq_dec E1 E2) as [Heq|Hneq].
  - clearbody E1 E2. subst E2. apply out_key_mono_same; [lia| |lia].
    apply rne_mono. rewrite Ec1, Ec2.
    assert (Hn1 : 0 < 2 ^ (E1 - e1)) by (apply Z.pow_pos_nonneg; lia).
    assert (Hn2 : 0 < 2 ^ (E1 - e2)) by (apply Z.pow_pos_nonneg; lia).
    apply qcode_mono; try lia; try nia.
    (* N1 * (D2 * 2^(E1-e2)) <= N2 * (D1 * 2^(E1-e1)) *)
    assert (T1 : 2 ^ (e1 - g) * 2 ^ (E1 - e1) = 2 ^ (E1 - g))
      by (rewrite <- Z.pow_add_r by (unfold g; lia); f_equal; lia).
    assert (T2 : 2 ^ (e2 - g) * 2 ^ (E1 - e2) = 2 ^ (E1 - g))
      by (rewrite <- Z.pow_add_r by (unfold g; lia); f_equal; lia).
    assert (HG : 0 < 2 ^ (E1 - g)) by (apply Z.pow_pos_nonneg; unfold g; lia).
    set (Q1 := 2 ^ (E1 - e1)) in *. set (Q2 := 2 ^ (E1 - e2)) in *.
    set (P1 := 2 ^ (e1 - g)) in *. set (P2 := 2 ^ (e2 - g)) in *.
    set (G := 2 ^ (E1 - g)) in *.
    assert ((N1 * D2 * Q2) * G <= (N2 * D1 * Q1) * G); [|nia].
    rewrite <- T1 at 1. rewrite <- T2.
    replace (N1 * D2 * Q2 * (P1 * Q1)) with ((N1 * D2 * P1) * (Q1 * Q2)) by ring.
    replace (N2 * D1 * Q1 * (P2 * Q2)) with ((N2 * D1 * P2) * (Q1 * Q2)) by ring.
    apply Z.mul_le_mono_nonneg_r; [nia|exact Hle].
  - apply out_key_mono_lt; [lia|lia|]. split; [apply Hnorm2; unfold E1, fexp64 in *; lia|lia].
Qed.

(** *** Numbers in canonical form *)

Lemma valid_canon (s : bool) (m : positive) (e : Z) :
  valid_binary (S754_finite s m e) = true ->
  fexp64 (Zdigits2 (Z.pos m) + e) = e /\ e <= 971.
Proof.
  unfold valid_binary, SpecFloat.valid_binary, bounded, canonical_mantissa.
  intros H. apply andb_true_iff in H. destruct H as [H1 H2].
  apply Z.eqb_eq in H1. apply Z.leb_le in H2. split; [exact H1|exact H2].
Qed.

Lemma canon_digits (m : positive) (e : Z) :
  fexp64 (Zdigits2 (Z.pos m) + e) = e ->
  -1074 <= e /\ Zdigits2 (Z.pos m) <= 53 /\ Z.pos m < 2 ^ 53 /\
  (-1074 < e -> Zdigits2 (Z.pos m) = 53 /\ 2 ^ 52 <= Z.pos m).
Proof.
  intros H. destruct (Zdigits2_bounds (Z.pos m) ltac:(lia)) as (Hp & Hl & Hu).
  unfold fexp64 in H.
  assert (Hd : Zdigits2 (Z.pos m) <= 53) by lia.
  split; [lia|]. split; [exact Hd|]. split.
  - eapply Z.lt_le_trans; [exact Hu|]. apply Z.pow_le_mono_r; lia.
  - intros He. assert (E : Zdigits2 (Z.pos m) = 53) by lia. split; [exact E|].
    rewrite E in Hl. exact Hl.
Qed.

Lemma canon_order (m : positive) (e : Z) (m' : positive) (e' : Z) :
  fexp64 (Zdigits2 (Z.pos m) + e) = e -> fexp64 (Zdigits2 (Z.pos m') + e') = e' ->
  key_le (1, e, Z.pos m) (1, e', Z.pos m') -> ple (Z.pos m) e (Z.pos m') e'.
Proof.
  intros Hc Hc' Hk.
  destruct (canon_digits m e Hc) as (He & _ & Hm & _).
  destruct (canon_digits m' e' Hc') as (_ & _ & _ & Hn').
  assert (Hcase : e < e' \/ (e = e' /\ Z.pos m <= Z.pos m')).
  { destruct Hk as [Hk|Hk]; [|injection Hk as -> ->; right; lia].
    unfold key_lt in Hk. simpl in Hk. lia. }
  unfold ple. destruct Hcase as [Hlt|[-> Hle]].
  - replace (Z.min e e') with e by lia. rewrite Z.sub_diag. change (2 ^ 0) with 1.
    destruct (Hn' ltac:(lia)) as [_ Hlow].
    assert (2 ^ 1 <= 2 ^ (e' - e)) by (apply Z.pow_le_mono_r; lia).
    change (2 ^ 1) with 2 in *. change (2 ^ 53) with (2 * 2 ^ 52) in Hm. nia.
  - rewrite Z.min_id, Z.sub_diag. lia.
Qed.

Lemma out_key_nonneg (M E : Z) : 0 <= M -> key_le (0, 0, 0) (out_key M E).
Proof.
  intros H. unfold out_key, key_le, key_lt. change (2 ^ 53) with 9007199254740992.
  change (2 ^ 52) with 4503599627370496.
  repeat match goal with
         | |- context [?a =? ?b] => destruct (Z.eqb_spec a b)
         | |- context [?a <=? ?b] => destruct (Z.leb_spec a b)
         end; try (right; reflexivity); left; simpl; lia.
Qed.

(** *** Multiplication *)

Lemma mul_pre (mx : positive) (ex : Z) (my : positive) (ey : Z) :
  fexp64 (Zdigits2 (Z.pos mx) + ex) = ex -> fexp64 (Zdigits2 (Z.pos my) + ey) = ey ->
  ex + ey <= fexp64 (Zdigits2 (Z.pos (mx * my)) + (ex + ey)).
Proof.
  intros Hx Hy.
  destruct (Zdigits2_bounds (Z.pos mx) ltac:(lia)) as (Hpx & Hlx & _).
  destruct (Zdigits2_bounds (Z.pos my) ltac:(lia)) as (Hpy & Hly & _).
  assert (Hd : Zdigits2 (Z.pos mx) + Zdigits2 (Z.pos my) - 1 <= Zdigits2 (Z.pos (mx * my))).
  { apply Zdigits2_ge; [|lia].
    replace (Zdigits2 (Z.pos mx) + Zdigits2 (Z.pos my) - 1 - 1)
      with ((Zdigits2 (Z.pos mx) - 1) + (Zdigits2 (Z.pos my) - 1)) by lia.
    rewrite Z.pow_add_r, Pos2Z.inj_mul by lia.
    apply Z.mul_le_mono_nonneg; try assumption; apply Z.pow_nonneg; lia. }
  unfold fexp64 in *. lia.
Qed.

(** Multiplication of nonnegative finite numbers is monotone. *)
Lemma SFmul_mono (mx : positive) (ex : Z) (my : positive) (ey : Z)
    (mx' : positive) (ex' : Z) (my' : positive) (ey' : Z) :
  fexp64 (Zdigits2 (Z.pos mx) + ex) = ex -> fexp64 (Zdigits2 (Z.pos my) + ey) = ey ->
  fexp64 (Zdigits2 (Z.pos mx') + ex') = ex' -> fexp64 (Zdigits2 (Z.pos my') + ey') = ey' ->
  key_le (1, ex, Z.pos mx) (1, ex', Z.pos mx') ->
  key_le (1, ey, Z.pos my) (1, ey', Z.pos my') ->
  exists k1 k2,
    sf_key (SF64mul (S754_finite false mx ex) (S754_finite false my ey)) = Some k1 /\
    sf_key (SF64mul (S754_finite false mx' ex') (S754_finite false my' ey')) = Some k2 /\
    key_le k1 k2.
Proof.
  intros Hx Hy Hx' Hy' Kx Ky. unfold SF64mul, SFmul. simpl xorb.
  apply (round_mono _ _ _ 1 (2 * Z.pos (mx * my)) _ _ _ 1 (2 * Z.pos (mx' * my')));
    try lia; try (symmetry; apply qcode_exact); try (apply mul_pre; assumption).
  rewrite !Z.mul_1_r. apply ple_scale; [lia|]. rewrite !Pos2Z.inj_mul.
  apply ple_mul; try lia; apply canon_order; assumption.
Qed.

(** *** Addition *)

Lemma iter_xO (m d : positive) :
  Z.pos (Pos.iter xO m d) = Z.pos m * 2 ^ Z.pos d /\
  Z.pos (digits2_pos (Pos.iter xO m d)) = Z.pos (digits2_pos m) + Z.pos d.
Proof.
  induction d as [|d IH] using Pos.peano_ind.
  - simpl. split; lia.
  - rewrite Pos.iter_succ. destruct IH as [IH1 IH2].
    change (digits2_pos (Pos.iter xO m d)~0) with (Pos.succ (digits2_pos (Pos.iter xO m d))).
    rewrite Pos2Z.inj_xO, IH1, !Pos2Z.inj_succ.
    rewrite Z.pow_succ_r by lia. split; lia.
Qed.

Lemma shl_align_spec (m : positive) (e e' : Z) :
  Z.pos (fst (shl_align m e e')) = Z.pos m * 2 ^ (e - snd (shl_align m e e')) /\
  snd (shl_align m e e') = Z.min e e' /\
  Zdigits2 (Z.pos (fst (shl_align m e e'))) + snd (shl_align m e e')
    = Zdigits2 (Z.pos m) + e.
Proof.
  unfold shl_align. destruct (e' - e) as [|d|d] eqn:E; simpl fst; simpl snd.
  - rewrite Z.sub_diag. simpl. split; [lia|]. split; lia.
  - rewrite Z.sub_diag. simpl. split; [lia|]. split; lia.
  - destruct (iter_xO m d) as [H1 H2]. simpl Zdigits2. rewrite H2, H1.
    replace (e - e') with (Z.pos d) by lia. split; [reflexivity|]. split; lia.
Qed.

(** [binary_round] of a positive integer is the rounding of an aligned
    mantissa that satisfies the condition of [bra_key]. *)
Lemma binary_round_align (m : positive) (e : Z) :
  exists (mz : positive) (ez : Z),
    binary_round prec emax false m e = binary_round_aux prec emax false (Z.pos mz) ez loc_Exact /\
    ez <= e /\ Z.pos mz = Z.pos m * 2 ^ (e - ez) /\
    ez <= fexp64 (Zdigits2 (Z.pos mz) + ez).
Proof.
  unfold binary_round. change (SpecFloat.fexp prec emax) with fexp64.
  pose proof (shl_align_spec m e (fexp64 (Z.pos (digits2_pos m) + e))) as (H1 & H2 & H3).
  destruct (shl_align m e (fexp64 (Z.pos (digits2_pos m) + e))) as [mz ez].
  simpl fst in *. simpl snd in *. exists mz, ez.
  split; [reflexivity|]. split; [lia|]. split; [exact H1|].
  rewrite H3. simpl Zdigits2. lia.
Qed.

Lemma SFadd_finite (mx : positive) (ex : Z) (my : positive) (ey : Z) :
  exists (mz : positive) (ez : Z),
    SF64add (S754_finite false mx ex) (S754_finite false my ey)
      = binary_round_aux prec emax false (Z.pos mz) ez loc_Exact /\
    ez <= fexp64 (Zdigits2 (Z.pos mz) + ez) /\
    ez <= Z.min ex ey /\
    Z.pos mz = (Z.pos mx * 2 ^ (ex - Z.min ex ey) + Z.pos my * 2 ^ (ey - Z.min ex ey))
               * 2 ^ (Z.min ex ey - ez).
Proof.
  unfold SF64add, SFadd. cbv zeta. unfold cond_Zopp.
  pose proof (shl_align_spec mx ex (Z.min ex ey)) as (Hx1 & Hx2 & _).
  pose proof (shl_align_spec my ey (Z.min ex ey)) as (Hy1 & Hy2 & _).
  rewrite Hx2 in Hx1. rewrite Hy2 in Hy1.
  replace (Z.min ex (Z.min ex ey)) with (Z.min ex ey) in Hx1 by lia.
  replace (Z.min ey (Z.min ex ey)) with (Z.min ex ey) in Hy1 by lia.
  rewrite <- Hx1, <- Hy1. simpl Z.add. unfold binary_normalize.
  destruct (binary_round_align (fst (shl_align mx ex (Z.min ex ey))
                                + fst (shl_align my ey (Z.min ex ey))) (Z.min ex ey))
    as (mz & ez & Hr & Hle & Hv & Hp).
  exists mz, ez. split; [exact Hr|]. split; [exact Hp|]. split; [exact Hle|].
  rewrite Hv, Pos2Z.inj_add. reflexivity.
Qed.

(** Addition of nonnegative finite numbers is monotone. *)
Lemma SFadd_mono (mx : positive) (ex : Z) (my : positive) (ey : Z)
    (mx' : positive) (ex' : Z) (my' : positive) (ey' : Z) :
  fexp64 (Zdigits2 (Z.pos mx) + ex) = ex -> fexp64 (Zdigits2 (Z.pos my) + ey) = ey ->
  fexp64 (Zdigits2 (Z.pos mx') + ex') = ex' -> fexp64 (Zdigits2 (Z.pos my') + ey') = ey' ->
  key_le (1, ex, Z.pos mx) (1, ex', Z.pos mx') ->
  key_le (1, ey, Z.pos my) (1, ey', Z.pos my') ->
  exists k1 k2,
    sf_key (SF64add (S754_finite false mx ex) (S754_finite false my ey)) = Some k1 /\
    sf_key (SF64add (S754_finite false mx' ex') (S754_finite false my' ey')) = Some k2 /\
    key_le k1 k2.
Proof.
  intros Hx Hy Hx' Hy' Kx Ky.
  destruct (SFadd_finite mx ex my ey) as (mz & ez & -> & Hp & Hle & Hv).
  destruct (SFadd_finite mx' ex' my' ey') as (mz' & ez' & -> & Hp' & Hle' & Hv').
  apply (round_mono _ _ _ 1 (2 * Z.pos mz) _ _ _ 1 (2 * Z.pos mz'));
    try lia; try (symmetry; apply qcode_exact).
  rewrite !Z.mul_1_r. apply ple_scale; [lia|]. rewrite Hv, Hv'.
  set (g := Z.min ex ey) in *. set (g' := Z.min ex' ey') in *.
  apply ple_pow_l; [lia|]. apply ple_pow_r; [lia|].
  replace (ez + (g - ez)) with g by lia. replace (ez' + (g' - ez')) with g' by lia.
  apply ple_add.
  - apply ple_pow_l; [unfold g; lia|]. apply ple_pow_r; [unfold g'; lia|].
    replace (g + (ex - g)) with ex by lia. replace (g' + (ex' - g')) with ex' by lia.
    apply canon_order; assumption.
  - apply ple_pow_l; [unfold g; lia|]. apply ple_pow_r; [unfold g'; lia|].
    replace (g + (ey - g)) with ey by lia. replace (g' + (ey' - g')) with ey' by lia.
    apply canon_order; assumption.
Qed.

(** *** Division *)

Lemma new_location_code (q B r : Z) :
  0 < B -> 0 <= r < B -> 0 <= q ->
  lcode q (new_location B r) = qcode B (2 * (B * q + r)).
Proof.
  intros HB Hr Hq. unfold qcode.
  assert (Hcases : (r = 0 /\ new_location B r = loc_Exact) \/
                   (0 < r /\ 2 * r < B /\ new_location B r = loc_Inexact Lt) \/
                   (2 * r = B /\ new_location B r = loc_Inexact Eq) \/
                   (B < 2 * r /\ new_location B r = loc_Inexact Gt)).
  { unfold new_location. destruct (Z.even B) eqn:Ev;
      unfold new_location_even, new_location_odd; destruct (Z.eqb_spec r 0) as [->|Hr0];
      try (left; split; reflexivity); right.
    - destruct (Z.compare_spec (2 * r) B); [right; left|left|right; right];
        try (split; [lia|reflexivity]).
      split; [lia|]. split; [assumption|reflexivity].
    - assert (Hodd : B mod 2 = 1).
      { rewrite <- Z.negb_odd in Ev. apply negb_false_iff in Ev.
        apply Z.odd_spec in Ev. destruct Ev as [k ->].
        Z.div_mod_to_equations. lia. }
      destruct (Z.compare_spec (2 * r + 1) B); [left|left|right; right];
        try (split; [lia|split; [lia|reflexivity]]).
      split; [|reflexivity]. Z.div_mod_to_equations. lia. }
  destruct Hcases as [[-> ->]|[(H0 & H1 & ->)|[(H1 & ->)|(H1 & ->)]]].
  - rewrite Z.add_0_r.
    replace (2 * (B * q)) with (2 * q * B) by ring.
    rewrite Z.div_mul, Z.mod_mul by lia. simpl. unfold lcode, rcode. simpl. lia.
  - assert (Ed : 2 * (B * q + r) / B = 2 * q)
      by (symmetry; apply (Z.div_unique_pos _ _ _ (2 * r)); lia).
    assert (Em : 2 * (B * q + r) mod B = 2 * r)
      by (symmetry; apply (Z.mod_unique_pos _ _ (2 * q)); lia).
    rewrite Ed, Em. destruct (Z.eqb_spec (2 * r) 0); [lia|].
    unfold lcode, rcode. simpl. lia.
  - assert (Ed : 2 * (B * q + r) / B = 2 * q + 1)
      by (symmetry; apply (Z.div_unique_pos _ _ _ 0); lia).
    assert (Em : 2 * (B * q + r) mod B = 0)
      by (symmetry; apply (Z.mod_unique_pos _ _ (2 * q + 1)); lia).
    rewrite Ed, Em. unfold lcode, rcode. simpl. lia.
  - assert (Ed : 2 * (B * q + r) / B = 2 * q + 1)
      by (symmetry; apply (Z.div_unique_pos _ _ _ (2 * r - B)); lia).
    assert (Em : 2 * (B * q + r) mod B = 2 * r - B)
      by (symmetry; apply (Z.mod_unique_pos _ _ (2 * q + 1)); lia).
    rewrite Ed, Em. destruct (Z.eqb_spec (2 * r - B) 0); [lia|].
    unfold lcode, rcode. simpl. lia.
Qed.

Lemma fexp64_mono (a b : Z) : a <= b -> fexp64 a <= fexp64 b.
Proof. unfold fexp64. lia. Qed.

Lemma SFdiv_core_spec (mx : positive) (ex : Z) (my : positive) (ey : Z) :
  exists (q e' : Z) (l : location) (s : Z),
    SFdiv_core_binary prec emax (Z.pos mx) ex (Z.pos my) ey = (q, e', l) /\
    0 <= s /\ e' + s = ex - ey /\ 0 <= q /\
    lcode q l = qcode (Z.pos my) (2 * (Z.pos mx * 2 ^ s)) /\
    e' <= fexp64 (Zdigits2 q + e').
Proof.
  unfold SFdiv_core_binary. change (SpecFloat.fexp prec emax) with fexp64.
  set (d1 := Zdigits2 (Z.pos mx)). set (d2 := Zdigits2 (Z.pos my)).
  set (e' := Z.min (fexp64 (d1 + ex - (d2 + ey))) (ex - ey)).
  set (s := ex - ey - e').
  assert (Hs : 0 <= s) by (unfold s, e'; lia).
  set (m' := match s with Z.pos _ => Z.shiftl (Z.pos mx) s | 0 => Z.pos mx | Z.neg _ => 0 end).
  assert (Hm' : m' = Z.pos mx * 2 ^ s).
  { unfold m'. destruct s as [|p|p]; [simpl; lia| |lia].
    apply Z.shiftl_mul_pow2. lia. }
  pose proof (Z_div_mod m' (Z.pos my) ltac:(lia)) as Hdm.
  destruct (Z.div_eucl m' (Z.pos my)) as [q r]. destruct Hdm as [Hdm Hr].
  assert (H2s : 0 < 2 ^ s) by (apply Z.pow_pos_nonneg; lia).
  assert (Hq : 0 <= q) by nia.
  exists q, e', (new_location (Z.pos my) r), s.
  split; [reflexivity|]. split; [exact Hs|]. split; [unfold s; lia|]. split; [exact Hq|].
  split.
  - rewrite <- Hm', Hdm. apply new_location_code; lia.
  - assert (Hd : d1 + s - d2 <= Zdigits2 q).
    { destruct (Z.le_gt_cases (d1 + s - d2) 0) as [Hle|Hgt].
      - destruct (Z.eq_dec q 0) as [->|]; [simpl; lia|].
        destruct (Zdigits2_bounds q ltac:(lia)) as (? & _ & _). lia.
      - apply Zdigits2_ge; [|lia].
        destruct (Zdigits2_bounds (Z.pos mx) ltac:(lia)) as (Hp1 & Hl1 & _).
        destruct (Zdigits2_bounds (Z.pos my) ltac:(lia)) as (Hp2 & _ & Hu2).
        fold d1 in Hl1, Hp1. fold d2 in Hu2, Hp2.
        assert (E1 : 2 ^ (d1 - 1 + s) = 2 ^ (d1 + s - d2 - 1) * 2 ^ d2)
          by (rewrite <- Z.pow_add_r by lia; f_equal; lia).
        assert (E2 : 2 ^ (d1 - 1 + s) = 2 ^ (d1 - 1) * 2 ^ s)
          by (rewrite <- Z.pow_add_r by lia; reflexivity).
        assert (H1 : 2 ^ (d1 - 1 + s) <= m') by (rewrite Hm', E2; nia).
        assert (H2 : m' < 2 ^ d2 * (q + 1)) by nia.
        assert (0 < 2 ^ (d1 + s - d2 - 1)) by (apply Z.pow_pos_nonneg; lia).
        nia. }
    assert (fexp64 (d1 + ex - (d2 + ey)) <= fexp64 (Zdigits2 q + e'))
      by (apply fexp64_mono; unfold s in *; lia).
    unfold e' at 1. lia.
Qed.

(** Division of positive finite numbers is monotone in the dividend and
    antitone in the divisor. *)
Lemma SFdiv_mono (mx : positive) (ex : Z) (my : positive) (ey : Z)
    (mx' : positive) (ex' : Z) (my' : positive) (ey' : Z) :
  fexp64 (Zdigits2 (Z.pos mx) + ex) = ex -> fexp64 (Zdigits2 (Z.pos my) + ey) = ey ->
  fexp64 (Zdigits2 (Z.pos mx') + ex') = ex' -> fexp64 (Zdigits2 (Z.pos my') + ey') = ey' ->
  key_le (1, ex, Z.pos mx) (1, ex', Z.pos mx') ->
  key_le (1, ey', Z.pos my') (1, ey, Z.pos my) ->
  exists k1 k2,
    sf_key (SF64div (S754_finite false mx ex) (S754_finite false my ey)) = Some k1 /\
    sf_key (SF64div (S754_finite false mx' ex') (S754_finite false my' ey')) = Some k2 /\
    key_le k1 k2.
Proof.
  intros Hx Hy Hx' Hy' Kx Ky. unfold SF64div, SFdiv. simpl xorb.
  destruct (SFdiv_core_spec mx ex my ey) as (q & e1 & l & s & -> & Hs & He & Hq & Hl & Hp).
  destruct (SFdiv_core_spec mx' ex' my' ey')
    as (q' & e1' & l' & s' & -> & Hs' & He' & Hq' & Hl' & Hp').
  assert (H2s : 0 < 2 ^ s) by (apply Z.pow_pos_nonneg; lia).
  assert (H2s' : 0 < 2 ^ s') by (apply Z.pow_pos_nonneg; lia).
  apply (round_mono _ _ _ (Z.pos my) (2 * (Z.pos mx * 2 ^ s))
           _ _ _ (Z.pos my') (2 * (Z.pos mx' * 2 ^ s'))); try lia; try assumption.
  replace (2 * (Z.pos mx * 2 ^ s) * Z.pos my') with (2 * ((Z.pos mx * Z.pos my') * 2 ^ s))
    by ring.
  replace (2 * (Z.pos mx' * 2 ^ s') * Z.pos my) with (2 * ((Z.pos mx' * Z.pos my) * 2 ^ s'))
    by ring.
  apply ple_scale; [lia|]. apply ple_pow_l; [lia|]. apply ple_pow_r; [lia|].
  rewrite He, He'.
  apply (ple_shift _ _ _ _ (ey + ey')).
  replace (ex - ey + (ey + ey')) with (ex + ey') by lia.
  replace (ex' - ey' + (ey + ey')) with (ex' + ey) by lia.
  apply ple_mul; try lia; apply canon_order; assumption.
Qed.

(** *** Numbers that are finite and not negative *)

Lemma nnf_bounded (x C : float) :
  (0 <=? x)%float = true -> (x <=? C)%float = true -> nnf C -> nnf x.
Proof.
  rewrite !leb_spec. unfold nnf. change (Prim2SF 0) with (S754_zero false).
  destruct (Prim2SF x) as [[]|[]| |[] m e], (Prim2SF C) as [[]|[]| |[] m' e'];
    simpl; intros H0 H1 HC; try discriminate; try contradiction; exact I.
Qed.

Lemma nnf_key (x : float) :
  nnf x ->
  (float_key x = Some (0, 0, 0) /\ exists s, Prim2SF x = S754_zero s) \/
  (exists m e, Prim2SF x = S754_finite false m e /\ float_key x = Some (1, e, Z.pos m) /\
               fexp64 (Zdigits2 (Z.pos m) + e) = e /\ e <= 971).
Proof.
  unfold nnf, float_key. pose proof (Prim2SF_valid x) as Hv.
  destruct (Prim2SF x) as [s|[]| |[] m e]; try contradiction; intros _.
  - left. split; [reflexivity|]. exists s. reflexivity.
  - right. exists m, e. destruct (valid_canon _ _ _ Hv) as [H1 H2]. auto.
Qed.

Lemma leb_keys (x y : float) (a b : Z * Z * Z) :
  float_key x = Some a -> float_key y = Some b -> key_le a b -> (x <=? y)%float = true.
Proof. intros Ha Hb H. apply leb_key. exists a, b. auto. Qed.

Lemma leb_keys_inv (x y : float) (a b : Z * Z * Z) :
  float_key x = Some a -> float_key y = Some b -> (x <=? y)%float = true -> key_le a b.
Proof.
  intros Ha Hb H. apply leb_key in H. destruct H as (a' & b' & Ha' & Hb' & H).
  rewrite Ha in Ha'. rewrite Hb in Hb'. injection Ha' as <-. injection Hb' as <-. exact H.
Qed.

Lemma key_le_zero_fin (e : Z) (m : positive) : ~ key_le (1, e, Z.pos m) (0, 0, 0).
Proof. intros [H|H]; [unfold key_lt in H; simpl in H; lia|discriminate]. Qed.

Lemma key_le_trans (a b c : Z * Z * Z) : key_le a b -> key_le b c -> key_le a c.
Proof.
  destruct a as [[a1 a2] a3], b as [[b1 b2] b3], c as [[c1 c2] c3].
  intros [H1|H1] [H2|H2]; try (injection H1 as -> -> ->); try (injection H2 as -> -> ->);
    try (left; assumption); try (right; reflexivity).
  left. unfold key_lt in *. simpl in *. lia.
Qed.

Lemma key_le_refl (a : Z * Z * Z) : key_le a a.
Proof. right. reflexivity. Qed.

(** Rounding a number in canonical form gives the number. *)
Lemma bra_id (m : positive) (e : Z) :
  fexp64 (Zdigits2 (Z.pos m) + e) = e -> e <= 971 ->
  binary_round_aux prec emax false (Z.pos m) e loc_Exact = S754_finite false m e.
Proof.
  intros Hc He. unfold binary_round_aux, shr_fexp.
  change (SpecFloat.fexp prec emax) with fexp64. rewrite Hc, Z.sub_diag. simpl shr.
  cbv beta iota. simpl shr_m. simpl loc_of_shr_record. simpl round_nearest_even.
  rewrite Hc, Z.sub_diag. simpl. change (emax - prec) with 971.
  destruct (Z.leb_spec e 971); [reflexivity|lia].
Qed.

Lemma out_keys_nonneg (m : Z) (l : location) (e : Z) :
  0 <= m -> e <= fexp64 (Zdigits2 m + e) ->
  exists k, sf_key (binary_round_aux prec emax false m e l) = Some k /\ key_le (0, 0, 0) k.
Proof.
  intros Hm Hp. rewrite (bra_key m l e Hm Hp). eexists. split; [reflexivity|].
  apply out_key_nonneg.
  pose proof (rne_bounds (qcode (2 * 2 ^ (fexp64 (Zdigits2 m + e) - e)) (lcode m l))) as [H _].
  eapply Z.le_trans; [|exact H]. apply Z.div_pos; [|lia].
  apply qcode_nonneg; [|apply lcode_nonneg; exact Hm].
  assert (0 < 2 ^ (fexp64 (Zdigits2 m + e) - e)) by (apply Z.pow_pos_nonneg; lia). lia.
Qed.

(** *** Multiplication, addition and division keep the order *)

Lemma mul_nonneg (x y : float) :
  nnf x -> nnf y -> exists k, float_key (x * y) = Some k /\ key_le (0, 0, 0) k.
Proof.
  intros Hx Hy. unfold float_key. rewrite mul_spec.
  destruct (nnf_key x Hx) as [[_ [s ->]]|(m & e & -> & _ & Hc & _)];
    destruct (nnf_key y Hy) as [[_ [s' ->]]|(m' & e' & -> & _ & Hc' & _)];
    try (exists (0, 0, 0); split; [reflexivity|apply key_le_refl]).
  unfold SF64mul, SFmul. simpl xorb. apply out_keys_nonneg; [lia|].
  apply mul_pre; assumption.
Qed.

(** The same on [float], for numbers that are zero or positive and
    finite. *)
Theorem mul_mono (x x' y y' : float) :
  nnf x -> nnf y -> nnf x' -> nnf y' ->
  (x <=? x')%float = true -> (y <=? y')%float = true ->
  (x * y <=? x' * y')%float = true.
Proof.
  intros Hx Hy Hx' Hy' Lx Ly.
  destruct (mul_nonneg x' y' Hx' Hy') as (k' & Hk' & Hnn).
  destruct (nnf_key x Hx) as [[Kx [s Ex]]|(m & e & Ex & Kx & Hc & _)].
  { apply (leb_keys _ _ (0, 0, 0) k'); [|exact Hk'|exact Hnn].
    unfold float_key. rewrite mul_spec, Ex.
    destruct (nnf_key y Hy) as [[_ [s' ->]]|(? & ? & -> & _)]; reflexivity. }
  destruct (nnf_key y Hy) as [[Ky [s Ey]]|(n & f & Ey & Ky & Hd & _)].
  { apply (leb_keys _ _ (0, 0, 0) k'); [|exact Hk'|exact Hnn].
    unfold float_key. rewrite mul_spec, Ex, Ey. reflexivity. }
  destruct (nnf_key x' Hx') as [[Kx' _]|(m' & e' & Ex' & Kx' & Hc' & _)].
  { exfalso. apply (key_le_zero_fin e m). apply (leb_keys_inv x x'); assumption. }
  destruct (nnf_key y' Hy') as [[Ky' _]|(n' & f' & Ey' & Ky' & Hd' & _)].
  { exfalso. apply (key_le_zero_fin f n). apply (leb_keys_inv y y'); assumption. }
  destruct (SFmul_mono m e n f m' e' n' f' Hc Hd Hc' Hd'
              (leb_keys_inv x x' _ _ Kx Kx' Lx) (leb_keys_inv y y' _ _ Ky Ky' Ly))
    as (k1 & k2 & H1 & H2 & H12).
  apply (leb_keys _ _ k1 k2); [| |exact H12]; unfold float_key; rewrite mul_spec;
    [rewrite Ex, Ey|rewrite Ex', Ey']; assumption.
Qed.

Lemma ple_weaken_r (X a Y Y' b : Z) : Y <= Y' -> ple X a Y b -> ple X a Y' b.
Proof.
  unfold ple. intros H H'. assert (0 < 2 ^ (b - Z.min a b)) by (apply Z.pow_pos_nonneg; lia).
  nia.
Qed.

Lemma SFadd_ge_r (m : positive) (e : Z) (mx' : positive) (ex' : Z) (my' : positive) (ey' : Z) :
  fexp64 (Zdigits2 (Z.pos m) + e) = e -> e <= 971 ->
  fexp64 (Zdigits2 (Z.pos my') + ey') = ey' ->
  key_le (1, e, Z.pos m) (1, ey', Z.pos my') ->
  exists k,
    sf_key (SF64add (S754_finite false mx' ex') (S754_finite false my' ey')) = Some k /\
    key_le (1, e, Z.pos m) k.
Proof.
  intros Hc He Hy' Ky.
  destruct (SFadd_finite mx' ex' my' ey') as (mz' & ez' & -> & Hp' & Hle' & Hv').
  destruct (round_mono (Z.pos m) loc_Exact e 1 (2 * Z.pos m)
              (Z.pos mz') loc_Exact ez' 1 (2 * Z.pos mz')) as (k1 & k2 & H1 & H2 & H12);
    try lia; try (symmetry; apply qcode_exact).
  - rewrite !Z.mul_1_r. apply ple_scale; [lia|]. rewrite Hv'.
    set (g' := Z.min ex' ey') in *.
    apply ple_pow_r; [lia|]. replace (ez' + (g' - ez')) with g' by lia.
    apply (ple_weaken_r _ _ (Z.pos my' * 2 ^ (ey' - g'))).
    + assert (0 < 2 ^ (ex' - g')) by (apply Z.pow_pos_nonneg; unfold g'; lia). nia.
    + apply ple_pow_r; [unfold g'; lia|]. replace (g' + (ey' - g')) with ey' by lia.
      apply canon_order; assumption.
  - rewrite (bra_id m e Hc He) in H1. injection H1 as <-. exists k2. auto.
Qed.

Lemma SFadd_comm_fin (mx : positive) (ex : Z) (my : positive) (ey : Z) :
  SF64add (S754_finite false mx ex) (S754_finite false my ey)
  = SF64add (S754_finite false my ey) (S754_finite false mx ex).
Proof.
  unfold SF64add, SFadd. cbv zeta. rewrite (Z.min_comm ey ex). f_equal. apply Z.add_comm.
Qed.

Lemma add_nonneg (x y : float) :
  nnf x -> nnf y -> exists k, float_key (x + y) = Some k /\ key_le (0, 0, 0) k.
Proof.
  intros Hx Hy. unfold float_key. rewrite add_spec.
  destruct (nnf_key x Hx) as [[_ [s ->]]|(m & e & -> & _ & Hc & _)];
    destruct (nnf_key y Hy) as [[_ [s' ->]]|(m' & e' & -> & _ & Hc' & _)].
  - exists (0, 0, 0). split; [destruct s, s'; reflexivity|apply key_le_refl].
  - eexists. split; [reflexivity|]. left. unfold key_lt. simpl. lia.
  - eexists. split; [reflexivity|]. left. unfold key_lt. simpl. lia.
  - destruct (SFadd_finite m e m' e') as (mz & ez & -> & Hp & _).
    apply out_keys_nonneg; [lia|exact Hp].
Qed.

Theorem add_mono (x x' y y' : float) :
  nnf x -> nnf y -> nnf x' -> nnf y' ->
  (x <=? x')%float = true -> (y <=? y')%float = true ->
  (x + y <=? x' + y')%float = true.
Proof.
  intros Hx Hy Hx' Hy' Lx Ly.
  destruct (add_nonneg x' y' Hx' Hy') as (k' & Hk' & Hnn).
  destruct (nnf_key x Hx) as [[Kx [s Ex]]|(m & e & Ex & Kx & Hc & He)];
    destruct (nnf_key y Hy) as [[Ky [t Ey]]|(n & f & Ey & Ky & Hd & Hf)].
  - apply (leb_keys _ _ (0, 0, 0) k'); [|exact Hk'|exact Hnn].
    unfold float_key. rewrite add_spec, Ex, Ey. destruct s, t; reflexivity.
  - (* 0 + y = y *)
    assert (E1 : float_key (x + y) = Some (1, f, Z.pos n)).
    { unfold float_key. rewrite add_spec, Ex, Ey. reflexivity. }
    destruct (nnf_key y' Hy') as [[Ky' _]|(n' & f' & Ey' & Ky' & Hd' & _)].
    { exfalso. apply (key_le_zero_fin f n). apply (leb_keys_inv y y'); assumption. }
    pose proof (leb_keys_inv y y' _ _ Ky Ky' Ly) as Kyy.
    destruct (nnf_key x' Hx') as [[Kx' [s' Ex']]|(m' & e' & Ex' & Kx' & Hc' & _)].
    + apply (leb_keys _ _ _ (1, f', Z.pos n') E1); [|exact Kyy].
      unfold float_key. rewrite add_spec, Ex', Ey'. reflexivity.
    + destruct (SFadd_ge_r n f m' e' n' f' Hd Hf Hd' Kyy) as (k & Hk & Hle).
      apply (leb_keys _ _ _ k E1); [|exact Hle].
      unfold float_key. rewrite add_spec, Ex', Ey'. exact Hk.
  - (* x + 0 = x *)
    assert (E1 : float_key (x + y) = Some (1, e, Z.pos m)).
    { unfold float_key. rewrite add_spec, Ex, Ey. reflexivity. }
    destruct (nnf_key x' Hx') as [[Kx' _]|(m' & e' & Ex' & Kx' & Hc' & _)].
    { exfalso. apply (key_le_zero_fin e m). apply (leb_keys_inv x x'); assumption. }
    pose proof (leb_keys_inv x x' _ _ Kx Kx' Lx) as Kxx.
    destruct (nnf_key y' Hy') as [[Ky' [t' Ey']]|(n' & f' & Ey' & Ky' & Hd' & _)].
    + apply (leb_keys _ _ _ (1, e', Z.pos m') E1); [|exact Kxx].
      unfold float_key. rewrite add_spec, Ex', Ey'. reflexivity.
    + destruct (SFadd_ge_r m e n' f' m' e' Hc He Hc' Kxx) as (k & Hk & Hle).
      apply (leb_keys _ _ _ k E1); [|exact Hle].
      unfold float_key. rewrite add_spec, Ex', Ey', SFadd_comm_fin. exact Hk.
  - destruct (nnf_key x' Hx') as [[Kx' _]|(m' & e' & Ex' & Kx' & Hc' & _)].
    { exfalso. apply (key_le_zero_fin e m). apply (leb_keys_inv x x'); assumption. }
    destruct (nnf_key y' Hy') as [[Ky' _]|(n' & f' & Ey' & Ky' & Hd' & _)].
    { exfalso. apply (key_le_zero_fin f n). apply (leb_keys_inv y y'); assumption. }
    destruct (SFadd_mono m e n f m' e' n' f' Hc Hd Hc' Hd'
                (leb_keys_inv x x' _ _ Kx Kx' Lx) (leb_keys_inv y y' _ _ Ky Ky' Ly))
      as (k1 & k2 & H1 & H2 & H12).
    apply (leb_keys _ _ k1 k2); [| |exact H12]; unfold float_key; rewrite add_spec;
      [rewrite Ex, Ey|rewrite Ex', Ey']; assumption.
Qed.

Lemma positive_finite_nnf (x : float) : positive_finite x -> nnf x.
Proof. intros (m & e & H). unfold nnf. rewrite H. exact I. Qed.

Lemma positive_finite_bounded (x lo hi : float) :
  positive_finite lo -> nnf hi -> (lo <=? x)%float = true -> (x <=? hi)%float = true ->
  positive_finite x.
Proof.
  intros (m & e & Hlo) Hhi. rewrite !leb_spec, Hlo. unfold nnf in Hhi. unfold positive_finite.
  destruct (Prim2SF x) as [[]|[]| |[] m' e'], (Prim2SF hi) as [[]|[]| |[] m'' e''];
    simpl; intros H0 H1; try discriminate; try contradiction; eauto.
Qed.

Lemma div_nonneg (x y : float) :
  nnf x -> positive_finite y -> exists k, float_key (x / y) = Some k /\ key_le (0, 0, 0) k.
Proof.
  intros Hx (n & f & Ey). unfold float_key. rewrite div_spec, Ey.
  destruct (nnf_key x Hx) as [[_ [s ->]]|(m & e & -> & _ & Hc & _)].
  - exists (0, 0, 0). split; [reflexivity|apply key_le_refl].
  - unfold SF64div, SFdiv. simpl xorb.
    destruct (SFdiv_core_spec m e n f) as (q & e1 & l & s & -> & Hs & He & Hq & Hl & Hp).
    apply out_keys_nonneg; assumption.
Qed.

Theorem div_mono (x x' y y' : float) :
  nnf x -> nnf x' -> positive_finite y -> positive_finite y' ->
  (x <=? x')%float = true -> (y' <=? y)%float = true ->
  (x / y <=? x' / y')%float = true.
Proof.
  intros Hx Hx' Hy Hy' Lx Ly.
  destruct (div_nonneg x' y' Hx' Hy') as (k' & Hk' & Hnn).
  pose proof Hy as Py. pose proof Hy' as Py'.
  destruct Hy as (n & f & Ey), Hy' as (n' & f' & Ey').
  pose proof (Prim2SF_valid y) as Vy. rewrite Ey in Vy. apply valid_canon in Vy.
  pose proof (Prim2SF_valid y') as Vy'. rewrite Ey' in Vy'. apply valid_canon in Vy'.
  assert (Ky : float_key y = Some (1, f, Z.pos n)) by (unfold float_key; rewrite Ey; reflexivity).
  assert (Ky' : float_key y' = Some (1, f', Z.pos n'))
    by (unfold float_key; rewrite Ey'; reflexivity).
  destruct (nnf_key x Hx) as [[Kx [s Ex]]|(m & e & Ex & Kx & Hc & He)].
  { apply (leb_keys _ _ (0, 0, 0) k'); [|exact Hk'|exact Hnn].
    unfold float_key. rewrite div_spec, Ex, Ey. reflexivity. }
  destruct (nnf_key x' Hx') as [[Kx' _]|(m' & e' & Ex' & Kx' & Hc' & _)].
  { exfalso. apply (key_le_zero_fin e m). apply (leb_keys_inv x x'); assumption. }
  destruct (SFdiv_mono m e n f m' e' n' f' Hc (proj1 Vy) Hc' (proj1 Vy')
              (leb_keys_inv x x' _ _ Kx Kx' Lx) (leb_keys_inv y' y _ _ Ky' Ky Ly))
    as (k1 & k2 & H1 & H2 & H12).
  apply (leb_keys _ _ k1 k2); [| |exact H12]; unfold float_key; rewrite div_spec;
    [rewrite Ex, Ey|rewrite Ex', Ey']; assumption.
Qed.

(** A finite number other than zero divided by itself is 1. *)
Theorem div_self (x : float) (s : bool) (m : positive) (e : Z) :
  Prim2SF x = S754_finite s m e -> (x / x)%float = 1%float.
Proof.
  intros Ex. apply Prim2SF_inj. rewrite div_spec, Ex.
  unfold SF64div, SFdiv, SFdiv_core_binary.
  replace (xorb s s) with false by (destruct s; reflexivity).
  rewrite !Z.sub_diag. change (SpecFloat.fexp prec emax 0) with (-53).
  change (Z.min (-53) 0) with (-53). change (0 - -53) with 53.
  cbv beta iota zeta.
  pose proof (Z_div_mod (Z.shiftl (Z.pos m) 53) (Z.pos m) ltac:(lia)) as Hdm.
  rewrite Z.shiftl_mul_pow2 in Hdm by lia. rewrite Z.shiftl_mul_pow2 by lia.
  destruct (Z.div_eucl (Z.pos m * 2 ^ 53) (Z.pos m)) as [q r]. destruct Hdm as [Hdm Hr].
  assert (Hq : q = 2 ^ 53) by nia. assert (Hr0 : r = 0) by nia. subst q r.
  assert (Hl : new_location (Z.pos m) 0 = loc_Exact).
  { unfold new_location. destruct (Z.even (Z.pos m)); reflexivity. }
  rewrite Hl. vm_compute. reflexivity.
Qed.


(** ** The contrast ratio *)

Lemma leb_0_key (x : float) (k : Z * Z * Z) :
  float_key x = Some k -> key_le (0, 0, 0) k -> (0 <=? x)%float = true.
Proof. intros Hk H. apply (leb_keys _ _ (0, 0, 0) k); [reflexivity|exact Hk|exact H]. Qed.

Lemma mul_ge0 (x y : float) : nnf x -> nnf y -> (0 <=? x * y)%float = true.
Proof. intros Hx Hy. destruct (mul_nonneg x y Hx Hy) as (k & Hk & H). eapply leb_0_key; eassumption. Qed.

Lemma add_ge0 (x y : float) : nnf x -> nnf y -> (0 <=? x + y)%float = true.
Proof. intros Hx Hy. destruct (add_nonneg x y Hx Hy) as (k & Hk & H). eapply leb_0_key; eassumption. Qed.

Lemma div_ge0 (x y : float) : nnf x -> positive_finite y -> (0 <=? x / y)%float = true.
Proof. intros Hx Hy. destruct (div_nonneg x y Hx Hy) as (k & Hk & H). eapply leb_0_key; eassumption. Qed.

Lemma nnf_const (c : float) (s : bool) :
  Prim2SF c = S754_zero s \/ (exists m e, Prim2SF c = S754_finite false m e) -> nnf c.
Proof. unfold nnf. intros [->|(m & e & ->)]; exact I. Qed.

Ltac nnf_lit := progress unfold nnf; vm_compute; exact I.
Ltac pf_lit := progress unfold positive_finite; eexists; eexists; vm_compute; reflexivity.

Lemma unit_nnf (x : float) : unit_range x -> nnf x.
Proof. intros [H0 H1]. apply (nnf_bounded x 1 H0 H1). nnf_lit. Qed.

Lemma unit_not_nan (x : float) : unit_range x -> is_nan x = false.
Proof. intros [H0 _]. apply (leb_not_nan _ _ H0). Qed.

Section Contrast.

Variable Math_pow : float -> float -> float.

(** A channel between 0 and 255 has a linear value between 0 and 1. *)
Lemma srgbToLuminanceChannel_unit (c : float) :
  unit_pow Math_pow -> (0 <=? c)%float = true -> (c <=? 255)%float = true ->
  unit_range (srgbToLuminanceChannel Math_pow c).
Proof.
  intros Hpow H0 H1. unfold srgbToLuminanceChannel. cbv zeta.
  assert (Hc : nnf c) by (apply (nnf_bounded c 255 H0 H1); nnf_lit).
  assert (Hs : unit_range (c / 255)).
  { split; [apply div_ge0; [exact Hc|pf_lit]|].
    apply (div_mono c 255 255 255); try assumption; try nnf_lit; try pf_lit. reflexivity. }
  pose proof (unit_nnf _ Hs) as Hsn. destruct Hs as [Hs0 Hs1].
  destruct (c / 255 <=? 0.03928)%float.
  - split; [apply div_ge0; [exact Hsn|pf_lit]|].
    apply (leb_trans _ (1 / 12.92)); [|reflexivity].
    apply (div_mono (c / 255) 1 12.92 12.92); try assumption; try nnf_lit; try pf_lit.
    reflexivity.
  - apply Hpow.
    assert (Hsum1 : (c / 255 + 0.055 <=? 1 + 0.055)%float = true).
    { apply add_mono; try assumption; try nnf_lit. reflexivity. }
    assert (Hsum0 : (0 <=? c / 255 + 0.055)%float = true) by (apply add_ge0; [exact Hsn|nnf_lit]).
    assert (Hsn' : nnf (c / 255 + 0.055)) by (apply (nnf_bounded _ _ Hsum0 Hsum1); nnf_lit).
    split; [apply div_ge0; [exact Hsn'|pf_lit]|].
    apply (div_mono (c / 255 + 0.055) (1 + 0.055) 1.055 1.055);
      try assumption; try nnf_lit; try pf_lit. reflexivity.
Qed.

Lemma getRelativeLuminance_unit (v : RGBA) :
  unit_pow Math_pow -> in_gamut v -> unit_range (getRelativeLuminance Math_pow v).
Proof.
  intros Hpow ((Hr0 & Hr1) & (Hg0 & Hg1) & (Hb0 & Hb1)). unfold getRelativeLuminance. cbv zeta.
  pose proof (srgbToLuminanceChannel_unit _ Hpow Hr0 Hr1) as Ur.
  pose proof (srgbToLuminanceChannel_unit _ Hpow Hg0 Hg1) as Ug.
  pose proof (srgbToLuminanceChannel_unit _ Hpow Hb0 Hb1) as Ub.
  set (r := srgbToLuminanceChannel Math_pow (rgba_r v)) in *.
  set (g := srgbToLuminanceChannel Math_pow (rgba_g v)) in *.
  set (b := srgbToLuminanceChannel Math_pow (rgba_b v)) in *.
  pose proof (unit_nnf _ Ur) as Nr. pose proof (unit_nnf _ Ug) as Ng.
  pose proof (unit_nnf _ Ub) as Nb.
  assert (Tr : (0 <=? 0.2126 * r)%float = true /\ (0.2126 * r <=? 0.2126 * 1)%float = true).
  { split; [apply mul_ge0; [nnf_lit|exact Nr]|].
    apply mul_mono; try assumption; try nnf_lit; [reflexivity|apply Ur]. }
  assert (Tg : (0 <=? 0.7152 * g)%float = true /\ (0.7152 * g <=? 0.7152 * 1)%float = true).
  { split; [apply mul_ge0; [nnf_lit|exact Ng]|].
    apply mul_mono; try assumption; try nnf_lit; [reflexivity|apply Ug]. }
  assert (Tb : (0 <=? 0.0722 * b)%float = true /\ (0.0722 * b <=? 0.0722 * 1)%float = true).
  { split; [apply mul_ge0; [nnf_lit|exact Nb]|].
    apply mul_mono; try assumption; try nnf_lit; [reflexivity|apply Ub]. }
  assert (Nr' : nnf (0.2126 * r)) by (apply (nnf_bounded _ _ (proj1 Tr) (proj2 Tr)); nnf_lit).
  assert (Ng' : nnf (0.7152 * g)) by (apply (nnf_bounded _ _ (proj1 Tg) (proj2 Tg)); nnf_lit).
  assert (Nb' : nnf (0.0722 * b)) by (apply (nnf_bounded _ _ (proj1 Tb) (proj2 Tb)); nnf_lit).
  assert (S1 : (0 <=? 0.2126 * r + 0.7152 * g)%float = true /\
               (0.2126 * r + 0.7152 * g <=? 0.2126 * 1 + 0.7152 * 1)%float = true).
  { split; [apply add_ge0; assumption|].
    apply add_mono; try assumption; try nnf_lit; [apply Tr|apply Tg]. }
  assert (N1 : nnf (0.2126 * r + 0.7152 * g))
    by (apply (nnf_bounded _ _ (proj1 S1) (proj2 S1)); nnf_lit).
  split; [apply add_ge0; assumption|].
  apply (leb_trans _ (0.2126 * 1 + 0.7152 * 1 + 0.0722 * 1)); [|reflexivity].
  apply add_mono; try assumption; try nnf_lit; [apply S1|apply Tb].
Qed.

Lemma Math_max_min_order (x y : float) :
  is_nan x = false -> is_nan y = false ->
  (Math_max x y = x \/ Math_max x y = y) /\ (Math_min x y = x \/ Math_min x y = y) /\
  (Math_min x y <=? Math_max x y)%float = true.
Proof.
  intros Hx Hy.
  assert (Hmax : is_nan (Math_max x y) = false).
  { unfold Math_max. rewrite Hx, Hy. simpl.
    destruct (x <? y)%float; [exact Hy|]. destruct (y <? x)%float; [exact Hx|].
    destruct (is_zero x && get_sign x); assumption. }
  assert (Hmin : is_nan (Math_min x y) = false).
  { unfold Math_min. rewrite Hx, Hy. simpl.
    destruct (x <? y)%float; [exact Hx|]. destruct (y <? x)%float; [exact Hy|].
    destruct (is_zero x && get_sign x); assumption. }
  destruct (Math_max_spec x y Hmax) as (_ & _ & H1 & _ & Hc).
  destruct (Math_min_spec x y Hmin) as (_ & _ & H2 & _ & Hc').
  split; [exact Hc|]. split; [exact Hc'|]. eapply leb_trans; eassumption.
Qed.

(** Two luminances between 0 and 1 give a ratio between 1 and 21. *)
Lemma ratio_range (l1 l2 : float) :
  unit_range l1 -> unit_range l2 ->
  (1 <=? (Math_max l1 l2 + 0.05) / (Math_min l1 l2 + 0.05))%float = true /\
  ((Math_max l1 l2 + 0.05) / (Math_min l1 l2 + 0.05) <=? 21)%float = true.
Proof.
  intros U1 U2.
  destruct (Math_max_min_order l1 l2 (unit_not_nan _ U1) (unit_not_nan _ U2))
    as (Hmax & Hmin & Hle).
  assert (Ux : unit_range (Math_max l1 l2)) by (destruct Hmax as [->| ->]; assumption).
  assert (Uy : unit_range (Math_min l1 l2)) by (destruct Hmin as [->| ->]; assumption).
  set (hi := Math_max l1 l2) in *. set (lo := Math_min l1 l2) in *.
  pose proof (unit_nnf _ Ux) as Nx. pose proof (unit_nnf _ Uy) as Ny.
  assert (Hyx : (lo + 0.05 <=? hi + 0.05)%float = true).
  { apply add_mono; try assumption; try nnf_lit. reflexivity. }
  assert (Hy0 : (0.05 <=? lo + 0.05)%float = true).
  { apply (leb_trans _ (0 + 0.05)); [reflexivity|].
    apply add_mono; try assumption; try nnf_lit; [apply Uy|reflexivity]. }
  assert (Hx1 : (hi + 0.05 <=? 1 + 0.05)%float = true).
  { apply add_mono; try assumption; try nnf_lit; [apply Ux|reflexivity]. }
  assert (Py : positive_finite (lo + 0.05)).
  { apply (positive_finite_bounded _ 0.05 (1 + 0.05)); [pf_lit|nnf_lit|exact Hy0|].
    eapply leb_trans; eassumption. }
  assert (Px : positive_finite (hi + 0.05)).
  { apply (positive_finite_bounded _ 0.05 (1 + 0.05)); [pf_lit|nnf_lit| |exact Hx1].
    eapply leb_trans; eassumption. }
  split.
  - pose proof Py as (m & e & Ey). rewrite <- (div_self (lo + 0.05) false m e Ey).
    apply div_mono; try (apply positive_finite_nnf; assumption); try assumption.
    apply leb_refl. apply (leb_not_nan _ _ Hy0).
  - apply (leb_trans _ ((1 + 0.05) / 0.05)); [|reflexivity].
    apply div_mono; try (apply positive_finite_nnf; assumption); try assumption;
      try nnf_lit; pf_lit.
Qed.

Lemma finite_nonzero_not_nan_add (l c : float) :
  finite_nonzero (l + c) -> is_nan l = false.
Proof.
  unfold finite_nonzero. rewrite add_spec. intros H. apply is_nan_key. unfold float_key.
  destruct (Prim2SF l) as [s|s| |s m e]; simpl; eauto. contradiction.
Qed.


End Contrast.

(** ** The canonical hex string *)

(** Every rounding written with two characters is read back and written
    again as itself; checked by evaluation on the 272 roundings and the
    65536 pairs of characters. *)
Lemma channel_check_all : forallb channel_check pair_values = true.
Proof. vm_compute. reflexivity. Qed.

Lemma alpha_check_all : forallb alpha_check stable_values = true.
Proof. vm_compute. reflexivity. Qed.

Lemma pair_check_all :
  forallb (fun c1 => forallb (pair_check c1) all_ascii) all_ascii = true.
Proof. vm_compute. reflexivity. Qed.

Lemma mem_In (x : float) (l : list float) : mem x l = true <-> In x l.
Proof.
  unfold mem. rewrite existsb_exists. split.
  - intros (y & Hy & E). apply FloatAxioms.Leibniz.eqb_spec in E. subst y. exact Hy.
  - intros H. exists x. split; [exact H|]. apply FloatAxioms.Leibniz.eqb_spec. reflexivity.
Qed.

Lemma range_values_spec (x : float) (n : nat) :
  In x (PrimFloat.neg_zero :: map (fun k => Z2float (Z.of_nat k - 15)) (seq 0 n)) <->
  x = PrimFloat.neg_zero \/ exists z, -15 <= z < Z.of_nat n - 15 /\ x = Z2float z.
Proof.
  simpl. rewrite in_map_iff. split.
  - intros [H|(k & Hk & Hin)]; [left; auto|right]. apply in_seq in Hin.
    exists (Z.of_nat k - 15). split; [lia|auto].
  - intros [H|(z & Hz & ->)]; [left; auto|right].
    exists (Z.to_nat (z + 15)). split; [f_equal; lia|apply in_seq; lia].
Qed.

Lemma two_digit_In (x : float) : two_digit x <-> In (Math_round x) pair_values.
Proof.
  unfold two_digit, pair_values. rewrite range_values_spec.
  split; (intros [H|(z & Hz & E)]; [left; exact H|right; exists z; split; [lia|exact E]]).
Qed.

Lemma two_digit_alpha_In (a : float) :
  two_digit_alpha a <-> (a <? 1)%float = true /\ In (Math_round (a * 255)) stable_values.
Proof.
  unfold two_digit_alpha, stable_values. rewrite range_values_spec.
  split; intros [Hlt H]; (split; [exact Hlt|]);
    (destruct H as [H|(z & Hz & E)]; [left; exact H|right; exists z; split; [lia|exact E]]).
Qed.

Lemma toHex_channel (x : float) :
  two_digit x ->
  exists c1 c2,
    toHex x = String c1 (String c2 EmptyString) /\ is_ws c2 = false /\
    is_nan (parseInt16 (String c1 (String c2 EmptyString))) = false /\
    toHex (parseInt16 (String c1 (String c2 EmptyString))) = String c1 (String c2 EmptyString).
Proof.
  intros H. apply two_digit_In in H.
  pose proof channel_check_all as Hall. rewrite forallb_forall in Hall.
  specialize (Hall _ H). unfold channel_check in Hall. unfold toHex at 1.
  destruct (toUpperCase (padStart2 (Number_toString16 (Math_round x))))
    as [|c1 [|c2 [|]]]; try discriminate Hall.
  cbv zeta in Hall.
  apply andb_true_iff in Hall. destruct Hall as [Hall H3].
  apply andb_true_iff in Hall. destruct Hall as [H1 H2].
  exists c1, c2. split; [reflexivity|]. split; [apply negb_true_iff, H1|].
  split; [apply negb_true_iff, H2|apply String.eqb_eq, H3].
Qed.

Lemma toHex_alpha (a : float) :
  two_digit_alpha a ->
  exists c1 c2,
    toHex (a * 255) = String c1 (String c2 EmptyString) /\ is_ws c2 = false /\
    is_nan (parseInt16 (String c1 (String c2 EmptyString)) / 255) = false /\
    (parseInt16 (String c1 (String c2 EmptyString)) / 255 <? 1)%float = true /\
    toHex (parseInt16 (String c1 (String c2 EmptyString)) / 255 * 255)
      = String c1 (String c2 EmptyString).
Proof.
  intros H. apply two_digit_alpha_In in H. destruct H as [_ H].
  pose proof alpha_check_all as Hall. rewrite forallb_forall in Hall.
  specialize (Hall _ H). unfold alpha_check in Hall. unfold toHex at 1.
  destruct (toUpperCase (padStart2 (Number_toString16 (Math_round (a * 255)))))
    as [|c1 [|c2 [|]]]; try discriminate Hall.
  cbv zeta in Hall.
  apply andb_true_iff in Hall. destruct Hall as [Hall H4].
  apply andb_true_iff in Hall. destruct Hall as [Hall H3].
  apply andb_true_iff in Hall. destruct Hall as [H1 H2].
  exists c1, c2. split; [reflexivity|]. split; [apply negb_true_iff, H1|].
  split; [apply negb_true_iff, H2|]. split; [exact H3|apply String.eqb_eq, H4].
Qed.

Lemma toHex_opaque (a : float) : rounds_to_opaque a -> toHex (a * 255) = "FF".
Proof. intros [_ H]. unfold toHex. rewrite H. vm_compute. reflexivity. Qed.

(** Reading the hex string of a colour written with two characters for
    each channel. *)
Lemma parseColor_hex6 (c1 c2 c3 c4 c5 c6 : ascii) :
  is_ws c6 = false ->
  parseColor (String "#" (String c1 (String c2 (String c3 (String c4 (String c5
                (String c6 EmptyString)))))))
  = rgba_of (parseInt16 (String c1 (String c2 EmptyString)))
      (parseInt16 (String c3 (String c4 EmptyString)))
      (parseInt16 (String c5 (String c6 EmptyString))) 1.
Proof.
  intros W6. unfold parseColor, trim.
  cbn [chars list_ascii_of_string skip_ws]. change (is_ws "#") with false.
  cbn [rev app skip_ws]. rewrite W6.
  cbn [rev app of_chars string_of_list_ascii startsWith String.prefix Ascii.eqb Bool.eqb].
  unfold parseHex. cbn [String.length slice substring Nat.sub]. reflexivity.
Qed.

Lemma parseColor_hex8 (c1 c2 c3 c4 c5 c6 c7 c8 : ascii) :
  is_ws c8 = false ->
  parseColor (String "#" (String c1 (String c2 (String c3 (String c4 (String c5
                (String c6 (String c7 (String c8 EmptyString)))))))))
  = rgba_of (parseInt16 (String c1 (String c2 EmptyString)))
      (parseInt16 (String c3 (String c4 EmptyString)))
      (parseInt16 (String c5 (String c6 EmptyString)))
      (parseInt16 (String c7 (String c8 EmptyString)) / 255).
Proof.
  intros W8. unfold parseColor, trim.
  cbn [chars list_ascii_of_string skip_ws]. change (is_ws "#") with false.
  cbn [rev app skip_ws]. rewrite W8.
  cbn [rev app of_chars string_of_list_ascii startsWith String.prefix Ascii.eqb Bool.eqb].
  unfold parseHex. cbn [String.length slice substring Nat.sub]. reflexivity.
Qed.

(** What [rgbaToHex] writes for two-character channels and an alpha that
    is opaque or stable is read back by [parseHex] and written again as
    itself. *)
Lemma rgbaToHex_fixed (v : RGBA) :
  two_digit_channels v ->
  (rgba_a v <? 1)%float = false \/ two_digit_alpha (rgba_a v) ->
  exists v', parseColor (rgbaToHex v) = Some v' /\ rgbaToHex v' = rgbaToHex v.
Proof.
  destruct v as [r g b a]. unfold two_digit_channels. simpl. intros (Hr & Hg & Hb) Ha.
  destruct (toHex_channel r Hr) as (c1 & c2 & Er & _ & Nr & Tr).
  destruct (toHex_channel g Hg) as (c3 & c4 & Eg & _ & Ng & Tg).
  destruct (toHex_channel b Hb) as (c5 & c6 & Eb & W6 & Nb & Tb).
  unfold rgbaToHex at 1 3. simpl rgba_r. simpl rgba_g. simpl rgba_b. simpl rgba_a.
  rewrite Er, Eg, Eb.
  destruct Ha as [Hlt|Hst].
  - rewrite Hlt. cbv beta iota delta [String.append].
    rewrite (parseColor_hex6 _ _ _ _ _ _ W6). unfold rgba_of, isNaN.
    rewrite Nr, Ng, Nb. simpl. eexists. split; [reflexivity|].
    unfold rgbaToHex. simpl. rewrite Tr, Tg, Tb. reflexivity.
  - pose proof Hst as [Hlt _]. rewrite Hlt.
    destruct (toHex_alpha a Hst) as (c7 & c8 & Ea & W8 & Na & La & Ta).
    rewrite Ea. cbv beta iota delta [String.append].
    rewrite (parseColor_hex8 _ _ _ _ _ _ _ _ W8). unfold rgba_of, isNaN.
    rewrite Nr, Ng, Nb, Na. simpl. eexists. split; [reflexivity|].
    unfold rgbaToHex. simpl. rewrite Tr, Tg, Tb, La, Ta. reflexivity.
Qed.

(** With an alpha below 1 that rounds to 255 the pair "FF" is written,
    read back as opaque, and not written again. *)
Lemma rgbaToHex_drops (v : RGBA) :
  two_digit_channels v -> rounds_to_opaque (rgba_a v) ->
  exists v', parseColor (rgbaToHex v) = Some v' /\
             rgbaToHex v = (rgbaToHex v' ++ "FF")%string.
Proof.
  destruct v as [r g b a]. unfold two_digit_channels. simpl. intros (Hr & Hg & Hb) Ha.
  destruct (toHex_channel r Hr) as (c1 & c2 & Er & _ & Nr & Tr).
  destruct (toHex_channel g Hg) as (c3 & c4 & Eg & _ & Ng & Tg).
  destruct (toHex_channel b Hb) as (c5 & c6 & Eb & W6 & Nb & Tb).
  unfold rgbaToHex at 1 2. simpl rgba_r. simpl rgba_g. simpl rgba_b. simpl rgba_a.
  rewrite Er, Eg, Eb, (toHex_opaque a Ha). destruct Ha as [Hlt _]. rewrite Hlt.
  cbv beta iota delta [String.append].
  rewrite (parseColor_hex8 _ _ _ _ _ _ "F" "F" eq_refl). unfold rgba_of, isNaN.
  rewrite Nr, Ng, Nb. change (is_nan (parseInt16 "FF" / 255)) with false. simpl.
  eexists. split; [reflexivity|].
  unfold rgbaToHex. simpl rgba_r. simpl rgba_g. simpl rgba_b. simpl rgba_a.
  rewrite Tr, Tg, Tb. change (parseInt16 "FF" / 255 <? 1)%float with false.
  cbv beta iota delta [String.append]. reflexivity.
Qed.

Lemma pair_facts (c1 c2 : ascii) :
  is_nan (parseInt16 (String c1 (String c2 EmptyString))) = false ->
  two_digit (parseInt16 (String c1 (String c2 EmptyString))) /\
  ((parseInt16 (String c1 (String c2 EmptyString)) / 255 <? 1)%float = false \/
   two_digit_alpha (parseInt16 (String c1 (String c2 EmptyString)) / 255)).
Proof.
  intros Hn. pose proof pair_check_all as H.
  pose proof (for_all_ascii _ (for_all_ascii _ H c1) c2) as Hc. unfold pair_check in Hc.
  cbv zeta in Hc. rewrite Hn in Hc. rewrite orb_false_l in Hc.
  apply andb_true_iff in Hc. destruct Hc as [H1 H2].
  split; [apply two_digit_In, mem_In, H1|].
  destruct (parseInt16 (String c1 (String c2 EmptyString)) / 255 <? 1)%float eqn:E;
    [right|left; reflexivity].
  change (negb true) with false in H2. rewrite orb_false_l in H2.
  apply two_digit_alpha_In. split; [exact E|]. apply mem_In. exact H2.
Qed.

Lemma not_nan_div255 (x : float) : is_nan (x / 255) = false -> is_nan x = false.
Proof.
  intros H. destruct (is_nan x) eqn:E; [|reflexivity].
  rewrite (div255_nan x E) in H. discriminate.
Qed.

(** Every colour that [parseHex] returns has two-character channels and
    an alpha that is opaque or stable. *)
Lemma parseHex_channels (hex : string) (v : RGBA) :
  parseHex hex = Some v ->
  two_digit_channels v /\ ((rgba_a v <? 1)%float = false \/ two_digit_alpha (rgba_a v)).
Proof.
  rewrite parseHex_cleaned. generalize (cleanedHex hex). intros cl.
  unfold parseHex.
  destruct cl as [|c1 [|c2 [|c3 [|c4 [|c5 [|c6 [|c7 [|c8 [|c9 cl]]]]]]]]];
    cbn [String.length twice_at String.get slice substring Nat.sub Nat.eqb];
    try discriminate; intros H; apply rgba_of_Some in H;
    destruct H as (-> & Nr & Ng & Nb & Na); unfold two_digit_channels;
    simpl rgba_r; simpl rgba_g; simpl rgba_b; simpl rgba_a.
  - split; [|left; reflexivity].
    split; [apply pair_facts, Nr|]. split; [apply pair_facts, Ng|apply pair_facts, Nb].
  - split; [|apply pair_facts, not_nan_div255, Na].
    split; [apply pair_facts, Nr|]. split; [apply pair_facts, Ng|apply pair_facts, Nb].
  - split; [|left; reflexivity].
    split; [apply pair_facts, Nr|]. split; [apply pair_facts, Ng|apply pair_facts, Nb].
  - split; [|apply pair_facts, not_nan_div255, Na].
    split; [apply pair_facts, Nr|]. split; [apply pair_facts, Ng|apply pair_facts, Nb].
Qed.

Lemma Math_round_neg_zero : Math_round PrimFloat.neg_zero = PrimFloat.neg_zero.
Proof. reflexivity. Qed.

Lemma two_digit_byte_range (x : float) :
  (0 <=? x)%float = true -> (x <=? 255)%float = true -> two_digit x.
Proof.
  intros H0 H1. unfold two_digit.
  destruct (PrimFloat.Leibniz.eqb x PrimFloat.neg_zero) eqn:E.
  - apply FloatAxioms.Leibniz.eqb_spec in E. subst x. left. reflexivity.
  - right. destruct (Math_round_range_255 x H0 H1) as (z & Hz & Ez).
    + intros ->. vm_compute in E. discriminate.
    + exists z. split; [lia|exact Ez].
Qed.

(** An alpha between 0 and 1, or NaN, is opaque, stable, or rounds to
    opaque. *)
Lemma alpha_cases (a : float) :
  is_nan a = true \/ ((0 <=? a)%float = true /\ (a <=? 1)%float = true) ->
  (a <? 1)%float = false \/ two_digit_alpha a \/ rounds_to_opaque a.
Proof.
  intros [Hn|[H0 H1]].
  { left. destruct (a <? 1)%float eqn:E; [|reflexivity].
    apply ltb_not_nan in E. destruct E as [E _]. congruence. }
  destruct (a <? 1)%float eqn:E; [right|left; reflexivity].
  assert (Na : nnf a) by (apply (nnf_bounded a 1 H0 H1); unfold nnf; vm_compute; exact I).
  assert (N255 : nnf 255) by (unfold nnf; vm_compute; exact I).
  assert (Hlo : (0 <=? a * 255)%float = true) by (apply mul_ge0; assumption).
  assert (Hhi : (a * 255 <=? 255)%float = true).
  { apply (leb_trans _ (1 * 255)); [|reflexivity].
    apply mul_mono; try assumption; try (unfold nnf; vm_compute; exact I). reflexivity. }
  destruct (PrimFloat.Leibniz.eqb (a * 255) PrimFloat.neg_zero) eqn:Ez.
  - apply FloatAxioms.Leibniz.eqb_spec in Ez. left. split; [exact E|]. left.
    rewrite Ez. reflexivity.
  - destruct (Math_round_range_255 (a * 255) Hlo Hhi) as (z & Hz & Hr).
    + intros Heq. rewrite Heq in Ez. vm_compute in Ez. discriminate.
    + destruct (Z.eq_dec z 255) as [->|Hne].
      * right. split; [exact E|exact Hr].
      * left. split; [exact E|]. right. exists z. split; [lia|exact Hr].
Qed.

Lemma clamp_cases (lo hi x : float) :
  (lo <=? hi)%float = true ->
  is_nan (clamp lo hi x) = true \/
  ((lo <=? clamp lo hi x)%float = true /\ (clamp lo hi x <=? hi)%float = true).
Proof.
  intros H. destruct (is_nan (clamp lo hi x)) eqn:E; [left; reflexivity|right].
  apply clamp_range; assumption.
Qed.

Lemma parseAlpha_cases (m4 : option string) :
  ((parseAlpha m4 <? 1)%float = false \/ two_digit_alpha (parseAlpha m4) \/
   rounds_to_opaque (parseAlpha m4)).
Proof.
  destruct m4 as [v|]; simpl; [|left; reflexivity].
  apply alpha_cases. apply clamp_cases. reflexivity.
Qed.

(** Every colour that [parseRgb] returns has two-character channels. *)
Lemma parseRgb_channels (str : string) (v : RGBA) :
  parseRgb str = Some v ->
  two_digit_channels v /\
  ((rgba_a v <? 1)%float = false \/ two_digit_alpha (rgba_a v) \/ rounds_to_opaque (rgba_a v)).
Proof.
  unfold parseRgb. destruct (regex_match re_rgb str) as [m|]; [|discriminate].
  cbv zeta. intros H. apply rgba_of_Some in H. destruct H as (-> & Nr & Ng & Nb & Na).
  unfold two_digit_channels. simpl.
  split; [|apply parseAlpha_cases].
  split; [|split]; apply two_digit_byte_range;
    try (apply (clamp_range 0 255 _ eq_refl); assumption).
Qed.

Lemma parseHsl_alpha (str : string) (v : RGBA) :
  parseHsl str = Some v ->
  (rgba_a v <? 1)%float = false \/ two_digit_alpha (rgba_a v) \/ rounds_to_opaque (rgba_a v).
Proof.
  unfold parseHsl. destruct (regex_match re_hsl str) as [m|]; [|discriminate].
  cbv zeta. destruct (_ =? 0)%float; intros [= <-]; simpl; apply parseAlpha_cases.
Qed.

Lemma append_FF_neq (h : string) : (h ++ "FF")%string <> h.
Proof.
  intros H. symmetry in H. exact (append_not_self _ _ _ H).
Qed.

Lemma opaque_exclusive (a : float) :
  rounds_to_opaque a -> ~ ((a <? 1)%float = false \/ two_digit_alpha a).
Proof.
  intros [Hlt Hr] [H|[_ [H|(z & Hz & H)]]].
  - congruence.
  - rewrite Hr in H. vm_compute in H. discriminate.
  - rewrite Hr in H.
    assert (Hm : mem (Z2float z) stable_values = true).
    { apply mem_In. unfold stable_values. apply range_values_spec. right.
      exists z. split; [lia|reflexivity]. }
    rewrite <- H in Hm. vm_compute in Hm. discriminate.
Qed.

Lemma parseColor_channels (input : string) (v : RGBA) :
  parseColor input = Some v ->
  (hsl_form input = false -> two_digit_channels v) /\
  ((rgba_a v <? 1)%float = false \/ two_digit_alpha (rgba_a v) \/ rounds_to_opaque (rgba_a v)).
Proof.
  unfold parseColor, hsl_form. cbv zeta.
  destruct (startsWith (trim input) "#").
  { intros H. destruct (parseHex_channels _ _ H) as [Hc Ha].
    split; [intros _; exact Hc|]. destruct Ha; auto. }
  destruct (startsWith (toLowerCase (trim input)) "rgb").
  { intros H. destruct (parseRgb_channels _ _ H) as [Hc Ha]. split; [intros _; exact Hc|exact Ha]. }
  destruct (startsWith (toLowerCase (trim input)) "hsl").
  { intros H. split; [discriminate|]. exact (parseHsl_alpha _ _ H). }
  destruct (regex_match re_bare_hex (trim input)); [|discriminate].
  intros H. destruct (parseHex_channels _ _ H) as [Hc Ha].
  split; [intros _; exact Hc|]. destruct Ha; auto.
Qed.

Section Canonical.

Variable Math_pow : float -> float -> float.
Variable Math_cbrt : float -> float.
Variable Math_atan2 : float -> float -> float.


End Canonical.

(** * Worked instances *)

(** C5, at an input the code accepts against it.  In the six-digit form
    a pair whose first character is a hexadecimal digit is read up to
    its first other character: "#1G0000" parses as red 1, green 0,
    blue 0, where the three-digit form "#GGG" is rejected. *)
Theorem parseHex_reads_digit_prefix :
  parseHex "#1G0000" = Some (mkRGBA 1 0 0 1) /\ parseHex "#GGG" = None.
Proof. split; vm_compute; reflexivity. Qed.

(** C6 fails at red 255, green 0, blue 1: the hue is 360. *)
Lemma rgbaToHsla_hue_360 :
  rgbaToHsla (mkRGBA 255 0 1 1) = mkHSLA 360 100 50 1.
Proof. vm_compute. reflexivity. Qed.

Lemma rgbaToHsla_ranges_witness :
  let hsla := rgbaToHsla (mkRGBA (Z2float 255) (Z2float 102) (Z2float 0) 1) in
  (exists h, 0 <= h <= 360 /\ hsla_h hsla = Z2float h) /\
  (exists s, 0 <= s <= 100 /\ hsla_s hsla = Z2float s) /\
  (exists l, 0 <= l <= 100 /\ hsla_l hsla = Z2float l) /\
  hsla_a hsla = 1%float.
Proof. apply (rgbaToHsla_ranges 255 102 0 1); lia. Defined.

(** The values of the approximated functions at the arguments that the
    instances below reach; NaN elsewhere. *)
Module Sample.

Definition pow (x y : float) : float :=
  if (x =? 1)%float then 1%float else PrimFloat.nan.

Definition cbrt (x : float) : float :=
  if (x =? 0)%float then x else if (x =? 1)%float then 1%float else PrimFloat.nan.

Definition atan2 (y x : float) : float :=
  if PrimFloat.Leibniz.eqb y 0 && PrimFloat.Leibniz.eqb x 0 then 0%float
  else PrimFloat.nan.

(** A dataset of one name, and tables in the layout the lookups read. *)
Definition COLOR_NAMES : list (string * string) := [("#000000", "Black")].

Definition HUE_FAMILIES : list (string * (float * float)) :=
  [("Red", (0, 30)); ("Orange", (30, 70)); ("Red2", (330, 360))]%float.

Definition LIGHTNESS_MODIFIERS : list (float * float * string) :=
  [(0, 0.3, "Dark"); (0.7, 1, "Light")]%float.

Definition CHROMA_MODIFIERS : list (float * float * string) :=
  [(0, 0.05, "Gray"); (0.2, 1, "Vivid")]%float.

Definition normalizeColor := normalizeColor pow cbrt atan2.
Definition getColorCache := getColorCache pow cbrt atan2 COLOR_NAMES.
Definition nameColor :=
  nameColor pow cbrt atan2 COLOR_NAMES HUE_FAMILIES LIGHTNESS_MODIFIERS CHROMA_MODIFIERS.
Definition nameColors :=
  nameColors pow cbrt atan2 COLOR_NAMES HUE_FAMILIES LIGHTNESS_MODIFIERS CHROMA_MODIFIERS.
Definition generateFallbackName :=
  generateFallbackName HUE_FAMILIES LIGHTNESS_MODIFIERS CHROMA_MODIFIERS.

(** [normalizeColor("#000000")] *)
Definition black : NormalizedColor :=
  mkNormalizedColor "#000000" (mkRGBA 0 0 0 1) "#000000" (mkHSLA 0 0 0 1)
    (mkOKLab 0 0 0) (mkOKLCH 0 0 0).

(** [normalizeColor("#FF0000")], with OKLab and OKLCH values as an
    engine computes them. *)
Definition red : NormalizedColor :=
  mkNormalizedColor "#FF0000" (mkRGBA 255 0 0 1) "#FF0000" (mkHSLA 0 100 50 1)
    (mkOKLab 0.6279553606145515 0.22486306106597398 0.12584629853073503)
    (mkOKLCH 0.6279553606145515 0.25768330773615666 29.233885192342626).

(** A cache that holds the entry of "Red". *)
Definition redCache : list ColorEntry := [mkColorEntry "#FF0000" "Red" red].

Definition blackCache : list ColorEntry := [mkColorEntry "#000000" "Black" black].

(** A cache of three entries: black, then red under two names. *)
Definition threeCache : list ColorEntry :=
  [mkColorEntry "#000000" "Black" black; mkColorEntry "#FF0000" "Red" red;
   mkColorEntry "#FF0000" "Crimson" red].

(** Records of which only the OKLab and OKLCH triples are set apart from
    those of [red] or [black]; 'auto' reads no other field.  [nearRed]
    is 0.05 lighter than red; [deepRed] is far from black and from red;
    [dusk] is 0.1511 away from black and has a chroma below 0.02 and a
    lightness below 0.15. *)
Definition nearRed : NormalizedColor :=
  mkNormalizedColor "#FF0000" (mkRGBA 255 0 0 1) "#FF0000" (mkHSLA 0 100 50 1)
    (mkOKLab 0.6779553606145515 0.22486306106597398 0.12584629853073503)
    (mkOKLCH 0.6779553606145515 0.25768330773615666 29.233885192342626).

Definition deepRed : NormalizedColor :=
  mkNormalizedColor "#000000" (mkRGBA 0 0 0 1) "#000000" (mkHSLA 0 0 0 1)
    (mkOKLab 0.2 0.3 0) (mkOKLCH 0.2 0.3 0).

Definition dusk : NormalizedColor :=
  mkNormalizedColor "#000000" (mkRGBA 0 0 0 1) "#000000" (mkHSLA 0 0 0 1)
    (mkOKLab 0.1499 0.019 0) (mkOKLCH 0.1499 0.019 0).

(** A function that meets the condition [unit_pow] on [Math.pow]: the
    square of the base, whatever the exponent. *)
Definition square (x y : float) : float := (x * x)%float.

(** [normalizeColor("rgba(255, 102, 0, 0.5)")] and
    [normalizeColor("#-10000")] *)
Definition alphaOrange : NormalizedColor :=
  Eval vm_compute in
    match normalizeColor "rgba(255, 102, 0, 0.5)" with
    | Ok n => n
    | Throw _ => black
    end.

Definition minusOne : NormalizedColor :=
  Eval vm_compute in
    match normalizeColor "#-10000" with
    | Ok n => n
    | Throw _ => black
    end.

End Sample.

Lemma Sample_normalize_black : Sample.normalizeColor "#000000" = Ok Sample.black.
Proof. vm_compute. reflexivity. Qed.

Lemma Sample_getColorCache :
  Sample.getColorCache None = (Ok Sample.blackCache, Some Sample.blackCache).
Proof. vm_compute. reflexivity. Qed.

(** Two instances of C1.  With black, red and a second red in the cache,
    a colour 0.05 away from red is named "Red": the entry is not the
    first of the cache, it ties with the later "Crimson", and its
    distance is between 0 and 0.15.  A colour farther than 0.15 from
    every entry gets the fallback name. *)
Lemma nameColor_auto_nearest_witness :
  (selected Sample.nearRed Sample.threeCache (scanNearest Sample.nearRed Sample.threeCache) /\
   (forall e : ColorEntry,
      let dL := (lab_L (nc_oklab Sample.nearRed) - lab_L (nc_oklab (ce_color e)))%float in
      let da := (lab_a (nc_oklab Sample.nearRed) - lab_a (nc_oklab (ce_color e)))%float in
      let db := (lab_b (nc_oklab Sample.nearRed) - lab_b (nc_oklab (ce_color e)))%float in
      dist Sample.nearRed e = Math_sqrt (dL * dL + da * da + db * db)%float) /\
   Sample.nameColor Sample.nearRed Auto None (Some Sample.threeCache)
     = (Ok "Red", Some Sample.threeCache) /\
   ((@None (list (string * string)) = None \/
     exists names, None = Some names /\ providedName Sample.nearRed names = None) ->
    Sample.nameColor Sample.nearRed Provided None (Some Sample.threeCache)
      = (Ok "Red", Some Sample.threeCache))) /\
  nearest_name (scanNearest Sample.nearRed Sample.threeCache) = "Red" /\
  (0 <? nearest_distance (scanNearest Sample.nearRed Sample.threeCache))%float = true /\
  (nearest_distance (scanNearest Sample.nearRed Sample.threeCache) <? 0.15)%float = true /\
  (selected Sample.deepRed Sample.threeCache (scanNearest Sample.deepRed Sample.threeCache) /\
   (forall e : ColorEntry,
      let dL := (lab_L (nc_oklab Sample.deepRed) - lab_L (nc_oklab (ce_color e)))%float in
      let da := (lab_a (nc_oklab Sample.deepRed) - lab_a (nc_oklab (ce_color e)))%float in
      let db := (lab_b (nc_oklab Sample.deepRed) - lab_b (nc_oklab (ce_color e)))%float in
      dist Sample.deepRed e = Math_sqrt (dL * dL + da * da + db * db)%float) /\
   Sample.nameColor Sample.deepRed Auto None (Some Sample.threeCache)
     = (Ok "Dark Vivid Red", Some Sample.threeCache) /\
   ((@None (list (string * string)) = None \/
     exists names, None = Some names /\ providedName Sample.deepRed names = None) ->
    Sample.nameColor Sample.deepRed Provided None (Some Sample.threeCache)
      = (Ok "Dark Vivid Red", Some Sample.threeCache))) /\
  nearest_name (scanNearest Sample.deepRed Sample.threeCache) = "Black" /\
  (nearest_distance (scanNearest Sample.deepRed Sample.threeCache) <? 0.15)%float = false.
Proof.
  split; [|split; [|split; [|split; [|split; [|split]]]]]; try (vm_compute; reflexivity).
  - exact (nameColor_auto_nearest Sample.pow Sample.cbrt Sample.atan2 Sample.COLOR_NAMES
             Sample.HUE_FAMILIES Sample.LIGHTNESS_MODIFIERS Sample.CHROMA_MODIFIERS
             Sample.nearRed None (Some Sample.threeCache) Sample.threeCache
             (Some Sample.threeCache) eq_refl).
  - exact (nameColor_auto_nearest Sample.pow Sample.cbrt Sample.atan2 Sample.COLOR_NAMES
             Sample.HUE_FAMILIES Sample.LIGHTNESS_MODIFIERS Sample.CHROMA_MODIFIERS
             Sample.deepRed None (Some Sample.threeCache) Sample.threeCache
             (Some Sample.threeCache) eq_refl).
Defined.

(** C1 fails as an equivalence: a colour 0.1511 away from black, the only
    entry, is not below the threshold, and its fallback name is the
    entry's name, "Black". *)
Lemma nameColor_fallback_repeats_entry_name :
  nearest_name (scanNearest Sample.dusk Sample.blackCache) = "Black" /\
  (nearest_distance (scanNearest Sample.dusk Sample.blackCache) <? 0.15)%float = false /\
  Sample.generateFallbackName Sample.dusk = "Black" /\
  Sample.nameColor Sample.dusk Auto None None = (Ok "Black", Some Sample.blackCache).
Proof. repeat split; vm_compute; reflexivity. Qed.

Lemma nameColors_suffixes_witness :
  (exists result,
     Sample.nameColors [Sample.red; Sample.red; Sample.red] Auto None (Some Sample.redCache)
       = (Ok result, Some Sample.redCache) /\
     length result = 3%nat /\
     forall (i : nat) (base : string), ["Red"; "Red"; "Red"] !! i = Some base ->
       result !! i = Some (suffixed base (occurrences base (take (S i) ["Red"; "Red"; "Red"])))) /\
  (forall red, [Sample.red; Sample.red; Sample.red] = [red; red; red] -> Auto = Auto ->
     ["Red"; "Red"; "Red"] !! 0%nat = Some "Red" ->
     Sample.nameColors [Sample.red; Sample.red; Sample.red] Auto None (Some Sample.redCache)
       = (Ok ["Red"; "Red 2"; "Red 3"], Some Sample.redCache)).
Proof.
  apply (nameColors_suffixes Sample.pow Sample.cbrt Sample.atan2 Sample.COLOR_NAMES
           Sample.HUE_FAMILIES Sample.LIGHTNESS_MODIFIERS Sample.CHROMA_MODIFIERS
           [Sample.red; Sample.red; Sample.red] Auto None (Some Sample.redCache)
           ["Red"; "Red"; "Red"] (Some Sample.redCache)).
  vm_compute. reflexivity.
Defined.

(** An instance of C9: the only key that matches red is in lower case
    and maps to the empty string, which is the result. *)
Lemma nameColor_provided_match_witness :
  (exists (i : nat) (key' value' : string),
     [("#00ff00", "Lime"); ("#ff0000", "")] !! i = Some (key', value') /\
     toUpperCase key' = toUpperCase (nc_hex Sample.red) /\
     Sample.nameColor Sample.red Provided (Some [("#00ff00", "Lime"); ("#ff0000", "")]) None
       = (Ok value', None) /\
     ((obj_get [("#00ff00", "Lime"); ("#ff0000", "")] (toUpperCase (nc_hex Sample.red))
         = Some value' /\ value' <> "" /\ key' = toUpperCase (nc_hex Sample.red))
      \/
      ((obj_get [("#00ff00", "Lime"); ("#ff0000", "")] (toUpperCase (nc_hex Sample.red)) = None \/
        obj_get [("#00ff00", "Lime"); ("#ff0000", "")] (toUpperCase (nc_hex Sample.red))
          = Some "") /\
       forall (j : nat) (k v : string), (j < i)%nat ->
         [("#00ff00", "Lime"); ("#ff0000", "")] !! j = Some (k, v) ->
         toUpperCase k <> toUpperCase (nc_hex Sample.red))) /\
     ((forall k v, In (k, v) [("#00ff00", "Lime"); ("#ff0000", "")] ->
         toUpperCase k = toUpperCase (nc_hex Sample.red) -> v = "") ->
      value' = "")) /\
  Sample.nameColor Sample.red Provided (Some [("#00ff00", "Lime"); ("#ff0000", "")]) None
    = (Ok "", None).
Proof.
  split; [|vm_compute; reflexivity].
  apply (nameColor_provided_match Sample.pow Sample.cbrt Sample.atan2 Sample.COLOR_NAMES
           Sample.HUE_FAMILIES Sample.LIGHTNESS_MODIFIERS Sample.CHROMA_MODIFIERS
           Sample.red [("#00ff00", "Lime"); ("#ff0000", "")] None "#ff0000" "").
  - right. left. reflexivity.
  - reflexivity.
Defined.

(** C9 fails where two keys equal the hex up to letter case: the value
    of one of them is returned, not of each.  The key "#FF0000" maps to
    the empty string and the result is "a"; the key "#ff0000" maps to
    the empty string and the result is "b". *)
Lemma nameColor_provided_other_key :
  Sample.nameColor Sample.red Provided (Some [("#ff0000", "a"); ("#FF0000", "")]) None
    = (Ok "a", None) /\
  Sample.nameColor Sample.red Provided (Some [("#ff0000", ""); ("#FF0000", "b")]) None
    = (Ok "b", None).
Proof. split; vm_compute; reflexivity. Qed.

(** C3 fails where the name that the map gives to another colour is the
    name that 'auto' finds: no key matches black's hex, and the result
    is the name given to white. *)
Lemma nameColor_fallthrough_equals_provided :
  providedName Sample.black [("#FFFFFF", "Black")] = None /\
  Sample.nameColor Sample.black Provided (Some [("#FFFFFF", "Black")]) None
    = (Ok "Black", Some Sample.blackCache) /\
  Sample.nameColor Sample.black Auto None None = (Ok "Black", Some Sample.blackCache).
Proof. repeat split; vm_compute; reflexivity. Qed.





(** ** Instances of the further properties *)

Lemma parseHex_length_gate_witness :
  parseHex "#F00" = Some (mkRGBA 255 0 0 1) /\
  In (String.length (cleanedHex "#F00")) [3; 4; 6; 8]%nat.
Proof.
  split; [vm_compute; reflexivity|].
  apply (parseHex_length_gate "#F00" (mkRGBA 255 0 0 1)). vm_compute. reflexivity.
Defined.

Lemma parseHex_short_rejects_nonhex_witness : parseHex "#0G0" = None.
Proof.
  apply (parseHex_short_rejects_nonhex "#0G0" "G").
  - left. reflexivity.
  - simpl. right. left. reflexivity.
  - reflexivity.
Defined.

Lemma parseHex_accepts_hex_digits_witness :
  exists v, parseHex "#ff6600" = Some v /\ byte_channels v /\
            (rgba_a v = 1%float \/ exists x, is_byte x /\ rgba_a v = (x / 255)%float).
Proof.
  apply (parseHex_accepts_hex_digits "#ff6600").
  - reflexivity.
  - simpl. auto.
Defined.

Lemma hex_literal_canonical_witness :
  exists h, canonicalHex Sample.pow Sample.cbrt Sample.atan2 "#f60" = Some h /\
            canonicalHex Sample.pow Sample.cbrt Sample.atan2 h = Some h.
Proof.
  apply (hex_literal_canonical Sample.pow Sample.cbrt Sample.atan2 "f60").
  - reflexivity.
  - simpl. auto.
Defined.

Lemma parseRgb_clamped_witness :
  parseRgb "rgb(300, 102, 0)" = Some (mkRGBA 255 102 0 1) /\
  ((0 <=? 255) && (255 <=? 255))%float = true /\
  ((0 <=? 102) && (102 <=? 255))%float = true /\
  ((0 <=? 0) && (0 <=? 255))%float = true /\
  ((0 <=? 1) && (1 <=? 1))%float = true.
Proof.
  split; [vm_compute; reflexivity|].
  apply (parseRgb_clamped "rgb(300, 102, 0)" (mkRGBA 255 102 0 1)).
  vm_compute. reflexivity.
Defined.

Lemma nameColor_invalid_dataset_witness :
  let names := [("#000000", "Black"); ("zzz", "Bad"); ("#FFFFFF", "White")] in
  nameColor Sample.pow Sample.cbrt Sample.atan2 names Sample.HUE_FAMILIES
    Sample.LIGHTNESS_MODIFIERS Sample.CHROMA_MODIFIERS Sample.red Auto None None
    = (Throw "Invalid color format: zzz", None) /\
  nameColors Sample.pow Sample.cbrt Sample.atan2 names Sample.HUE_FAMILIES
    Sample.LIGHTNESS_MODIFIERS Sample.CHROMA_MODIFIERS [Sample.red; Sample.black] Auto None None
    = (Throw "Invalid color format: zzz", None) /\
  nameColor Sample.pow Sample.cbrt Sample.atan2 names Sample.HUE_FAMILIES
    Sample.LIGHTNESS_MODIFIERS Sample.CHROMA_MODIFIERS Sample.red NoNames None None
    = (Ok "", None).
Proof.
  apply (nameColor_invalid_dataset Sample.pow Sample.cbrt Sample.atan2
           [("#000000", "Black"); ("zzz", "Bad"); ("#FFFFFF", "White")]
           Sample.HUE_FAMILIES Sample.LIGHTNESS_MODIFIERS Sample.CHROMA_MODIFIERS
           [("#000000", "Black")] "zzz" "Bad" [("#FFFFFF", "White")]
           Sample.red None [Sample.black]).
  - reflexivity.
  - intros h n [[= <- <-]|[]]. vm_compute. discriminate.
  - vm_compute. reflexivity.
Defined.

Lemma nameColor_cache_independent_witness :
  exists name st',
    Sample.nameColor Sample.red Auto None None = (Ok name, st') /\
    (st' = None \/ st' = Some Sample.blackCache) /\
    Sample.nameColor Sample.red Auto None (Some Sample.blackCache)
      = (Ok name, Some Sample.blackCache).
Proof.
  apply (nameColor_cache_independent Sample.pow Sample.cbrt Sample.atan2 Sample.COLOR_NAMES
           Sample.HUE_FAMILIES Sample.LIGHTNESS_MODIFIERS Sample.CHROMA_MODIFIERS
           Sample.blackCache Sample.red Auto None).
  vm_compute. reflexivity.
Defined.

Lemma nameColors_same_base_distinct_witness :
  uniqueNames ["Red"; "Blue"; "Red"] !! 0%nat <> uniqueNames ["Red"; "Blue"; "Red"] !! 2%nat.
Proof.
  apply (nameColors_same_base_distinct ["Red"; "Blue"; "Red"] 0 2 "Red").
  - lia.
  - discriminate.
  - reflexivity.
  - reflexivity.
Defined.

Lemma uniqueNames_without_duplicates_witness :
  uniqueNames ["Red"; ""; ""; "Blue"] = ["Red"; ""; ""; "Blue"].
Proof.
  apply (uniqueNames_without_duplicates ["Red"; ""; ""; "Blue"]).
  intros base Hb. cbn [occurrences].
  destruct (String.eqb_spec "" base) as [E|_]; [contradiction Hb; symmetry; exact E|].
  destruct (String.eqb_spec "Red" base) as [E|_];
    [subst base; vm_compute; lia|destruct (String.eqb "Blue" base); lia].
Defined.

Lemma parseHex_rgbaToHex_witness :
  parseHex (rgbaToHex (mkRGBA 255 102 0 (Z2float 128 / 255)))
    = Some (mkRGBA 255 102 0 (Z2float 128 / 255)).
Proof.
  apply (parseHex_rgbaToHex (mkRGBA 255 102 0 (Z2float 128 / 255))).
  - repeat split; [exists 255|exists 102|exists 0]; (split; [lia|reflexivity]).
  - right. exists 128. split; [lia|reflexivity].
Defined.

Lemma rgbaToHsla_gray_witness :
  let hsla := rgbaToHsla (mkRGBA 128 128 128 0.5) in
  hsla_h hsla = 0%float /\ hsla_s hsla = 0%float /\ hsla_a hsla = 0.5%float.
Proof. apply (rgbaToHsla_gray 128 0.5). reflexivity. Defined.

Lemma colorDistance_self_witness : colorDistance (nc_oklab Sample.red) (nc_oklab Sample.red) = 0%float.
Proof. apply (proj2 (colorDistance_self (nc_oklab Sample.red))); reflexivity. Defined.

Lemma nameColor_exact_match_witness :
  exists (j : nat) (e' : ColorEntry),
    (j <= 0)%nat /\ Sample.blackCache !! j = Some e' /\
    (dist Sample.black e' <=? 0)%float = true /\
    (forall (k : nat) (e'' : ColorEntry), (k < j)%nat -> Sample.blackCache !! k = Some e'' ->
       (dist Sample.black e'' <=? 0)%float = false) /\
    Sample.nameColor Sample.black Auto None None = (Ok (ce_name e'), Some Sample.blackCache).
Proof.
  apply (nameColor_exact_match Sample.pow Sample.cbrt Sample.atan2 Sample.COLOR_NAMES
           Sample.HUE_FAMILIES Sample.LIGHTNESS_MODIFIERS Sample.CHROMA_MODIFIERS
           Sample.black None None Sample.blackCache (Some Sample.blackCache) 0
           (mkColorEntry "#000000" "Black" Sample.black)).
  - vm_compute. reflexivity.
  - reflexivity.
  - vm_compute. reflexivity.
Defined.

Lemma getColorCache_mirrors_dataset_witness :
  Some Sample.blackCache = Some Sample.blackCache /\
  map (fun e => (ce_hex e, ce_name e)) Sample.blackCache = Sample.COLOR_NAMES /\
  forall e, In e Sample.blackCache -> Sample.normalizeColor (ce_hex e) = Ok (ce_color e).
Proof.
  apply (getColorCache_mirrors_dataset Sample.pow Sample.cbrt Sample.atan2 Sample.COLOR_NAMES
           Sample.blackCache (Some Sample.blackCache)).
  vm_compute. reflexivity.
Defined.

Lemma linearToSrgb_out_of_gamut_witness :
  linearToSrgb Sample.pow (-0.5) = 0%float /\ linearToSrgb Sample.pow 2 = 255%float.
Proof.
  split.
  - apply (proj1 (linearToSrgb_out_of_gamut Sample.pow (-0.5))). reflexivity.
  - apply (proj2 (linearToSrgb_out_of_gamut Sample.pow 2)); reflexivity.
Defined.


Lemma parseColor_accepted_witness :
  (startsWith (trim "  ff6600 ") "#" = true /\
   parseHex (trim "  ff6600 ") = Some (mkRGBA 255 102 0 1)) \/
  (startsWith (toLowerCase (trim "  ff6600 ")) "rgb" = true /\
   parseRgb (trim "  ff6600 ") = Some (mkRGBA 255 102 0 1)) \/
  (startsWith (toLowerCase (trim "  ff6600 ")) "hsl" = true /\
   parseHsl (trim "  ff6600 ") = Some (mkRGBA 255 102 0 1)) \/
  (all_hex_digits (trim "  ff6600 ") /\
   In (String.length (trim "  ff6600 ")) [3; 4; 6; 8]%nat /\
   parseHex (trim "  ff6600 ") = Some (mkRGBA 255 102 0 1)).
Proof.
  apply (parseColor_accepted "  ff6600 " (mkRGBA 255 102 0 1)). vm_compute. reflexivity.
Defined.
